(** * bslmf_rvalue: the [Rvalue] vocabulary type, [RvalueUtil], and the
    move-enabled [vector] of the component's usage example.

    The component (groups/bsl/bslmf/bslmf_rvalue.h) has two implementations
    chosen by the preprocessor: with rvalue references and alias templates
    [Rvalue<TYPE>] is [TYPE&&]; otherwise it is a class holding a pointer.
    Objects are identified by the address they live at; a reference is the
    address of its referent, a pointer is an address or null (0). *)

From stdpp Require Import gmap.
From Stdlib Require Import ZArith Lia.

Local Open Scope Z_scope.

(** ** Outcomes of running code *)

Inductive failure :=
  | AssertionFailed   (* an assertion macro found its condition false *)
  | BadAlloc          (* operator new threw *)
  | Undefined.        (* the C++ standard gives the execution no meaning *)

Inductive result (A : Type) :=
  | Ok (a : A)
  | Fail (f : failure).
Arguments Ok {A} a.
Arguments Fail {A} f.

Definition rbind {A B} (r : result A) (k : A → result B) : result B :=
  match r with Ok a => k a | Fail f => Fail f end.

(** Code that reads and writes a store of type [St]. *)
Definition M (St A : Type) : Type := St → result (A * St).

Definition ret {St A} (a : A) : M St A := λ s, Ok (a, s).
Definition bind {St A B} (m : M St A) (k : A → M St B) : M St B :=
  λ s, match m s with Ok (a, s') => k a s' | Fail f => Fail f end.
Definition fail {St A} (f : failure) : M St A := λ _, Fail f.
Definition lift {St A} (r : result A) : M St A :=
  λ s, match r with Ok a => Ok (a, s) | Fail f => Fail f end.
Definition check {St} (b : bool) (f : failure) : M St unit :=
  if b then ret tt else fail f.

Declare Scope cpp_scope.
Delimit Scope cpp_scope with cpp.
Notation "x <- m ;; k" := (bind m (λ x, k))
  (at level 100, m at next level, k at level 200, right associativity,
   format "'[v' x  <-  m  ;;  '/' k ']'") : cpp_scope.
Notation "m ;; k" := (bind m (λ _, k))
  (at level 100, k at level 200, right associativity,
   format "'[v' m  ;;  '/' k ']'") : cpp_scope.
Local Open Scope cpp_scope.

(** ** The integer type [int] *)

Definition INT_MAX : Z := 2147483647.
Definition INT_MIN : Z := -2147483648.

Definition in_int (z : Z) : Prop := INT_MIN ≤ z ≤ INT_MAX.

(** [int(e)] for an integral [e] (a [size_t] or a [ptrdiff_t]): the low
    32 bits, read as a two's complement number. *)
Definition to_int (z : Z) : Z := (z - INT_MIN) mod 4294967296 + INT_MIN.

(** [int(1.5 * n)] for an [int n]: the product is exact in a [double], the
    conversion truncates towards zero, and it is undefined when the
    truncated value is not an [int]. *)
Definition int_of_1_5_times (n : Z) : result Z :=
  let q := Z.quot (3 * n) 2 in
  if (INT_MIN <=? q) && (q <=? INT_MAX) then Ok q else Fail Undefined.

(** Modelled from the spec: [BSLS_ASSERT] of bsls_assert.h, which the sources
    at hand only include; in a build that checks assertions it fires when
    its condition is false. [assert] and the test driver's [ASSERT] are
    read the same way. *)
Definition BSLS_ASSERT (cond : bool) : result unit :=
  if cond then Ok tt else Fail AssertionFailed.

(** ** References and pointers *)

(** [&lvalue] *)
Definition address_of (lvalue : Z) : Z := lvalue.

(** [*pointer]: the object a pointer points to; a null pointer has none. *)
Definition deref (pointer : Z) : result Z :=
  if pointer =? 0 then Fail Undefined else Ok pointer.

(** A [const TYPE&]. *)
Record const_ref := ConstRef { cref_target : Z }.

(** ** The C++03 implementation: [Rvalue<TYPE>] is a class *)

Module Cpp03.

Record Rvalue := MkRvalue { d_pointer : Z }.

(** [explicit Rvalue(TYPE *pointer)], private *)
Definition Rvalue_ctor (pointer : Z) : result Rvalue :=
  let this := {| d_pointer := pointer |} in
  rbind (BSLS_ASSERT (negb (0 =? pointer))) (λ _, Ok this).

(** [operator TYPE&() const] *)
Definition to_lvalue (this : Rvalue) : result Z :=
  deref (d_pointer this).

(** [RvalueUtil::access(Rvalue<TYPE> rvalue)]: [return rvalue;] converts
    the handle to [TYPE&]. *)
Definition access (rvalue : Rvalue) : result Z :=
  to_lvalue rvalue.

(** [RvalueUtil::move(TYPE& lvalue)] *)
Definition move (lvalue : Z) : result Rvalue :=
  Rvalue_ctor (address_of lvalue).

(** [RvalueUtil::move(Rvalue<TYPE> rvalue)] *)
Definition move_rvalue (rvalue : Rvalue) : result Rvalue :=
  Ok rvalue.

(** The object a handle stands for. *)
Definition referent (r : Rvalue) : Z := d_pointer r.

End Cpp03.

(** ** The C++11 implementation: [Rvalue<TYPE>] is [TYPE&&] *)

Module Cpp11.

(** An rvalue reference is the address of its referent. *)
Definition Rvalue : Type := Z.

(** A named rvalue reference is an lvalue of type [TYPE]. *)
Definition to_lvalue (r : Rvalue) : result Z := Ok r.

(** [RvalueUtil::access(TYPE& rvalue)] *)
Definition access (rvalue : Z) : result Z := Ok rvalue.

(** [RvalueUtil::move(TYPE&& lvalue)]: a [static_cast] to an rvalue
    reference to the same object.  The parameter is a forwarding
    reference, so the one template serves lvalues and rvalues. *)
Definition move (lvalue : Z) : result Rvalue := Ok lvalue.

Definition move_rvalue (rvalue : Rvalue) : result Rvalue := move rvalue.

Definition referent (r : Rvalue) : Z := r.

End Cpp11.

(** [RvalueUtil::moveIfNoexcept(TYPE& lvalue)], defined once for both
    implementations. *)
Definition moveIfNoexcept (lvalue : Z) : const_ref := ConstRef lvalue.

(** What client code sees of the component, whichever implementation the
    feature macros select. *)
Class RvalueImpl := {
  Rvalue : Type;
  move : Z → result Rvalue;
  move_rvalue : Rvalue → result Rvalue;
  access : Rvalue → result Z;
  to_lvalue : Rvalue → result Z;
  referent : Rvalue → Z;
}.

Definition impl03 : RvalueImpl := {|
  Rvalue := Cpp03.Rvalue;
  move := Cpp03.move;
  move_rvalue := Cpp03.move_rvalue;
  access := Cpp03.access;
  to_lvalue := Cpp03.to_lvalue;
  referent := Cpp03.referent;
|}.

Definition impl11 : RvalueImpl := {|
  Rvalue := Cpp11.Rvalue;
  move := Cpp11.move;
  move_rvalue := Cpp11.move_rvalue;
  access := Cpp11.access;
  to_lvalue := Cpp11.to_lvalue;
  referent := Cpp11.referent;
|}.

(** The feature switch
    [BSLS_COMPILERFEATURES_SUPPORT_RVALUE_REFERENCES &&
     BSLS_COMPILERFEATURES_SUPPORT_ALIAS_TEMPLATES]. *)
Inductive branch := Cxx03 | Cxx11.

Definition impl (b : branch) : RvalueImpl :=
  match b with Cxx03 => impl03 | Cxx11 => impl11 end.

(** ** Element types of the example vector *)

(** The initializer of a [new (p) TYPE(arg)] expression, after overload
    resolution between [TYPE(const TYPE&)] and [TYPE(Rvalue<TYPE>)]. *)
Inductive ctor_arg `{RI : RvalueImpl} :=
  | ByConstRef (other : const_ref)
  | ByRvalue (other : Rvalue).

(** What [vector<TYPE>] uses of [TYPE].  [St] is the store [TYPE] objects
    live in, together with whatever they own.  Addresses in it count [TYPE]
    objects: [p + 1] is the slot after [p]. *)
Class TypeOps `{RI : RvalueImpl} (St : Type) := {
  sizeof : Z;
  (** [static_cast<TYPE*>(operator new(size))] *)
  operator_new : Z → M St Z;
  operator_delete : Z → M St unit;
  (** [new (this) TYPE(other)] with [other] a [const TYPE&] *)
  copy_ctor : Z → const_ref → M St unit;
  (** [new (this) TYPE(other)] with [other] an [Rvalue<TYPE>] *)
  move_ctor : Z → Rvalue → M St unit;
  (** [this->~TYPE()] *)
  dtor : Z → M St unit;
}.
Global Hint Mode TypeOps - ! : typeclass_instances.

Definition placement_new `{RI : RvalueImpl} {St} `{ops : !TypeOps St}
    (p : Z) (arg : ctor_arg) : M St unit :=
  match arg with
  | ByConstRef other => copy_ctor p other
  | ByRvalue other => move_ctor p other
  end.

(** ** [move] as code of a function template

    Instantiated at a type [TYPE], the bodies of [move] run on the store
    the [TYPE] objects live in, with the operations [ops] of [TYPE] at
    hand and a reference to the object as argument.  The definitions
    follow the bodies statement by statement; the handle is returned by
    value.  [Cpp03.move] and [Cpp11.move] above give the handle alone. *)

Module Cpp03Code.

(** [Rvalue<TYPE>::Rvalue(TYPE *pointer) : d_pointer(pointer)
    { BSLS_ASSERT(0 != pointer); }] *)
Definition Rvalue_ctor {St} (ops : @TypeOps impl03 St) (pointer : Z)
    : M St Cpp03.Rvalue :=
  this <- ret {| Cpp03.d_pointer := pointer |} ;;
  lift (BSLS_ASSERT (negb (0 =? pointer))) ;;
  ret this.

(** [return Rvalue<TYPE>(&lvalue);] *)
Definition move {St} (ops : @TypeOps impl03 St) (lvalue : Z)
    : M St Cpp03.Rvalue :=
  Rvalue_ctor ops (address_of lvalue).

(** [return rvalue;] *)
Definition move_rvalue {St} (ops : @TypeOps impl03 St)
    (rvalue : Cpp03.Rvalue) : M St Cpp03.Rvalue :=
  ret rvalue.

End Cpp03Code.

Module Cpp11Code.

(** [return static_cast<typename RemoveReference<TYPE>::Type&&>(lvalue);] *)
Definition move {St} (ops : @TypeOps impl11 St) (lvalue : Z)
    : M St Cpp11.Rvalue :=
  ret lvalue.

End Cpp11Code.

(** The body of [move(x)] for an object [x], and of [move(r)] for a
    handle [r], that the feature switch selects. *)
Definition move_code (b : branch) {St}
    : @TypeOps (impl b) St → Z → M St (@Rvalue (impl b)) :=
  match b with
  | Cxx03 => Cpp03Code.move
  | Cxx11 => Cpp11Code.move
  end.

Definition move_rvalue_code (b : branch) {St}
    : @TypeOps (impl b) St → @Rvalue (impl b) → M St (@Rvalue (impl b)) :=
  match b with
  | Cxx03 => Cpp03Code.move_rvalue
  | Cxx11 => Cpp11Code.move
  end.

(** ** The example [vector<TYPE>] *)

Record vec := Vec { d_begin : Z; d_end : Z; d_endBuffer : Z }.

Inductive field := F_begin | F_end | F_endBuffer.

Definition get_field (f : field) (v : vec) : Z :=
  match f with
  | F_begin => d_begin v
  | F_end => d_end v
  | F_endBuffer => d_endBuffer v
  end.

Definition set_field (f : field) (p : Z) (v : vec) : vec :=
  match f with
  | F_begin => Vec p (d_end v) (d_endBuffer v)
  | F_end => Vec (d_begin v) p (d_endBuffer v)
  | F_endBuffer => Vec (d_begin v) (d_end v) p
  end.

(** The store of a program that uses [vector<TYPE>]: the vector objects by
    address, the next free address for a vector object, and the store of
    the [TYPE] objects. *)
Record vstore (St : Type) := VStore {
  vecs : gmap Z vec;
  vbrk : Z;
  elems : St;
}.
Arguments VStore {St} vecs vbrk elems.
Arguments vecs {St} _.
Arguments vbrk {St} _.
Arguments elems {St} _.

Section Vector.
Context `{RI : RvalueImpl} {St : Type} `{ops : !TypeOps St}.

Definition set_vecs (m : gmap Z vec) (s : vstore St) : vstore St :=
  VStore m (vbrk s) (elems s).
Definition set_elems (e : St) (s : vstore St) : vstore St :=
  VStore (vecs s) (vbrk s) e.

(** Run code of the element type on the element store. *)
Definition in_elems {A} (m : M St A) : M (vstore St) A :=
  λ s, match m (elems s) with
       | Ok (a, e) => Ok (a, set_elems e s)
       | Fail f => Fail f
       end.

(** Read and write a member of the vector object at [this]; there must
    be such an object. *)
Definition get (this : Z) (f : field) : M (vstore St) Z :=
  λ s, match vecs s !! this with
       | Some v => Ok (get_field f v, s)
       | None => Fail Undefined
       end.

Definition set (this : Z) (f : field) (p : Z) : M (vstore St) unit :=
  λ s, match vecs s !! this with
       | Some v => Ok (tt, set_vecs (<[this := set_field f p v]> (vecs s)) s)
       | None => Fail Undefined
       end.

(** Storage for a variable of type [vector<TYPE>] with automatic storage
    duration. *)
Definition alloca : M (vstore St) Z :=
  λ s, Ok (vbrk s, VStore (vecs s) (vbrk s + 1) (elems s)).

(** The lifetime of the object at [this] starts with the member
    initializers, and ends with the destructor. *)
Definition begin_lifetime (this : Z) (v : vec) : M (vstore St) unit :=
  λ s, Ok (tt, set_vecs (<[this := v]> (vecs s)) s).

Definition end_lifetime (this : Z) : M (vstore St) unit :=
  λ s, Ok (tt, set_vecs (delete this (vecs s)) s).

(** [vector<TYPE>::vector()] *)
Definition vector_ctor (this : Z) : M (vstore St) unit :=
  begin_lifetime this (Vec 0 0 0).

(** The accessors defined in the class. *)
Definition vector_begin (this : Z) : M (vstore St) Z := get this F_begin.
Definition vector_end (this : Z) : M (vstore St) Z := get this F_end.

Definition vector_capacity (this : Z) : M (vstore St) Z :=
  eb <- get this F_endBuffer ;;
  b <- get this F_begin ;;
  ret (to_int (eb - b)).

Definition vector_size (this : Z) : M (vstore St) Z :=
  e <- get this F_end ;;
  b <- get this F_begin ;;
  ret (to_int (e - b)).

Definition vector_empty (this : Z) : M (vstore St) bool :=
  b <- get this F_begin ;;
  e <- get this F_end ;;
  ret (b =? e).

(** [operator[]]: a reference to [d_begin[index]]. *)
Definition vector_at (this : Z) (index : Z) : M (vstore St) Z :=
  b <- get this F_begin ;;
  ret (b + index).

(** [static void swap(TYPE*& a, TYPE*& b)]; a reference to a pointer
    member is the object and the member. *)
Definition swap_ptr (a b : Z * field) : M (vstore St) unit :=
  tmp <- get a.1 a.2 ;;
  vb <- get b.1 b.2 ;;
  set a.1 a.2 vb ;;
  set b.1 b.2 tmp.

(** [void swap(vector& other)] *)
Definition vector_swap (this other : Z) : M (vstore St) unit :=
  swap_ptr (this, F_begin) (other, F_begin) ;;
  swap_ptr (this, F_end) (other, F_end) ;;
  swap_ptr (this, F_endBuffer) (other, F_endBuffer).

(** A loop [for (it = first; it != last; ++it) body], which runs
    [last - first] times, or leaves the buffer when [last] is before
    [first]. *)
Fixpoint for_each (n : nat) (it : Z) (body : Z → M (vstore St) unit)
    : M (vstore St) unit :=
  match n with
  | O => ret tt
  | S n' => body it ;; for_each n' (it + 1) body
  end.

Definition for_range (first last : Z) (body : Z → M (vstore St) unit)
    : M (vstore St) unit :=
  if first <=? last
  then for_each (Z.to_nat (last - first)) first body
  else fail Undefined.

(** The body of the loop of the destructor:
    [--this->d_end; this->d_end->~TYPE();] *)
Definition destroy_last (this : Z) : M (vstore St) unit :=
  e <- get this F_end ;;
  set this F_end (e - 1) ;;
  e <- get this F_end ;;
  in_elems (dtor e).

Fixpoint repeat_n (n : nat) (body : M (vstore St) unit) : M (vstore St) unit :=
  match n with
  | O => ret tt
  | S n' => body ;; repeat_n n' body
  end.

(** [vector<TYPE>::~vector()].  The loop
    [while (d_begin != d_end)] steps [d_end] down to [d_begin]. *)
Definition vector_dtor (this : Z) : M (vstore St) unit :=
  b <- get this F_begin ;;
  (if negb (b =? 0) then
     e <- get this F_end ;;
     check (b <=? e) Undefined ;;
     repeat_n (Z.to_nat (e - b)) (destroy_last this) ;;
     b <- get this F_begin ;;
     in_elems (operator_delete b)
   else ret tt) ;;
  end_lifetime this.

(** [void reserve(int newCapacity)]; [tmp] is destroyed when its scope
    ends. *)
Definition vector_reserve (this : Z) (newCapacity : Z) : M (vstore St) unit :=
  cap <- vector_capacity this ;;
  if cap <? newCapacity then
    tmp <- alloca ;;
    vector_ctor tmp ;;
    let size := to_int (sizeof (St := St) * newCapacity) in
    p <- in_elems (operator_new size) ;;
    set tmp F_begin p ;;
    b <- get tmp F_begin ;;
    set tmp F_end b ;;
    b <- get tmp F_begin ;;
    set tmp F_endBuffer (b + newCapacity) ;;
    first <- get this F_begin ;;
    last <- get this F_end ;;
    for_range first last (λ it,
      d <- get tmp F_end ;;
      in_elems (placement_new d (ByConstRef (moveIfNoexcept it))) ;;
      d <- get tmp F_end ;;
      set tmp F_end (d + 1)) ;;
    vector_swap this tmp ;;
    vector_dtor tmp
  else ret tt.

(** [vector(const vector& other)] *)
Definition vector_copy_ctor (this : Z) (other : const_ref)
    : M (vstore St) unit :=
  let other := cref_target other in
  begin_lifetime this (Vec 0 0 0) ;;
  em <- vector_empty other ;;
  if negb em then
    sz <- vector_size other ;;
    vector_reserve this (if 4 <? sz then sz else 4) ;;
    sz <- vector_size other ;;
    cap <- vector_capacity this ;;
    lift (BSLS_ASSERT (sz <=? cap)) ;;
    first <- get other F_begin ;;
    last <- get other F_end ;;
    for_range first last (λ it,
      d <- get this F_end ;;
      in_elems (placement_new d (ByConstRef (ConstRef it))) ;;
      d <- get this F_end ;;
      set this F_end (d + 1))
  else ret tt.

(** [vector(bslmf::Rvalue<vector> other)] *)
Definition vector_move_ctor (this : Z) (other : Rvalue)
    : M (vstore St) unit :=
  o <- lift (access other) ;;
  b <- get o F_begin ;;
  o <- lift (access other) ;;
  e <- get o F_end ;;
  o <- lift (access other) ;;
  eb <- get o F_endBuffer ;;
  begin_lifetime this (Vec b e eb) ;;
  reference <- lift (to_lvalue other) ;;
  set reference F_begin 0 ;;
  set reference F_end 0 ;;
  set reference F_endBuffer 0.

(** [vector& operator=(vector other)]; [other] is the parameter object,
    which the caller constructs and destroys. *)
Definition vector_assign (this other : Z) : M (vstore St) Z :=
  vector_swap this other ;;
  ret this.

(** The growth step shared by both [push_back] overloads:
    [if (d_end == d_endBuffer) reserve(size() ? int(1.5 * size()) : 4);] *)
Definition grow_if_full (this : Z) : M (vstore St) unit :=
  e <- get this F_end ;;
  eb <- get this F_endBuffer ;;
  if e =? eb then
    sz <- vector_size this ;;
    n <- (if negb (sz =? 0) then lift (int_of_1_5_times sz) else ret 4) ;;
    vector_reserve this n
  else ret tt.

(** [assert(this->d_end != this->d_endBuffer);] *)
Definition assert_not_full (this : Z) : M (vstore St) unit :=
  e <- get this F_end ;;
  eb <- get this F_endBuffer ;;
  lift (BSLS_ASSERT (negb (e =? eb))).

(** [new (this->d_end) TYPE(arg); ++this->d_end;] *)
Definition construct_at_end (this : Z) (arg : ctor_arg) : M (vstore St) unit :=
  d <- get this F_end ;;
  in_elems (placement_new d arg) ;;
  d <- get this F_end ;;
  set this F_end (d + 1).

(** [void push_back(const TYPE& value)] *)
Definition vector_push_back (this : Z) (value : const_ref)
    : M (vstore St) unit :=
  grow_if_full this ;;
  assert_not_full this ;;
  construct_at_end this (ByConstRef value).

(** [void push_back(bslmf::Rvalue<TYPE> value)] *)
Definition vector_push_back_rvalue (this : Z) (value : Rvalue)
    : M (vstore St) unit :=
  grow_if_full this ;;
  assert_not_full this ;;
  r <- lift (move_rvalue value) ;;
  construct_at_end this (ByRvalue r).

End Vector.

(** ** Instances: [int] and [vector<TYPE>] as element types *)

(** The store of [int] objects. *)
Record istore := IStore {
  ints : gmap Z Z;
  ibrk : Z;
}.

Section IntOps.
Context `{RI : RvalueImpl}.

Definition int_load (p : Z) : M istore Z :=
  λ s, match ints s !! p with
       | Some v => Ok (v, s)
       | None => Fail Undefined
       end.

Definition int_store (p : Z) (v : Z) : M istore unit :=
  λ s, Ok (tt, IStore (<[p := v]> (ints s)) (ibrk s)).

Definition int_new (size : Z) : M istore Z :=
  λ s, if size <? 0 then Fail BadAlloc
       else Ok (ibrk s, IStore (ints s) (ibrk s + Z.max 1 (size / 4))).

Definition int_end_lifetime (p : Z) : M istore unit :=
  λ s, match ints s !! p with
       | Some _ => Ok (tt, IStore (delete p (ints s)) (ibrk s))
       | None => Fail Undefined
       end.

#[export] Instance int_ops : TypeOps istore := {|
  sizeof := 4;
  operator_new := int_new;
  operator_delete := λ _, ret tt;
  copy_ctor := λ this other, v <- int_load (cref_target other) ;; int_store this v;
  move_ctor := λ this other,
    x <- lift (to_lvalue other) ;; v <- int_load x ;; int_store this v;
  dtor := int_end_lifetime;
|}.
End IntOps.

Section VectorOps.
Context `{RI : RvalueImpl} {St : Type} `{ops : !TypeOps St}.

(** Three pointers of eight bytes. *)
Definition sizeof_vector : Z := 24.

Definition vector_new (size : Z) : M (vstore St) Z :=
  λ s, if size <? 0 then Fail BadAlloc
       else Ok (vbrk s,
                VStore (vecs s) (vbrk s + Z.max 1 (size / sizeof_vector)) (elems s)).

#[export] Instance vector_ops : TypeOps (vstore St) := {|
  sizeof := sizeof_vector;
  operator_new := vector_new;
  operator_delete := λ _, ret tt;
  copy_ctor := vector_copy_ctor;
  move_ctor := vector_move_ctor;
  dtor := vector_dtor;
|}.
End VectorOps.

(** ** What a client writes with a vector *)

Section Client.
Context `{RI : RvalueImpl} {St : Type} `{ops : !TypeOps St}.

(** [vector<TYPE> v;] *)
Definition new_vector : M (vstore St) Z :=
  v <- alloca ;; vector_ctor v ;; ret v.

(** [vector<TYPE> v(other);] *)
Definition new_copy (other : Z) : M (vstore St) Z :=
  v <- alloca ;; vector_copy_ctor v (ConstRef other) ;; ret v.

(** [vector<TYPE> v(r);] for a handle [r], as in
    [vector<int> vector2(bslmf::RvalueUtil::move(vector0));] *)
Definition new_moved (r : Rvalue) : M (vstore St) Z :=
  v <- alloca ;; vector_move_ctor v r ;; ret v.

(** [this = other;]: the parameter of [operator=] is copy constructed,
    and destroyed after the call. *)
Definition assign_copy (this other : Z) : M (vstore St) unit :=
  p <- alloca ;;
  vector_copy_ctor p (ConstRef other) ;;
  vector_assign this p ;;
  vector_dtor p.

(** [this = r;] for a handle [r]: the parameter is move constructed. *)
Definition assign_move (this : Z) (r : Rvalue) : M (vstore St) unit :=
  p <- alloca ;;
  vector_move_ctor p r ;;
  vector_assign this p ;;
  vector_dtor p.

End Client.

(** ** The usage example of the component *)

Section Usage.
Context `{RI : RvalueImpl}.

Definition S0 : Type := istore.
Definition S1 : Type := vstore istore.
Definition S2 : Type := vstore (vstore istore).

Definition init : S2 := VStore ∅ 1 (VStore ∅ 1 (IStore ∅ 1)).

(** An [int] variable holding [v]. *)
Definition int_var (v : Z) : M S2 Z :=
  in_elems (in_elems (p <- int_new 4 ;; int_store p v ;; ret p)).

Fixpoint push_ints (n : nat) (i : Z) (vector0 : Z) : M S1 unit :=
  match n with
  | O => ret tt
  | S n' =>
      x <- in_elems (p <- int_new 4 ;; int_store p i ;; ret p) ;;
      vector_push_back vector0 (ConstRef x) ;;
      push_ints n' (i + 1) vector0
  end.

Definition read_int (p : Z) : M S1 Z := in_elems (int_load p).

Record observed := Observed {
  o_first : Z;
  o_vector2_begin : Z;
  o_vector1_size : Z;
  o_vector2_size_after_copy : Z;
  o_vvector_size_1 : Z;
  o_vvector0_begin : Z;
  o_vvector_size_2 : Z;
  o_vvector1_begin : Z;
  o_vvector1_size : Z;
}.

Definition usage : M S2 observed :=
  vector0 <- in_elems alloca ;;
  in_elems (vector_ctor vector0) ;;
  in_elems (push_ints 5 0 vector0) ;;
  vector1 <- in_elems alloca ;;
  in_elems (vector_copy_ctor vector1 (ConstRef vector0)) ;;
  n1 <- in_elems (vector_size vector1) ;;
  first <- in_elems (vector_begin vector0) ;;
  vector2 <- in_elems alloca ;;
  r <- lift (move vector0) ;;
  in_elems (vector_move_ctor vector2 r) ;;
  b2 <- in_elems (vector_begin vector2) ;;
  vvector <- alloca ;;
  vector_ctor vvector ;;
  vector_push_back vvector (ConstRef vector2) ;;
  n2 <- in_elems (vector_size vector2) ;;
  nv1 <- vector_size vvector ;;
  e0 <- vector_at vvector 0 ;;
  b0 <- in_elems (vector_begin e0) ;;
  r2 <- lift (move vector2) ;;
  vector_push_back_rvalue vvector r2 ;;
  nv2 <- vector_size vvector ;;
  e1 <- vector_at vvector 1 ;;
  bb1 <- in_elems (vector_begin e1) ;;
  s1 <- in_elems (vector_size e1) ;;
  ret (Observed first b2 n1 n2 nv1 b0 nv2 bb1 s1).
End Usage.

(** ** A temporary as argument of [push_back]

    [v.push_back(t)] with [t] a temporary of type [TYPE] chooses between
    the overloads [push_back(const TYPE&)] and
    [push_back(bslmf::Rvalue<TYPE>)].  With rvalue references
    [Rvalue<TYPE>] is [TYPE&&], which binds to the temporary and is the
    better match; without them [Rvalue<TYPE>] is a class whose only
    constructor is private and explicit, no conversion from [TYPE] to it
    exists, and the overload that takes [const TYPE&] is the one
    chosen. *)
Definition push_back_temporary (b : branch) {St}
    : @TypeOps (impl b) St → Z → Z → M (vstore St) unit :=
  match b with
  | Cxx03 => λ ops this t,
      vector_push_back (RI := impl03) (ops := ops) this (ConstRef t)
  | Cxx11 => λ ops this t,
      vector_push_back_rvalue (RI := impl11) (ops := ops) this t
  end.

(** [vector<vector<int> > vv; vector<int> v; v.push_back(7);
    vv.push_back(vector<int>(v));] with the temporary [vector<int>(v)]
    destroyed at the end of the full expression.  The result is
    [begin()] of the temporary before the call and [vv[0].begin()]
    after it. *)
Definition temporary_example (b : branch) : M S2 (Z * Z) :=
  vv <- new_vector ;;
  v <- in_elems new_vector ;;
  x <- int_var 7 ;;
  in_elems (vector_push_back (RI := impl b) v (ConstRef x)) ;;
  t <- in_elems (new_copy (RI := impl b) v) ;;
  tb <- in_elems (vector_begin t) ;;
  push_back_temporary b vector_ops vv t ;;
  in_elems (vector_dtor (RI := impl b) t) ;;
  e0 <- vector_at vv 0 ;;
  b0 <- in_elems (vector_begin e0) ;;
  ret (tb, b0).



(** * Specification vocabulary *)

(** ** Total and partial correctness of code *)

(** [wp m s Q]: from [s] the code [m] returns, and [Q] holds of the value
    and the store it returns. *)
Definition wp {St A} (m : M St A) (s : St) (Q : A → St → Prop) : Prop :=
  ∃ a s', m s = Ok (a, s') ∧ Q a s'.

(** [wlp m s Q]: if [m] returns from [s], [Q] holds of what it returns. *)
Definition wlp {St A} (m : M St A) (s : St) (Q : A → St → Prop) : Prop :=
  ∀ a s', m s = Ok (a, s') → Q a s'.

(** ** Handles *)

(** A handle that stands for the object at [x] in every use client code
    can make of it. *)
Definition handle_of `{RI : RvalueImpl} (r : Rvalue) (x : Z) : Prop :=
  referent r = x ∧ access r = Ok x ∧ to_lvalue r = Ok x ∧ move_rvalue r = Ok r.

(** The C++03 handles a client can come by: the constructor of [Rvalue] is
    private, so a handle is made by [move] from an object, forwarded by
    [move], or a copy of one of these. *)
Inductive obtainable {T} (objs : gmap Z T) : Cpp03.Rvalue → Prop :=
  | obtained_move x r :
      is_Some (objs !! x) → Cpp03.move x = Ok r → obtainable objs r
  | obtained_forward r r' :
      obtainable objs r → Cpp03.move_rvalue r = Ok r' → obtainable objs r'.

(** ** The shape of a vector *)

Definition null_vec : vec := Vec 0 0 0.

Definition vec_size (v : vec) : Z := d_end v - d_begin v.
Definition vec_capacity (v : vec) : Z := d_endBuffer v - d_begin v.

(** The class invariant as far as the three pointers go. *)
Definition vec_ok (v : vec) : Prop :=
  d_begin v ≤ d_end v ≤ d_endBuffer v ∧ vec_capacity v ≤ INT_MAX.

(** What a client may find of capacities: 0 or at least 4; not 1. *)
Definition small_or_roomy (c : Z) : Prop := c = 0 ∨ 4 ≤ c.
Definition not_one (c : Z) : Prop := c ≠ 1.

(** A property of capacities that the constructors and the growth step
    of [push_back] keep: they leave capacity 0, a capacity of at least 4,
    or [int(1.5 * c)] for a full vector of [c >= 2] elements. *)
Record capacity_policy (P : Z → Prop) : Prop := {
  policy_0 : P 0;
  policy_big : ∀ c, 4 ≤ c → P c;
  policy_grow : ∀ c, 2 ≤ c → P c → P (3 * c ÷ 2);
}.

Section Reachable.
Context `{RI : RvalueImpl} {St : Type} `{ops : !TypeOps St}.

Definition shape_inv (s : vstore St) : Prop :=
  ∀ a v, vecs s !! a = Some v → a < vbrk s ∧ vec_ok v.

(** The capacity of every vector satisfies [P]. *)
Definition cap_inv (P : Z → Prop) (s : vstore St) : Prop :=
  ∀ a v, vecs s !! a = Some v → P (vec_capacity v).

Definition vector_inv (P : Z → Prop) (s : vstore St) : Prop :=
  shape_inv s ∧ cap_inv P s.

(** One use of the interface of [vector<TYPE>] by a client; [allowed]
    says which arguments the client passes to [reserve]. *)
Inductive step (allowed : Z → Prop) (s : vstore St) : vstore St → Prop :=
  | step_new v s' :
      new_vector s = Ok (v, s') → step allowed s s'
  | step_push_back this value s' :
      vector_push_back this value s = Ok (tt, s') → step allowed s s'
  | step_push_back_rvalue this r s' :
      vector_push_back_rvalue this r s = Ok (tt, s') → step allowed s s'
  | step_reserve this n s' :
      in_int n → allowed n →
      vector_reserve this n s = Ok (tt, s') → step allowed s s'
  | step_copy other v s' :
      new_copy other s = Ok (v, s') → step allowed s s'
  | step_move r v s' :
      new_moved r s = Ok (v, s') → step allowed s s'
  | step_assign_copy this other s' :
      assign_copy this other s = Ok (tt, s') → step allowed s s'
  | step_assign_move this r s' :
      assign_move this r s = Ok (tt, s') → step allowed s s'
  | step_swap this other s' :
      vector_swap this other s = Ok (tt, s') → step allowed s s'
  | step_dtor this s' :
      vector_dtor this s = Ok (tt, s') → step allowed s s'
  | step_elems e :
      step allowed s (set_elems e s).

(** The stores a client reaches from one without vectors. *)
Inductive reachable (allowed : Z → Prop) : vstore St → Prop :=
  | reach_init s : vecs s = ∅ → reachable allowed s
  | reach_step s s' :
      reachable allowed s → step allowed s s' → reachable allowed s'.

End Reachable.

Definition any_int (n : Z) : Prop := True.
Definition not_1_to_3 (n : Z) : Prop := n ≤ 0 ∨ 4 ≤ n.

(** ** What [vector<TYPE>] needs of [TYPE] to work *)

(** A reading of the store of the element type: the value of the object
    that lives at an address, if one does; the address from which the
    store is unused; when the store is well formed; what a copy of a value
    may look like; and, for a move from an object of value [v], the value
    [w] of the new object and the value [u] left behind. *)
Class TypeModel (St V : Type) := {
  tval : St → Z → option V;
  tlimit : St → Z;
  twf : St → Prop;
  tcopy : V → V → Prop;
  tmove : V → V → V → Prop;
}.
Global Hint Mode TypeModel ! - : typeclass_instances.

(** The values of the [n] objects from address [p] on. *)
Fixpoint tvals `{TypeModel St V} (E : St) (p : Z) (n : nat) : option (list V) :=
  match n with
  | O => Some []
  | S n' =>
      match tval E p, tvals E (p + 1) n' with
      | Some v, Some L => Some (v :: L)
      | _, _ => None
      end
  end.

Section Laws.
Context `{RI : RvalueImpl} {St V : Type} (ops : TypeOps St) (TM : TypeModel St V).
Implicit Types s : St.

(** The operations of the element type do what their names say, on well
    formed stores, and touch no other object. *)
Record TypeLaws : Prop := {
  sizeof_range : 0 < sizeof (St := St) ∧ 4 * sizeof (St := St) ≤ INT_MAX;
  limit_pos : ∀ s, twf s → 0 < tlimit s;
  live_in_range : ∀ s a v, twf s → tval s a = Some v → 0 < a < tlimit s;
  new_ok : ∀ s size, twf s → 0 ≤ size →
    wp (operator_new size) s (λ p s',
      twf s' ∧ tlimit s ≤ p ∧ p + size / sizeof (St := St) ≤ tlimit s' ∧
      ∀ a, tval s' a = tval s a);
  delete_ok : ∀ s p, twf s →
    wp (operator_delete p) s (λ _ s',
      twf s' ∧ tlimit s ≤ tlimit s' ∧ ∀ a, tval s' a = tval s a);
  copy_ok : ∀ s dst src v,
    twf s → tval s src = Some v → tval s dst = None → 0 < dst < tlimit s →
    wp (copy_ctor dst (ConstRef src)) s (λ _ s',
      twf s' ∧ tlimit s ≤ tlimit s' ∧
      (∃ w, tval s' dst = Some w ∧ tcopy (St := St) v w) ∧
      ∀ a, a ≠ dst → tval s' a = tval s a);
  move_ok : ∀ s dst r src v,
    twf s → handle_of r src →
    tval s src = Some v → tval s dst = None → 0 < dst < tlimit s →
    wp (move_ctor dst r) s (λ _ s',
      twf s' ∧ tlimit s ≤ tlimit s' ∧
      (∃ w u, tval s' dst = Some w ∧ tval s' src = Some u ∧
              tmove (St := St) v w u) ∧
      ∀ a, a ≠ dst → a ≠ src → tval s' a = tval s a);
  dtor_ok : ∀ s a v, twf s → tval s a = Some v →
    wp (dtor a) s (λ _ s',
      twf s' ∧ tlimit s ≤ tlimit s' ∧ tval s' a = None ∧
      ∀ a', a' ≠ a → tval s' a' = tval s a');
}.

End Laws.

(** ** [int] as an element type *)

Definition int_wf (s : istore) : Prop :=
  0 < ibrk s ∧ ∀ a v, ints s !! a = Some v → 0 < a < ibrk s.

#[export] Instance int_model : TypeModel istore Z := {|
  tval s a := ints s !! a;
  tlimit := ibrk;
  twf := int_wf;
  tcopy v w := w = v;
  tmove v w u := w = v ∧ u = v;
|}.

(** ** [vector<TYPE>] as an element type *)

Section VectorModel.
Context `{RI : RvalueImpl} {St V : Type} `{ops : !TypeOps St}
  `{TM : !TypeModel St V}.

(** The buffer of a vector: none, or a block of the element store that
    [operator new] gave out, with objects in the slots up to [d_end] and
    none after. *)
Definition buffer_ok (E : St) (v : vec) : Prop :=
  v = null_vec ∨
  (0 < d_begin v ∧ d_begin v ≤ d_end v ≤ d_endBuffer v ∧
   d_begin v < d_endBuffer v ∧ d_endBuffer v ≤ tlimit E ∧
   sizeof (St := St) * vec_capacity v ≤ INT_MAX ∧
   (∀ i, d_begin v ≤ i < d_end v → is_Some (tval E i)) ∧
   (∀ i, d_end v ≤ i < d_endBuffer v → tval E i = None)).

(** Two buffers share no slot. *)
Definition apart (v v' : vec) : Prop :=
  d_endBuffer v ≤ d_begin v' ∨ d_endBuffer v' ≤ d_begin v.

Definition vector_wf (s : vstore St) : Prop :=
  twf (elems s) ∧ 0 < vbrk s ∧
  (∀ a v, vecs s !! a = Some v → 0 < a < vbrk s ∧ buffer_ok (elems s) v) ∧
  (∀ a a' v v', a ≠ a' →
     vecs s !! a = Some v → vecs s !! a' = Some v' → apart v v').

(** The value of a vector: its three pointers and the values of its
    elements. *)
Definition vector_val (s : vstore St) (a : Z) : option (vec * list V) :=
  match vecs s !! a with
  | Some v =>
      match tvals (elems s) (d_begin v) (Z.to_nat (vec_size v)) with
      | Some L => Some (v, L)
      | None => None
      end
  | None => None
  end.

(** A copy has copies of the elements, in a buffer of its own when there
    are elements and in none when there are not. *)
Definition vector_copy_rel (x y : vec * list V) : Prop :=
  Forall2 (tcopy (St := St)) x.2 y.2 ∧
  (x.2 = [] → y.1 = null_vec) ∧
  (x.2 ≠ [] → d_begin y.1 ≠ 0 ∧ d_begin y.1 ≠ d_begin x.1 ∧ apart x.1 y.1).

(** A move hands the buffer over and leaves an empty vector. *)
Definition vector_move_rel (x y u : vec * list V) : Prop :=
  y = x ∧ u = (null_vec, []).

#[export] Instance vector_model : TypeModel (vstore St) (vec * list V) := {|
  tval := vector_val;
  tlimit := vbrk;
  twf := vector_wf;
  tcopy := vector_copy_rel;
  tmove := vector_move_rel;
|}.

(** When [push_back] finds the vector full, the capacity it asks for is
    larger than the size and can be allocated. *)
Definition can_grow (v : vec) : Prop :=
  d_end v = d_endBuffer v →
  vec_size v ≠ 1 ∧
  sizeof (St := St) * (if vec_size v =? 0 then 4 else Z.quot (3 * vec_size v) 2)
    ≤ INT_MAX.

End VectorModel.

(** ** Element types that differ in their move constructor only *)

Definition with_move_ctor `{RI : RvalueImpl} {St : Type}
    (mv : Z → Rvalue → M St unit) (ops : TypeOps St) : TypeOps St := {|
  sizeof := @sizeof _ _ ops;
  operator_new := @operator_new _ _ ops;
  operator_delete := @operator_delete _ _ ops;
  copy_ctor := @copy_ctor _ _ ops;
  move_ctor := mv;
  dtor := @dtor _ _ ops;
|}.

(** ** The two implementations on one element type *)

(** Element types whose operations are the same under both
    implementations, on handles to the same object. *)
Definition ops_agree {St} (o3 : @TypeOps impl03 St) (o11 : @TypeOps impl11 St)
    : Prop :=
  @sizeof impl03 St o3 = @sizeof impl11 St o11 ∧
  (∀ n s, @operator_new impl03 St o3 n s = @operator_new impl11 St o11 n s) ∧
  (∀ p s, @operator_delete impl03 St o3 p s
          = @operator_delete impl11 St o11 p s) ∧
  (∀ p c s, @copy_ctor impl03 St o3 p c s = @copy_ctor impl11 St o11 p c s) ∧
  (∀ p s, @dtor impl03 St o3 p s = @dtor impl11 St o11 p s) ∧
  (∀ p x s, x ≠ 0 →
     @move_ctor impl03 St o3 p (Cpp03.MkRvalue x) s
     = @move_ctor impl11 St o11 p x s).

(** ** Concrete stores and runs *)

(** The store [m] leaves when run from [s]; [s] itself when [m] fails. *)
Definition exec {St A} (m : M St A) (s : St) : St :=
  match m s with Ok (_, s') => s' | Fail _ => s end.

(** The outcome of [m] from [s] without the store. *)
Definition outcome {St A} (m : M St A) (s : St) : result A :=
  match m s with Ok (a, _) => Ok a | Fail f => Fail f end.

(** No vector, no [int]. *)
Definition empty_store : vstore istore := VStore ∅ 1 (IStore ∅ 1).

(** An [int] variable holding [v]. *)
Definition new_int (v : Z) : M (vstore istore) Z :=
  in_elems (p <- int_new 4 ;; int_store p v ;; ret p).

(** [vector<int> v; v.reserve(2);] under the C++03 implementation. *)
Definition reserve_2 : M (vstore istore) Z :=
  v <- new_vector ;;
  vector_reserve (RI := impl03) v 2 ;;
  ret v.

(** [vector<int> v; v.reserve(1); v.push_back(x); v.push_back(x);] *)
Definition reserve_1_push_2 : M (vstore istore) unit :=
  v <- new_vector ;;
  vector_reserve (RI := impl03) v 1 ;;
  x <- new_int 7 ;;
  vector_push_back (RI := impl03) v (ConstRef x) ;;
  vector_push_back (RI := impl03) v (ConstRef x).

(** [vector<int> v; v.push_back(x);] *)
Definition push_1 : M (vstore istore) Z :=
  v <- new_vector ;;
  x <- new_int 7 ;;
  vector_push_back (RI := impl03) v (ConstRef x) ;;
  ret v.

(** A [vector<int>] at address 1 holding the one element 7 in a buffer of
    four slots. *)
Definition one_int_vector : vstore istore :=
  VStore {[ 1 := Vec 2 3 6 ]} 2 (IStore {[ 2 := 7 ]} 6).

(** That vector, and an empty [vector<vector<int> >] at address 1 of its
    own store. *)
Definition nested_store : vstore (vstore istore) :=
  VStore {[ 1 := null_vec ]} 2 one_int_vector.

(** An empty [vector<int>] at address 1. *)
Definition empty_int_vector : vstore istore :=
  VStore {[ 1 := null_vec ]} 2 (IStore ∅ 1).

(** [vector<vector<int> > v; vector<int> e; e.push_back(7);] and
    [v.push_back(e)] four times, which fills [v]; the result is the
    address of [v[0]]. *)
Definition four_elements : M (vstore (vstore istore)) Z :=
  v <- new_vector ;;
  e <- in_elems new_vector ;;
  x <- int_var 7 ;;
  in_elems (vector_push_back (RI := impl03) e (ConstRef x)) ;;
  vector_push_back (RI := impl03) v (ConstRef e) ;;
  vector_push_back (RI := impl03) v (ConstRef e) ;;
  vector_push_back (RI := impl03) v (ConstRef e) ;;
  vector_push_back (RI := impl03) v (ConstRef e) ;;
  vector_at v 0.

Definition empty_nested_store : vstore (vstore istore) :=
  VStore ∅ 1 (VStore ∅ 1 (IStore ∅ 1)).

(** A [vector<int>] at address 1 that [reserve(1)] and one [push_back]
    have filled: one element in a buffer of one slot. *)
Definition full_one_int_vector : vstore istore :=
  VStore {[ 1 := Vec 1 2 2 ]} 2 (IStore {[ 1 := 7 ]} 2).

(** Two [vector<int>]: the elements 7, 8 in a buffer of four slots at
    address 1, and no element and no buffer at address 2. *)
Definition two_int_vectors : vstore istore :=
  VStore (<[1 := Vec 1 3 5]> (<[2 := null_vec]> ∅)) 3
         (IStore (<[1 := 7]> (<[2 := 8]> ∅)) 5).

(** An empty [vector<int>] at address 1 and an [int] variable holding 7. *)
Definition empty_vector_and_int : vstore istore :=
  VStore {[ 1 := null_vec ]} 2 (IStore {[ 1 := 7 ]} 2).

(** * Proofs *)

(** ** Running code *)

Section Rules.
Context {St : Type}.
Implicit Types s : St.

Lemma wp_ret {A} (a : A) s Q : Q a s → wp (ret a) s Q.
Proof. intros HQ. by exists a, s. Qed.

Lemma wp_bind {A B} (m : M St A) (k : A → M St B) s Q :
  wp m s (λ a s', wp (k a) s' Q) → wp (bind m k) s Q.
Proof.
  intros (a & s' & Hm & b & s'' & Hk & HQ).
  exists b, s''. unfold bind. by rewrite Hm.
Qed.

Lemma wp_mono {A} (m : M St A) s (Q Q' : A → St → Prop) :
  wp m s Q → (∀ a s', Q a s' → Q' a s') → wp m s Q'.
Proof. intros (a & s' & Hm & HQ) HQQ. exists a, s'. auto. Qed.

Lemma wp_lift {A} (r : result A) (a : A) s Q :
  r = Ok a → Q a s → wp (lift r) s Q.
Proof. intros -> HQ. by exists a, s. Qed.

Lemma wp_check (b : bool) f s Q : b = true → Q tt s → wp (check b f) s Q.
Proof. intros -> HQ. by exists tt, s. Qed.

Lemma wp_run {A} (m : M St A) s Q a s' :
  wp m s Q → m s = Ok (a, s') → Q a s'.
Proof. intros (a' & s'' & Hm & HQ) Hm'. congruence. Qed.

Lemma wlp_ret {A} (a : A) s Q : Q a s → wlp (ret a) s Q.
Proof. intros HQ a' s' [= <- <-]. done. Qed.

Lemma wlp_bind {A B} (m : M St A) (k : A → M St B) s Q :
  wlp m s (λ a s', wlp (k a) s' Q) → wlp (bind m k) s Q.
Proof.
  intros Hm b s''. unfold bind.
  destruct (m s) as [[a s']|] eqn:E; [|done].
  intros Hk. by eapply Hm.
Qed.

Lemma wlp_mono {A} (m : M St A) s (Q Q' : A → St → Prop) :
  wlp m s Q → (∀ a s', Q a s' → Q' a s') → wlp m s Q'.
Proof. intros Hm HQQ a s' E. auto. Qed.

Lemma wlp_fail {A} f s (Q : A → St → Prop) : wlp (fail f) s Q.
Proof. by intros a s'. Qed.

Lemma wlp_lift {A} (r : result A) s Q :
  (∀ a, r = Ok a → Q a s) → wlp (lift r) s Q.
Proof. intros HQ a s'. unfold lift. destruct r; [|done]. intros [= <- <-]. auto. Qed.

Lemma wlp_check (b : bool) f s Q : (b = true → Q tt s) → wlp (check b f) s Q.
Proof. intros HQ [] s'. destruct b; [|done]. intros [= <-]. auto. Qed.

Lemma wp_wlp {A} (m : M St A) s (Q Q' : A → St → Prop) :
  wp m s Q → wlp m s Q' → wp m s (λ a s', Q a s' ∧ Q' a s').
Proof. intros (a & s' & Hm & HQ) HQ'. exists a, s'. auto. Qed.

End Rules.

Section StoreRules.
Context {St : Type}.
Implicit Types s : vstore St.

Lemma wp_get this f v s Q :
  vecs s !! this = Some v → Q (get_field f v) s → wp (get this f) s Q.
Proof. intros Hv HQ. exists (get_field f v), s. unfold get. by rewrite Hv. Qed.

Lemma wp_set this f p v s Q :
  vecs s !! this = Some v →
  Q tt (set_vecs (<[this := set_field f p v]> (vecs s)) s) →
  wp (set this f p) s Q.
Proof. intros Hv HQ. eexists tt, _. unfold set. by rewrite Hv. Qed.

Lemma wp_alloca s Q :
  Q (vbrk s) (VStore (vecs s) (vbrk s + 1) (elems s)) → wp alloca s Q.
Proof. intros HQ. by eexists _, _. Qed.

Lemma wp_begin_lifetime this v s Q :
  Q tt (set_vecs (<[this := v]> (vecs s)) s) → wp (begin_lifetime this v) s Q.
Proof. intros HQ. by eexists _, _. Qed.

Lemma wp_end_lifetime this s Q :
  Q tt (set_vecs (delete this (vecs s)) s) → wp (end_lifetime this) s Q.
Proof. intros HQ. by eexists _, _. Qed.

Lemma wp_in_elems {A} (m : M St A) s Q :
  wp m (elems s) (λ a e, Q a (set_elems e s)) → wp (in_elems m) s Q.
Proof.
  intros (a & e & Hm & HQ). exists a, (set_elems e s).
  unfold in_elems. by rewrite Hm.
Qed.

Lemma wlp_get this f s Q :
  (∀ v, vecs s !! this = Some v → Q (get_field f v) s) → wlp (get this f) s Q.
Proof.
  intros HQ a s'. unfold get. destruct (vecs s !! this) eqn:E; [|done].
  intros [= <- <-]. auto.
Qed.

Lemma wlp_set this f p s Q :
  (∀ v, vecs s !! this = Some v →
        Q tt (set_vecs (<[this := set_field f p v]> (vecs s)) s)) →
  wlp (set this f p) s Q.
Proof.
  intros HQ [] s'. unfold set. destruct (vecs s !! this) eqn:E; [|done].
  intros [= <-]. auto.
Qed.

Lemma wlp_alloca s Q :
  Q (vbrk s) (VStore (vecs s) (vbrk s + 1) (elems s)) → wlp alloca s Q.
Proof. intros HQ a s' [= <- <-]. done. Qed.

Lemma wlp_begin_lifetime this v s Q :
  Q tt (set_vecs (<[this := v]> (vecs s)) s) → wlp (begin_lifetime this v) s Q.
Proof. intros HQ [] s' [= <-]. done. Qed.

Lemma wlp_end_lifetime this s Q :
  Q tt (set_vecs (delete this (vecs s)) s) → wlp (end_lifetime this) s Q.
Proof. intros HQ [] s' [= <-]. done. Qed.

(** Code of the element type leaves the vector objects alone. *)
Lemma wlp_in_elems {A} (m : M St A) s Q :
  (∀ a e, Q a (set_elems e s)) → wlp (in_elems m) s Q.
Proof.
  intros HQ a s'. unfold in_elems.
  destruct (m (elems s)) as [[a' e]|]; [|done]. intros [= <- <-]. auto.
Qed.

Lemma vector_begin_eq this v s :
  vecs s !! this = Some v → vector_begin this s = Ok (d_begin v, s).
Proof. intros Hv. unfold vector_begin, get. by rewrite Hv. Qed.

Lemma vector_size_eq this v s :
  vecs s !! this = Some v → vector_size this s = Ok (to_int (vec_size v), s).
Proof. intros Hv. unfold vector_size, bind, get. rewrite Hv. cbn. by rewrite Hv. Qed.

Lemma vector_capacity_eq this v s :
  vecs s !! this = Some v →
  vector_capacity this s = Ok (to_int (vec_capacity v), s).
Proof. intros Hv. unfold vector_capacity, bind, get. rewrite Hv. cbn. by rewrite Hv. Qed.

Lemma vector_empty_eq this v s :
  vecs s !! this = Some v →
  vector_empty this s = Ok (d_begin v =? d_end v, s).
Proof. intros Hv. unfold vector_empty, bind, get. rewrite Hv. cbn. by rewrite Hv. Qed.

End StoreRules.

Lemma to_int_id (z : Z) : in_int z → to_int z = z.
Proof.
  unfold in_int, to_int, INT_MIN, INT_MAX. intros H.
  rewrite Z.mod_small; lia.
Qed.

Lemma to_int_range (z : Z) : in_int (to_int z).
Proof.
  unfold in_int, to_int, INT_MIN, INT_MAX.
  pose proof (Z.mod_pos_bound (z - -2147483648) 4294967296). lia.
Qed.

(** Looking up a vector object in a store written as updates of another. *)
Ltac store_simpl :=
  unfold set_vecs, set_elems;
  cbn [vecs vbrk elems get_field set_field d_begin d_end d_endBuffer fst snd].

Ltac lookup_tac :=
  store_simpl;
  first
    [ eassumption
    | apply lookup_insert_eq
    | rewrite lookup_insert_ne by (first [done | lia]); lookup_tac ].

Ltac wp_step :=
  lazymatch goal with
  | |- wp (bind _ _) _ _ => apply wp_bind
  | |- wp (ret _) _ _ => apply wp_ret
  | |- wp (get _ _) _ _ => eapply wp_get; [lookup_tac|]
  | |- wp (set _ _ _) _ _ => eapply wp_set; [lookup_tac|]
  | |- wp (begin_lifetime _ _) _ _ => apply wp_begin_lifetime
  | |- wp (end_lifetime _) _ _ => apply wp_end_lifetime
  | |- wp alloca _ _ => apply wp_alloca
  | |- wp (lift _) _ _ => eapply wp_lift; [eassumption|]
  end;
  store_simpl.

(** ** The two implementations of [Rvalue] and [RvalueUtil] *)

Lemma move_handle (b : branch) (x : Z) :
  x ≠ 0 → ∃ r : @Rvalue (impl b), @move (impl b) x = Ok r ∧ handle_of r x.
Proof.
  intros Hx. destruct b; cbn.
  - exists (Cpp03.MkRvalue x).
    unfold handle_of; cbn.
    unfold Cpp03.move, Cpp03.Rvalue_ctor, address_of, Cpp03.access,
      Cpp03.to_lvalue, Cpp03.referent, deref.
    destruct x; [lia | done ..].
  - exists x. by unfold handle_of.
Qed.

Lemma handle_of_inj `{RvalueImpl} (r : Rvalue) (x y : Z) :
  handle_of r x → handle_of r y → x = y.
Proof. intros (<- & _) (<- & _). done. Qed.

(** ** The two implementations agree where handles are made by [move] *)

Lemma bind_ext {St A B} (m m' : M St A) (k k' : A → M St B) s :
  m s = m' s → (∀ a s', k a s' = k' a s') → bind m k s = bind m' k' s.
Proof. intros Hm Hk. unfold bind. rewrite Hm. destruct (m' s) as [[a s']|]; auto. Qed.

Lemma in_elems_ext {St A} (m m' : M St A) (s : vstore St) :
  (∀ e, m e = m' e) → in_elems m s = in_elems m' s.
Proof. intros Hm. unfold in_elems. by rewrite Hm. Qed.

Lemma for_each_ext {St} n : ∀ it (body body' : Z → M (vstore St) unit) s,
  (∀ i s', body i s' = body' i s') →
  for_each n it body s = for_each n it body' s.
Proof.
  induction n as [|n IH]; intros it body body' s Hb; [done|].
  cbn [for_each]. apply bind_ext; [apply Hb|]. intros _ s'. by apply IH.
Qed.

Lemma repeat_n_ext {St} n : ∀ (body body' : M (vstore St) unit) s,
  (∀ s', body s' = body' s') →
  repeat_n n body s = repeat_n n body' s.
Proof.
  induction n as [|n IH]; intros body body' s Hb; [done|].
  cbn [repeat_n]. apply bind_ext; [apply Hb|]. intros _ s'. by apply IH.
Qed.

Ltac agree :=
  repeat first
    [ reflexivity
    | progress intros
    | match goal with
      | |- (if ?c then _ else _) _ = (if ?c then _ else _) _ => destruct c
      | |- bind _ _ _ = bind _ _ _ => apply bind_ext
      | |- in_elems _ _ = in_elems _ _ => apply in_elems_ext
      | |- for_each _ _ _ _ = for_each _ _ _ _ => apply for_each_ext
      | |- repeat_n _ _ _ = repeat_n _ _ _ => apply repeat_n_ext
      | H : _ |- _ = _ => solve [apply H; done]
      end ].

Section Agree.
Context {St : Type} (o3 : @TypeOps impl03 St) (o11 : @TypeOps impl11 St).
Hypothesis Hagree : ops_agree o3 o11.

Lemma dtor_agree this (s : vstore St) :
  vector_dtor (RI := impl03) (ops := o3) this s
  = vector_dtor (RI := impl11) (ops := o11) this s.
Proof.
  destruct Hagree as (Hsz & Hnew & Hdel & Hcopy & Hdtor & Hmove).
  unfold vector_dtor, destroy_last. agree.
Qed.

Lemma reserve_agree this n (s : vstore St) :
  vector_reserve (RI := impl03) (ops := o3) this n s
  = vector_reserve (RI := impl11) (ops := o11) this n s.
Proof.
  pose proof dtor_agree as Hd.
  destruct Hagree as (Hsz & Hnew & Hdel & Hcopy & Hdtor & Hmove).
  unfold vector_reserve, for_range, placement_new. rewrite Hsz. agree.
Qed.

Lemma copy_ctor_agree this other (s : vstore St) :
  vector_copy_ctor (RI := impl03) (ops := o3) this other s
  = vector_copy_ctor (RI := impl11) (ops := o11) this other s.
Proof.
  pose proof reserve_agree as Hr.
  destruct Hagree as (Hsz & Hnew & Hdel & Hcopy & Hdtor & Hmove).
  unfold vector_copy_ctor, for_range, placement_new. agree.
Qed.

Lemma grow_agree this (s : vstore St) :
  grow_if_full (RI := impl03) (ops := o3) this s
  = grow_if_full (RI := impl11) (ops := o11) this s.
Proof.
  pose proof reserve_agree as Hr. unfold grow_if_full. agree.
Qed.

Lemma push_back_agree this c (s : vstore St) :
  vector_push_back (RI := impl03) (ops := o3) this c s
  = vector_push_back (RI := impl11) (ops := o11) this c s.
Proof.
  pose proof grow_agree as Hg.
  destruct Hagree as (Hsz & Hnew & Hdel & Hcopy & Hdtor & Hmove).
  unfold vector_push_back, construct_at_end, placement_new. agree.
Qed.

Lemma move_ctor_agree this x (s : vstore St) :
  x ≠ 0 →
  vector_move_ctor (RI := impl03) this (Cpp03.MkRvalue x) s
  = vector_move_ctor (RI := impl11) this x s.
Proof.
  intros Hx. unfold vector_move_ctor. cbn.
  unfold Cpp03.access, Cpp03.to_lvalue, deref, Cpp11.access, Cpp11.to_lvalue.
  cbn. by destruct (Z.eqb_spec x 0).
Qed.

Lemma push_back_rvalue_agree this x (s : vstore St) :
  x ≠ 0 →
  vector_push_back_rvalue (RI := impl03) (ops := o3) this (Cpp03.MkRvalue x) s
  = vector_push_back_rvalue (RI := impl11) (ops := o11) this x s.
Proof.
  intros Hx. pose proof grow_agree as Hg.
  destruct Hagree as (Hsz & Hnew & Hdel & Hcopy & Hdtor & Hmove).
  unfold vector_push_back_rvalue. agree.
  change (construct_at_end (RI := impl03) (ops := o3) this
            (ByRvalue (RI := impl03) (Cpp03.MkRvalue x)) s'0
          = construct_at_end (RI := impl11) (ops := o11) this
              (ByRvalue (RI := impl11) x) s'0).
  unfold construct_at_end, placement_new. agree.
Qed.

Lemma new_copy_agree other (s : vstore St) :
  new_copy (RI := impl03) (ops := o3) other s
  = new_copy (RI := impl11) (ops := o11) other s.
Proof. pose proof copy_ctor_agree as Hc. unfold new_copy. agree. Qed.

Lemma new_moved_agree x (s : vstore St) :
  x ≠ 0 →
  new_moved (RI := impl03) (Cpp03.MkRvalue x) s = new_moved (RI := impl11) x s.
Proof.
  intros Hx. pose proof (λ this s, move_ctor_agree this x s Hx) as Hm.
  unfold new_moved. agree.
Qed.

Lemma assign_copy_agree this other (s : vstore St) :
  assign_copy (RI := impl03) (ops := o3) this other s
  = assign_copy (RI := impl11) (ops := o11) this other s.
Proof.
  pose proof copy_ctor_agree as Hc. pose proof dtor_agree as Hd.
  unfold assign_copy. agree.
Qed.

Lemma assign_move_agree this x (s : vstore St) :
  x ≠ 0 →
  assign_move (RI := impl03) (ops := o3) this (Cpp03.MkRvalue x) s
  = assign_move (RI := impl11) (ops := o11) this x s.
Proof.
  intros Hx. pose proof (λ this s, move_ctor_agree this x s Hx) as Hm.
  pose proof dtor_agree as Hd.
  unfold assign_move. agree.
Qed.

Lemma vector_ops_agree :
  ops_agree (vector_ops (RI := impl03) (ops := o3))
            (vector_ops (RI := impl11) (ops := o11)).
Proof.
  split_and!; cbn; try done.
  - apply copy_ctor_agree.
  - apply dtor_agree.
  - intros p x s Hx. by apply move_ctor_agree.
Qed.

End Agree.

Lemma int_ops_agree : ops_agree (int_ops (RI := impl03)) (int_ops (RI := impl11)).
Proof.
  split_and!; cbn; try done.
  intros p x s Hx. unfold bind, lift, Cpp03.to_lvalue, Cpp11.to_lvalue, deref.
  cbn. by destruct (Z.eqb_spec x 0).
Qed.

(** C1, as amended: for an object [x], both implementations of [move],
    [access] and the conversion to [TYPE&] succeed and denote [x], and
    [moveIfNoexcept] is one definition for both.  With the handles that
    [move(x)] gives, every operation of the example vector returns the
    same under either implementation, on every store and for every
    element type whose own operations agree, as those of [int] and of
    vectors of such a type do; and the usage example runs the same. *)
Theorem branches_equivalent (x : Z) :
  x ≠ 0 →
  ∃ (r03 : Cpp03.Rvalue) (r11 : Cpp11.Rvalue),
    Cpp03.move x = Ok r03 ∧ Cpp11.move x = Ok r11 ∧
    Cpp03.referent r03 = x ∧ Cpp11.referent r11 = x ∧
    Cpp03.access r03 = Ok x ∧ Cpp11.access r11 = Ok x ∧
    Cpp03.to_lvalue r03 = Ok x ∧ Cpp11.to_lvalue r11 = Ok x ∧
    cref_target (moveIfNoexcept x) = x ∧
    (∀ S (s : vstore S) (this : Z),
       vector_move_ctor (RI := impl03) this r03 s
       = vector_move_ctor (RI := impl11) this r11 s) ∧
    (∀ St (o3 : @TypeOps impl03 St) (o11 : @TypeOps impl11 St),
       ops_agree o3 o11 →
       ops_agree (vector_ops (RI := impl03) (ops := o3))
                 (vector_ops (RI := impl11) (ops := o11)) ∧
       ∀ (s : vstore St) (this other n : Z) (c : const_ref),
         vector_push_back (RI := impl03) (ops := o3) this c s
         = vector_push_back (RI := impl11) (ops := o11) this c s ∧
         vector_push_back_rvalue (RI := impl03) (ops := o3) this r03 s
         = vector_push_back_rvalue (RI := impl11) (ops := o11) this r11 s ∧
         vector_reserve (RI := impl03) (ops := o3) this n s
         = vector_reserve (RI := impl11) (ops := o11) this n s ∧
         new_copy (RI := impl03) (ops := o3) other s
         = new_copy (RI := impl11) (ops := o11) other s ∧
         new_moved (RI := impl03) r03 s = new_moved (RI := impl11) r11 s ∧
         assign_copy (RI := impl03) (ops := o3) this other s
         = assign_copy (RI := impl11) (ops := o11) this other s ∧
         assign_move (RI := impl03) (ops := o3) this r03 s
         = assign_move (RI := impl11) (ops := o11) this r11 s ∧
         vector_dtor (RI := impl03) (ops := o3) this s
         = vector_dtor (RI := impl11) (ops := o11) this s) ∧
    ops_agree (int_ops (RI := impl03)) (int_ops (RI := impl11)) ∧
    usage (RI := impl03) init = usage (RI := impl11) init.
Proof.
  intros Hx.
  destruct (move_handle Cxx03 x Hx) as (r03 & Hm03 & H03).
  destruct (move_handle Cxx11 x Hx) as (r11 & Hm11 & H11).
  exists r03, r11.
  destruct H03 as (Hr03 & Ha03 & Hl03 & _), H11 as (Hr11 & Ha11 & Hl11 & _).
  cbn in *. destruct r03 as [q]. cbn in Hr03. subst q.
  unfold Cpp11.referent in Hr11. subst r11.
  split_and!; [done .. | | |apply int_ops_agree|by vm_compute].
  - intros S s this. by apply move_ctor_agree.
  - intros St o3 o11 Hagree. split; [by apply vector_ops_agree|].
    intros s this other n c. split_and!.
    + by apply push_back_agree.
    + by apply push_back_rvalue_agree.
    + by apply reserve_agree.
    + by apply new_copy_agree.
    + by apply new_moved_agree.
    + by apply assign_copy_agree.
    + by apply assign_move_agree.
    + by apply dtor_agree.
Qed.

Lemma branches_equivalent_witness :
  ∃ (r03 : Cpp03.Rvalue) (r11 : Cpp11.Rvalue),
    Cpp03.move 7 = Ok r03 ∧ Cpp11.move 7 = Ok r11 ∧
    Cpp03.referent r03 = 7 ∧ Cpp11.referent r11 = 7 ∧
    Cpp03.access r03 = Ok 7 ∧ Cpp11.access r11 = Ok 7 ∧
    Cpp03.to_lvalue r03 = Ok 7 ∧ Cpp11.to_lvalue r11 = Ok 7 ∧
    cref_target (moveIfNoexcept 7) = 7 ∧
    (∀ S (s : vstore S) (this : Z),
       vector_move_ctor (RI := impl03) this r03 s
       = vector_move_ctor (RI := impl11) this r11 s) ∧
    (∀ St (o3 : @TypeOps impl03 St) (o11 : @TypeOps impl11 St),
       ops_agree o3 o11 →
       ops_agree (vector_ops (RI := impl03) (ops := o3))
                 (vector_ops (RI := impl11) (ops := o11)) ∧
       ∀ (s : vstore St) (this other n : Z) (c : const_ref),
         vector_push_back (RI := impl03) (ops := o3) this c s
         = vector_push_back (RI := impl11) (ops := o11) this c s ∧
         vector_push_back_rvalue (RI := impl03) (ops := o3) this r03 s
         = vector_push_back_rvalue (RI := impl11) (ops := o11) this r11 s ∧
         vector_reserve (RI := impl03) (ops := o3) this n s
         = vector_reserve (RI := impl11) (ops := o11) this n s ∧
         new_copy (RI := impl03) (ops := o3) other s
         = new_copy (RI := impl11) (ops := o11) other s ∧
         new_moved (RI := impl03) r03 s = new_moved (RI := impl11) r11 s ∧
         assign_copy (RI := impl03) (ops := o3) this other s
         = assign_copy (RI := impl11) (ops := o11) this other s ∧
         assign_move (RI := impl03) (ops := o3) this r03 s
         = assign_move (RI := impl11) (ops := o11) this r11 s ∧
         vector_dtor (RI := impl03) (ops := o3) this s
         = vector_dtor (RI := impl11) (ops := o11) this s) ∧
    ops_agree (int_ops (RI := impl03)) (int_ops (RI := impl11)) ∧
    usage (RI := impl03) init = usage (RI := impl11) init.
Proof. apply (branches_equivalent 7). lia. Defined.

(** C1 as it was stated fails for a client that passes a temporary:
    [vv.push_back(vector<int>(v))] copies the temporary under the C++03
    implementation, so that [vv[0]] has a buffer of its own and a second
    block is allocated, and moves it under the C++11 implementation, so
    that [vv[0]] has the buffer the temporary had. *)
Lemma temporary_copied_or_moved :
  outcome (temporary_example Cxx03) init = Ok (6, 10) ∧
  outcome (temporary_example Cxx11) init = Ok (6, 6) ∧
  ibrk (elems (elems (exec (temporary_example Cxx03) init))) = 14 ∧
  ibrk (elems (elems (exec (temporary_example Cxx11) init))) = 10.
Proof. split_and!; by vm_compute. Qed.

(** C2: [access(move(x))] is a reference to [x] itself under either
    implementation, so reading through it reads [x]; and in the C++03
    implementation the conversion operator of a handle and [access] of
    that handle give the same reference. *)
Theorem access_move_roundtrip (b : branch) (x : Z) :
  x ≠ 0 →
  rbind (@move (impl b) x) (@access (impl b)) = Ok x ∧
  (∀ T (objs : gmap Z T),
     rbind (rbind (@move (impl b) x) (@access (impl b)))
           (λ y, Ok (objs !! y)) = Ok (objs !! x)) ∧
  (∀ r : Cpp03.Rvalue, Cpp03.to_lvalue r = Cpp03.access r).
Proof.
  intros Hx. destruct (move_handle b x Hx) as (r & Hm & _ & Ha & _).
  rewrite Hm. cbn. rewrite Ha. by repeat split.
Qed.

Lemma access_move_roundtrip_witness :
  rbind (@move (impl Cxx03) 5) (@access (impl Cxx03)) = Ok 5 ∧
  (∀ T (objs : gmap Z T),
     rbind (rbind (@move (impl Cxx03) 5) (@access (impl Cxx03)))
           (λ y, Ok (objs !! y)) = Ok (objs !! 5)) ∧
  (∀ r : Cpp03.Rvalue, Cpp03.to_lvalue r = Cpp03.access r).
Proof. apply (access_move_roundtrip Cxx03 5). lia. Defined.

Lemma obtainable_referent {T} (objs : gmap Z T) (r : Cpp03.Rvalue) :
  objs !! 0 = None → obtainable objs r → is_Some (objs !! Cpp03.d_pointer r).
Proof.
  intros Hnull. induction 1 as [x r Hx Hm | r r' _ IH Hf].
  - unfold Cpp03.move, Cpp03.Rvalue_ctor, address_of in Hm.
    destruct (0 =? x); cbn in Hm; [done|]. by injection Hm as <-.
  - unfold Cpp03.move_rvalue in Hf. by injection Hf as <-.
Qed.

(** C6: a C++03 handle obtained through the public interface, in a store
    where no object lives at the null address, holds a pointer that is not
    null and points to an object: the assertion of the constructor holds
    for it, and the dereference of the conversion operator yields that
    object.  [move] of an object never fails the assertion. *)
Theorem handles_reference_objects {T} (objs : gmap Z T) (r : Cpp03.Rvalue) :
  objs !! 0 = None →
  obtainable objs r →
  Cpp03.d_pointer r ≠ 0 ∧
  BSLS_ASSERT (negb (0 =? Cpp03.d_pointer r)) = Ok tt ∧
  Cpp03.Rvalue_ctor (Cpp03.d_pointer r) = Ok r ∧
  (∃ x, Cpp03.to_lvalue r = Ok x ∧ x = Cpp03.d_pointer r ∧ is_Some (objs !! x)) ∧
  (∀ x, is_Some (objs !! x) → ∃ r', Cpp03.move x = Ok r' ∧ obtainable objs r').
Proof.
  intros Hnull Hr.
  pose proof (obtainable_referent objs r Hnull Hr) as Hlive.
  assert (Cpp03.d_pointer r ≠ 0) as Hne.
  { intros E. rewrite E, Hnull in Hlive. by destruct Hlive. }
  assert (∀ x, x ≠ 0 → Cpp03.move x = Ok (Cpp03.MkRvalue x)) as Hmove.
  { intros x Hx. unfold Cpp03.move, Cpp03.Rvalue_ctor, address_of.
    destruct (Z.eqb_spec 0 x); [lia|done]. }
  split_and!; [done| | | |].
  - destruct (Z.eqb_spec 0 (Cpp03.d_pointer r)); [lia|done].
  - destruct r as [p]. apply (Hmove p Hne).
  - exists (Cpp03.d_pointer r). split_and!; [|done..].
    unfold Cpp03.to_lvalue, deref.
    destruct (Z.eqb_spec (Cpp03.d_pointer r) 0); [lia|done].
  - intros x Hx. exists (Cpp03.MkRvalue x).
    assert (x ≠ 0) by (intros ->; rewrite Hnull in Hx; by destruct Hx).
    split; [by apply Hmove|]. eapply obtained_move; [done|by apply Hmove].
Qed.

Lemma handles_reference_objects_witness :
  let objs : gmap Z Z := {[ 8 := 42 ]} in
  let r := Cpp03.MkRvalue 8 in
  Cpp03.d_pointer r ≠ 0 ∧
  BSLS_ASSERT (negb (0 =? Cpp03.d_pointer r)) = Ok tt ∧
  Cpp03.Rvalue_ctor (Cpp03.d_pointer r) = Ok r ∧
  (∃ x, Cpp03.to_lvalue r = Ok x ∧ x = Cpp03.d_pointer r ∧ is_Some (objs !! x)) ∧
  (∀ x, is_Some (objs !! x) → ∃ r', Cpp03.move x = Ok r' ∧ obtainable objs r').
Proof.
  intros objs r. apply (handles_reference_objects objs r).
  - reflexivity.
  - apply (obtained_forward objs r r); [|reflexivity].
    apply (obtained_move objs 8 r); [by exists 42|reflexivity].
Defined.

(** C7: the body of [move(x)], run on the store the object [x] lives in
    with the operations of its type at hand, returns the handle to [x]
    and leaves the store exactly as it was, under either implementation:
    it calls none of the operations and writes nothing, so [x] has the
    value it had.  The same holds of [move] of a handle. *)
Theorem move_preserves_state (b : branch) {St : Type}
    (ops : @TypeOps (impl b) St) (s : St) (x : Z) :
  x ≠ 0 →
  wp (move_code b ops x) s (λ r s',
    s' = s ∧
    (∀ V (TM : TypeModel St V), tval s' x = tval s x) ∧
    @move (impl b) x = Ok r ∧ handle_of r x ∧
    wp (move_rvalue_code b ops r) s' (λ r' s'',
      s'' = s ∧ r' = r ∧ @move_rvalue (impl b) r = Ok r')).
Proof.
  intros Hx. destruct (move_handle b x Hx) as (r & Hm & Hr).
  pose proof Hr as (Href & _ & _ & Hfwd).
  destruct b; cbn in *.
  - destruct r as [q]. cbn in Href. subst q.
    unfold Cpp03Code.move, Cpp03Code.Rvalue_ctor, address_of.
    apply wp_bind, wp_ret, wp_bind.
    eapply wp_lift.
    { unfold BSLS_ASSERT. by destruct (Z.eqb_spec 0 x); [lia|]. }
    apply wp_ret. split_and!; [done|done|exact Hm|exact Hr|].
    unfold Cpp03Code.move_rvalue. by apply wp_ret.
  - unfold Cpp11.referent in Href. subst r.
    unfold Cpp11Code.move. apply wp_ret.
    split_and!; [done|done|exact Hm|exact Hr|]. by apply wp_ret.
Qed.

Lemma move_preserves_state_witness :
  wp (move_code Cxx03 (int_ops (RI := impl03)) 3) (IStore {[ 3 := 5 ]} 4)
     (λ r s',
    s' = IStore {[ 3 := 5 ]} 4 ∧
    (∀ V (TM : TypeModel istore V),
       tval s' 3 = tval (IStore {[ 3 := 5 ]} 4) 3) ∧
    @move (impl Cxx03) 3 = Ok r ∧ handle_of r 3 ∧
    wp (move_rvalue_code Cxx03 (int_ops (RI := impl03)) r) s' (λ r' s'',
      s'' = IStore {[ 3 := 5 ]} 4 ∧ r' = r ∧
      @move_rvalue (impl Cxx03) r = Ok r')).
Proof.
  apply (move_preserves_state Cxx03 (int_ops (RI := impl03))
           (IStore {[ 3 := 5 ]} 4) 3).
  lia.
Defined.

(** C8: [move] of a handle made by [move(x)] is a handle to [x]: the C++03
    forwarding overload returns its argument, and the C++11 [move] applied
    again still refers to [x]. *)
Theorem move_idempotent (b : branch) (x : Z) :
  x ≠ 0 →
  (∃ r : @Rvalue (impl b),
     @move (impl b) x = Ok r ∧
     @move_rvalue (impl b) r = Ok r ∧
     rbind (@move_rvalue (impl b) r) (@access (impl b)) = Ok x) ∧
  (∀ r : Cpp03.Rvalue, Cpp03.move_rvalue r = Ok r) ∧
  rbind (Cpp11.move x) Cpp11.move = Cpp11.move x ∧
  rbind (rbind (Cpp11.move x) Cpp11.move) Cpp11.access = Ok x.
Proof.
  intros Hx. split_and!; [|done..].
  destruct (move_handle b x Hx) as (r & Hm & _ & Ha & _ & Hf).
  exists r. rewrite Hf. cbn. done.
Qed.

Lemma move_idempotent_witness :
  (∃ r : @Rvalue (impl Cxx03),
     @move (impl Cxx03) 9 = Ok r ∧
     @move_rvalue (impl Cxx03) r = Ok r ∧
     rbind (@move_rvalue (impl Cxx03) r) (@access (impl Cxx03)) = Ok 9) ∧
  (∀ r : Cpp03.Rvalue, Cpp03.move_rvalue r = Ok r) ∧
  rbind (Cpp11.move 9) Cpp11.move = Cpp11.move 9 ∧
  rbind (rbind (Cpp11.move 9) Cpp11.move) Cpp11.access = Ok 9.
Proof. apply (move_idempotent Cxx03 9). lia. Defined.

(** ** The move constructor of the example vector *)

Lemma vec_ok_null : vec_ok null_vec.
Proof. unfold vec_ok, vec_capacity, null_vec, INT_MAX. cbn. lia. Qed.

(** C3: constructing a vector at [v2] from [move(v0)] gives it the three
    pointers [v0] had, so [begin()] of the new vector is what [begin()] of
    [v0] was; [v0] is left with three null pointers, empty and of capacity
    0, within the class invariant; no element and no other vector is
    touched. *)
Theorem move_ctor_transfers (b : branch) {St} (s : vstore St) (v0 v2 : Z)
    (rep : vec) :
  vecs s !! v0 = Some rep → v0 ≠ 0 → v2 ≠ v0 →
  ∃ r, @move (impl b) v0 = Ok r ∧
    wp (vector_move_ctor (RI := impl b) v2 r) s (λ _ s',
      vecs s' !! v2 = Some rep ∧
      vector_begin v0 s = Ok (d_begin rep, s) ∧
      vector_begin v2 s' = Ok (d_begin rep, s') ∧
      vecs s' !! v0 = Some null_vec ∧
      vector_empty v0 s' = Ok (true, s') ∧
      vector_size v0 s' = Ok (0, s') ∧
      vector_capacity v0 s' = Ok (0, s') ∧
      vec_ok null_vec ∧
      elems s' = elems s ∧ vbrk s' = vbrk s ∧
      ∀ a, a ≠ v0 → a ≠ v2 → vecs s' !! a = vecs s !! a).
Proof.
  intros Hv0 Hnz Hne.
  destruct (move_handle b v0 Hnz) as (r & Hm & _ & Ha & Hl & _).
  exists r. split; [done|].
  unfold vector_move_ctor.
  repeat wp_step.
  match goal with |- context [VStore ?m ?b ?e] => set (s' := VStore m b e) end.
  assert (vecs s' !! v0 = Some null_vec) as H0.
  { subst s'. store_simpl. by rewrite lookup_insert_eq. }
  assert (vecs s' !! v2 = Some rep) as H2.
  { subst s'. store_simpl. rewrite !lookup_insert_ne by done.
    rewrite lookup_insert_eq. by destruct rep. }
  split_and!;
    first [ done
          | by apply vector_begin_eq
          | by rewrite (vector_empty_eq _ _ _ H0)
          | by rewrite (vector_size_eq _ _ _ H0)
          | by rewrite (vector_capacity_eq _ _ _ H0)
          | apply vec_ok_null
          | idtac ].
  intros a Ha0 Ha2. subst s'. store_simpl. by rewrite !lookup_insert_ne by done.
Qed.

Lemma move_ctor_transfers_witness :
  let s : vstore istore :=
    VStore {[ 1 := Vec 10 15 17 ]} 2 (IStore ∅ 20) in
  ∃ r, @move (impl Cxx03) 1 = Ok r ∧
    wp (vector_move_ctor (RI := impl Cxx03) 2 r) s (λ _ s',
      vecs s' !! 2 = Some (Vec 10 15 17) ∧
      vector_begin 1 s = Ok (d_begin (Vec 10 15 17), s) ∧
      vector_begin 2 s' = Ok (d_begin (Vec 10 15 17), s') ∧
      vecs s' !! 1 = Some null_vec ∧
      vector_empty 1 s' = Ok (true, s') ∧
      vector_size 1 s' = Ok (0, s') ∧
      vector_capacity 1 s' = Ok (0, s') ∧
      vec_ok null_vec ∧
      elems s' = elems s ∧ vbrk s' = vbrk s ∧
      ∀ a, a ≠ 1 → a ≠ 2 → vecs s' !! a = vecs s !! a).
Proof.
  intros s. apply (move_ctor_transfers Cxx03 s 1 2 (Vec 10 15 17)).
  - reflexivity.
  - lia.
  - lia.
Defined.

(** ** [moveIfNoexcept] and [reserve] *)

(** ** The shape of the vectors a client can reach *)

Section Shape.
Context `{RI : RvalueImpl} {St : Type} `{ops : !TypeOps St}.
Implicit Types s : vstore St.

Lemma wlp_get_known this f v s (Q : Z → vstore St → Prop) :
  vecs s !! this = Some v → Q (get_field f v) s → wlp (get this f) s Q.
Proof. intros Hv HQ. apply wlp_get. intros v' Hv'. congruence. Qed.

Lemma wlp_set_known this f p v s (Q : unit → vstore St → Prop) :
  vecs s !! this = Some v →
  Q tt (set_vecs (<[this := set_field f p v]> (vecs s)) s) →
  wlp (set this f p) s Q.
Proof. intros Hv HQ. apply wlp_set. intros v' Hv'. congruence. Qed.

Lemma wlp_for_each (I : nat → vstore St → Prop) n it body s
    (Q : unit → vstore St → Prop) :
  I 0%nat s →
  (∀ (i : nat) s1, (i < n)%nat → I i s1 →
     wlp (body (it + Z.of_nat i)) s1 (λ _ s2, I (S i) s2)) →
  (∀ s', I n s' → Q tt s') →
  wlp (for_each n it body) s Q.
Proof.
  revert I it s. induction n as [|n IH]; intros I it s H0 Hbody HQ.
  - apply wlp_ret. auto.
  - cbn [for_each]. apply wlp_bind.
    eapply wlp_mono.
    { specialize (Hbody 0%nat s). rewrite Z.add_0_r in Hbody.
      apply Hbody; [lia|done]. }
    intros [] s1 H1. cbn beta in H1. apply (IH (λ i, I (S i))); [done| |done].
    intros i s2 Hi HI.
    replace (it + 1 + Z.of_nat i) with (it + Z.of_nat (S i)) by lia.
    apply Hbody; [lia|done].
Qed.

Lemma wlp_repeat_n (I : nat → vstore St → Prop) n body s
    (Q : unit → vstore St → Prop) :
  I 0%nat s →
  (∀ (i : nat) s1, (i < n)%nat → I i s1 → wlp body s1 (λ _ s2, I (S i) s2)) →
  (∀ s', I n s' → Q tt s') →
  wlp (repeat_n n body) s Q.
Proof.
  revert I s. induction n as [|n IH]; intros I s H0 Hbody HQ.
  - apply wlp_ret. auto.
  - cbn [repeat_n]. apply wlp_bind.
    eapply wlp_mono. { apply (Hbody 0%nat s); [lia|done]. }
    intros [] s1 H1. cbn beta in H1. apply (IH (λ i, I (S i))); [done| |done].
    intros i s2 Hi HI. apply Hbody; [lia|done].
Qed.

End Shape.

Ltac wlp_step :=
  lazymatch goal with
  | |- wlp (bind _ _) _ _ => apply wlp_bind
  | |- wlp (ret _) _ _ => apply wlp_ret
  | |- wlp (get _ _) _ _ => eapply wlp_get_known; [lookup_tac|]
  | |- wlp (set _ _ _) _ _ => eapply wlp_set_known; [lookup_tac|]
  | |- wlp (begin_lifetime _ _) _ _ => apply wlp_begin_lifetime
  | |- wlp (end_lifetime _) _ _ => apply wlp_end_lifetime
  | |- wlp alloca _ _ => apply wlp_alloca
  | |- wlp (in_elems _) _ _ => apply wlp_in_elems; intros ? ?
  | |- wlp (check _ _) _ _ => apply wlp_check; intros ?
  | |- wlp (lift _) _ _ => apply wlp_lift; intros ? ?
  | |- wlp (fail _) _ _ => apply wlp_fail
  end;
  store_simpl.

(** Name the store a loop invariant speaks of by its parts. *)
Ltac open_store s' H :=
  destruct s' as [? ? ?]; cbn [vecs vbrk elems] in H;
  destruct H as [-> ->].

Section ShapeOps.
Context `{RI : RvalueImpl} {St : Type} `{ops : !TypeOps St}.
Implicit Types s : vstore St.

Lemma dtor_shape this s :
  wlp (vector_dtor this) s (λ _ s',
    vecs s' = delete this (vecs s) ∧ vbrk s' = vbrk s).
Proof.
  unfold vector_dtor. apply wlp_bind, wlp_get. intros [b e eb] Hv. store_simpl.
  apply wlp_bind. destruct (negb (b =? 0)).
  - do 4 wlp_step. wlp_step.
    apply (wlp_repeat_n (λ i s1,
             vecs s1 = <[this := Vec b (e - Z.of_nat i) eb]> (vecs s) ∧
             vbrk s1 = vbrk s)).
    + split; [|done]. rewrite Z.sub_0_r. by rewrite insert_id.
    + intros i s1 Hi HI. open_store s1 HI. unfold destroy_last.
      repeat wlp_step. split; [|done].
      rewrite insert_insert_eq. do 2 f_equal. lia.
    + intros s1 HI. open_store s1 HI. repeat wlp_step.
      split; [|done]. by rewrite delete_insert_eq.
  - repeat wlp_step. done.
Qed.

Lemma swap_shape this other s :
  wlp (vector_swap this other) s (λ _ s',
    ∃ v w, vecs s !! this = Some v ∧ vecs s !! other = Some w ∧
      vecs s' = <[other := v]> (<[this := w]> (vecs s)) ∧
      vbrk s' = vbrk s ∧ elems s' = elems s).
Proof.
  unfold vector_swap, swap_ptr. cbn [fst snd].
  apply wlp_bind, wlp_bind, wlp_get. intros [b e eb] Hv. store_simpl.
  apply wlp_bind, wlp_get. intros [b' e' eb'] Hw. store_simpl.
  destruct (decide (this = other)) as [->|Hne].
  - assert (b' = b ∧ e' = e ∧ eb' = eb) as (-> & -> & ->)
      by (split_and!; congruence).
    repeat wlp_step. exists (Vec b e eb), (Vec b e eb).
    split_and!; [done..| |done|done].
    rewrite !insert_insert_eq. done.
  - repeat wlp_step. exists (Vec b e eb), (Vec b' e' eb').
    split_and!; [done..| |done|done].
    apply map_eq. intros i.
    repeat (rewrite lookup_insert; case_decide); congruence.
Qed.

End ShapeOps.

Section ShapeReserve.
Context `{RI : RvalueImpl} {St : Type} `{ops : !TypeOps St}.
Implicit Types s : vstore St.

Lemma vec_ok_to_int v :
  vec_ok v →
  to_int (vec_size v) = vec_size v ∧ to_int (vec_capacity v) = vec_capacity v ∧
  0 ≤ vec_size v ≤ vec_capacity v.
Proof.
  unfold vec_ok, vec_size, vec_capacity. intros [H1 H2].
  split_and!; try lia; apply to_int_id; unfold in_int, INT_MIN, INT_MAX in *; lia.
Qed.

Lemma reserve_shape this n v s :
  shape_inv s → vecs s !! this = Some v → in_int n →
  wlp (vector_reserve this n) s (λ _ s',
    ∃ v', vecs s' = <[this := v']> (vecs s) ∧ vbrk s ≤ vbrk s' ∧ vec_ok v' ∧
      vec_size v' = vec_size v ∧
      (vec_capacity v < n → vec_capacity v' = n) ∧
      (n ≤ vec_capacity v → v' = v)).
Proof.
  intros Hinv Hv Hn.
  destruct (Hinv _ _ Hv) as [Hlt Hok].
  destruct (vec_ok_to_int v Hok) as (Hsz & Hcap & Hrange).
  assert (vecs s !! vbrk s = None) as Hfresh.
  { destruct (vecs s !! vbrk s) eqn:E; [|done].
    destruct (Hinv _ _ E). lia. }
  unfold vector_reserve, vector_capacity.
  repeat wlp_step. destruct v as [b e eb].
  unfold vec_size, vec_capacity in *. store_simpl. cbn [d_begin d_end d_endBuffer] in *.
  rewrite Hcap.
  destruct (Z.ltb_spec (eb - b) n) as [Hgrow|Hno].
  - unfold vector_ctor. repeat wlp_step.
    unfold for_range. destruct (Z.leb_spec b e) as [Hbe|]; [|apply wlp_fail].
    set (tmp := vbrk s) in *.
    match goal with |- wlp _ (VStore (<[_ := Vec ?p _ _]> _) ?k ?el) _ =>
      apply (wlp_for_each (λ i s1,
        vecs s1 = <[tmp := Vec p (p + Z.of_nat i) (p + n)]> (vecs s) ∧
        vbrk s1 = k)); [| |];
      [ split; [|done]; cbn [vecs]; rewrite !insert_insert_eq;
        do 2 f_equal; lia
      | intros i s1 Hi HI; open_store s1 HI;
        repeat wlp_step; split; [|done];
        rewrite insert_insert_eq; do 2 f_equal; lia
      | intros s1 HI; open_store s1 HI;
        unfold vector_swap, swap_ptr; cbn [fst snd];
        repeat wlp_step;
        (eapply wlp_mono; [apply dtor_shape|]);
        intros [] s' [Hm Hb]; cbn [vecs vbrk] in Hm, Hb;
        exists (Vec p (p + (e - b)) (p + n)) ]
    end.
    split_and!.
    + rewrite Hm. apply map_eq. intros i.
      rewrite lookup_delete.
      repeat (rewrite lookup_insert; case_decide); subst;
        try congruence; try lia.
      all: do 2 f_equal; lia.
    + rewrite Hb. lia.
    + unfold vec_ok, vec_capacity, in_int, INT_MAX in *. cbn. lia.
    + cbn. lia.
    + cbn. lia.
    + cbn. lia.
  - wlp_step. exists (Vec b e eb). split_and!; try done; try lia.
    by rewrite insert_id.
Qed.

End ShapeReserve.

Section ShapeInvariant.
Context `{RI : RvalueImpl} {St : Type} `{ops : !TypeOps St}.
Implicit Types s : vstore St.
Variable P : Z → Prop.
Hypothesis HP : capacity_policy P.

Lemma inv_insert s s' a v' :
  vector_inv P s →
  vecs s' = <[a := v']> (vecs s) → vbrk s ≤ vbrk s' → a < vbrk s' →
  vec_ok v' → P (vec_capacity v') →
  vector_inv P s'.
Proof.
  intros [Hs Hr] Hm Hb Ha Hok Hcap. split.
  - intros i v. rewrite Hm, lookup_insert. case_decide.
    + intros [= <-]. subst. done.
    + intros Hv. destruct (Hs _ _ Hv). split; [lia|done].
  - intros i v. rewrite Hm, lookup_insert. case_decide.
    + by intros [= <-].
    + by apply Hr.
Qed.

Lemma inv_delete s s' a :
  vector_inv P s → vecs s' = delete a (vecs s) → vbrk s ≤ vbrk s' →
  vector_inv P s'.
Proof.
  intros [Hs Hr] Hm Hb. split.
  - intros i v. rewrite Hm, lookup_delete. case_decide; [done|].
    intros Hv. destruct (Hs _ _ Hv). split; [lia|done].
  - intros i v. rewrite Hm, lookup_delete. case_decide; [done|].
    by apply Hr.
Qed.

Lemma inv_elems s e : vector_inv P s → vector_inv P (set_elems e s).
Proof. done. Qed.

Lemma inv_alloca s :
  vector_inv P s → vector_inv P (VStore (vecs s) (vbrk s + 1) (elems s)).
Proof.
  intros [Hs Hr]. split; [|done].
  intros a v Hv. destruct (Hs _ _ Hv). cbn. split; [lia|done].
Qed.

Lemma reserve_inv this n s :
  vector_inv P s → in_int n → (0 < n → P n) →
  wlp (vector_reserve this n) s (λ _ s',
    vector_inv P s' ∧ vbrk s ≤ vbrk s' ∧
    ∃ v v', vecs s !! this = Some v ∧ vecs s' = <[this := v']> (vecs s) ∧
      vec_size v' = vec_size v ∧
      (vec_capacity v < n → vec_capacity v' = n) ∧
      (n ≤ vec_capacity v → v' = v)).
Proof.
  intros Hinv Hn Hallowed [] s' Hrun.
  destruct (vecs s !! this) as [v|] eqn:Hv.
  - destruct (reserve_shape this n v s (proj1 Hinv) Hv Hn _ _ Hrun)
      as (v' & Hm & Hb & Hok & Hsz & Hgrow & Hsame).
    destruct (proj1 Hinv _ _ Hv) as [Hlt Hokv].
    split_and!; [|done|by exists v, v'].
    eapply inv_insert; [done..|lia|done|].
    destruct (Z.lt_ge_cases (vec_capacity v) n) as [Hc|Hc].
    + rewrite (Hgrow Hc). apply Hallowed.
      destruct (vec_ok_to_int v Hokv). lia.
    + rewrite (Hsame Hc). by eapply (proj2 Hinv).
  - unfold vector_reserve, vector_capacity, bind, get in Hrun.
    by rewrite Hv in Hrun.
Qed.

Lemma int_of_1_5_times_spec sz n :
  int_of_1_5_times sz = Ok n → n = Z.quot (3 * sz) 2 ∧ in_int n.
Proof.
  unfold int_of_1_5_times, in_int.
  destruct (Z.leb_spec INT_MIN (3 * sz ÷ 2)), (Z.leb_spec (3 * sz ÷ 2) INT_MAX);
    cbn; [|done..].
  intros [= <-]. done.
Qed.

(** The growth step keeps the invariant, and leaves room when no
    capacity is 1. *)
Lemma grow_inv this s :
  vector_inv P s →
  wlp (grow_if_full this) s (λ _ s',
    vector_inv P s' ∧ vbrk s ≤ vbrk s' ∧
    ∃ v', vecs s' !! this = Some v' ∧
          ((∀ c, P c → c ≠ 1) → d_end v' ≠ d_endBuffer v')).
Proof.
  intros Hinv. unfold grow_if_full.
  apply wlp_bind, wlp_get. intros [b e eb] Hv. store_simpl.
  destruct (proj1 Hinv _ _ Hv) as [Hlt Hok].
  destruct (vec_ok_to_int _ Hok) as (Hsz & Hcap & Hrange).
  pose proof (proj2 Hinv _ _ Hv) as HPcap.
  unfold vec_size, vec_capacity in *. cbn [d_begin d_end d_endBuffer] in *.
  repeat wlp_step.
  destruct (Z.eqb_spec e eb) as [->|Hne].
  - unfold vector_size. repeat wlp_step. rewrite Hsz.
    destruct (Z.eqb_spec (eb - b) 0) as [H0|H0]; cbn [negb].
    + wlp_step. eapply wlp_mono.
      { apply reserve_inv; [done| |].
        - unfold in_int, INT_MIN, INT_MAX. lia.
        - intros _. by apply (policy_big P HP). }
      intros [] s' (Hinv' & Hb & v & v' & Hv0 & Hm & Hsize & Hgrow & _).
      split_and!; [done..|]. exists v'. rewrite Hm, lookup_insert_eq.
      split; [done|]. intros _.
      assert (v = Vec b eb eb) as -> by congruence.
      unfold vec_size, vec_capacity in *. cbn in *. lia.
    + apply wlp_lift. intros n Hn.
      apply int_of_1_5_times_spec in Hn as [-> Hin].
      eapply wlp_mono.
      { apply reserve_inv; [done..|].
        intros _. destruct (decide (eb - b = 1)) as [H1|H1].
        - rewrite H1 in HPcap |- *. exact HPcap.
        - apply (policy_grow P HP); [lia|done]. }
      intros [] s' (Hinv' & Hb & v & v' & Hv0 & Hm & Hsize & Hgrow & _).
      split_and!; [done..|]. exists v'. rewrite Hm, lookup_insert_eq.
      split; [done|]. intros Hnot1.
      assert (v = Vec b eb eb) as -> by congruence.
      unfold vec_size, vec_capacity in *. cbn in *.
      pose proof (Hnot1 _ HPcap).
      assert (eb - b + 1 ≤ 3 * (eb - b) ÷ 2).
      { apply Z.quot_le_lower_bound; lia. }
      lia.
  - wlp_step. split_and!; [done|lia|]. eauto.
Qed.

Lemma construct_at_end_inv this arg s :
  vector_inv P s →
  (∀ v, vecs s !! this = Some v → d_end v ≠ d_endBuffer v) →
  wlp (construct_at_end this arg) s (λ _ s',
    vector_inv P s' ∧ vbrk s' = vbrk s).
Proof.
  intros Hinv Hroom. unfold construct_at_end.
  apply wlp_bind, wlp_get. intros [b e eb] Hv. store_simpl.
  destruct (proj1 Hinv _ _ Hv) as [Hlt Hok]. specialize (Hroom _ Hv).
  repeat wlp_step. split; [|done].
  eapply (inv_insert s); [done|reflexivity|done..| |].
  - unfold vec_ok, vec_capacity in *. cbn in *. lia.
  - apply (proj2 Hinv _ _ Hv).
Qed.

Lemma assert_not_full_spec this s :
  wlp (assert_not_full this) s (λ _ s',
    s' = s ∧ ∀ v, vecs s !! this = Some v → d_end v ≠ d_endBuffer v).
Proof.
  unfold assert_not_full.
  apply wlp_bind, wlp_get. intros [b e eb] Hv. store_simpl.
  repeat wlp_step. split; [done|]. intros v Hv'.
  assert (v = Vec b e eb) as -> by congruence. cbn.
  destruct (Z.eqb_spec e eb); [|done].
  by destruct a.
Qed.

End ShapeInvariant.

Section ShapeSteps.
Context `{RI : RvalueImpl} {St : Type} `{ops : !TypeOps St}.
Implicit Types s : vstore St.
Variable P : Z → Prop.
Hypothesis HP : capacity_policy P.

Lemma copy_ctor_inv this other s :
  vector_inv P s → this < vbrk s →
  wlp (vector_copy_ctor this (ConstRef other)) s (λ _ s',
    vector_inv P s' ∧ vbrk s ≤ vbrk s').
Proof.
  intros Hinv Hlt. unfold vector_copy_ctor. cbn [cref_target].
  do 2 wlp_step.
  assert (vector_inv P (VStore (<[this:=Vec 0 0 0]> (vecs s)) (vbrk s) (elems s)))
    as Hinv1.
  { eapply (inv_insert P s); [done|reflexivity|done..| |].
    - apply vec_ok_null.
    - apply (policy_0 P HP). }
  unfold vector_empty.
  apply wlp_bind, wlp_bind, wlp_get. intros [b e eb] Hw. store_simpl.
  repeat wlp_step.
  destruct (Z.eqb_spec b e) as [Hbe|Hbe]; cbn [negb].
  { wlp_step. split; [done|]. cbn. lia. }
  unfold vector_size, vector_capacity. repeat wlp_step.
  eapply wlp_mono.
  { apply (reserve_inv P); [exact Hinv1| |].
    - pose proof (to_int_range (e - b)) as Hr. unfold in_int, INT_MIN, INT_MAX in *.
      destruct (4 <? to_int (e - b)); lia.
    - intros _. apply (policy_big P HP).
      destruct (Z.ltb_spec 4 (to_int (e - b))); lia. }
  intros [] s2 (Hinv2 & Hb2 & v & v' & Hv & Hm & Hsz & Hgrow & _).
  cbn [vecs vbrk] in Hv, Hm, Hb2. rewrite lookup_insert_eq in Hv.
  injection Hv as <-.
  destruct s2 as [m2 b2 e2]. cbn [vecs] in Hm. subst m2.
  apply wlp_bind, wlp_bind, wlp_get. intros [b' e' eb'] Hw2. store_simpl.
  cbn [vecs] in Hw2.
  repeat wlp_step.
  match goal with H : BSLS_ASSERT _ = Ok _ |- _ =>
    unfold BSLS_ASSERT in H; rename H into Hy end.
  destruct (Z.leb_spec (to_int (e' - b')) (to_int (d_endBuffer v' - d_begin v')))
    as [Hle|]; [|done].
  assert (vecs (VStore (<[this:=v']> (<[this:=Vec 0 0 0]> (vecs s))) b2 e2)
            !! this = Some v') as Hthis by apply lookup_insert_eq.
  destruct (proj1 Hinv2 _ _ Hthis) as [Hlt2 Hok'].
  destruct (proj1 Hinv2 _ _ Hw2) as [_ Hokw].
  destruct (vec_ok_to_int _ Hok') as (_ & Hcap' & _).
  destruct (vec_ok_to_int _ Hokw) as (Hszw & _ & Hrw).
  unfold vec_size, vec_capacity in *. cbn [d_begin d_end d_endBuffer] in *.
  rewrite Hszw, Hcap' in Hle.
  unfold for_range. destruct (Z.leb_spec b' e'); [|apply wlp_fail].
  apply (wlp_for_each (λ i s1,
    vecs s1 = <[this := Vec (d_begin v') (d_end v' + Z.of_nat i) (d_endBuffer v')]>
                (<[this:=Vec 0 0 0]> (vecs s)) ∧
    vbrk s1 = b2)).
  - split; [|done]. cbn [vecs]. f_equal.
    destruct v'. cbn. f_equal. lia.
  - intros i s1 Hi HI. open_store s1 HI.
    repeat wlp_step. split; [|done].
    rewrite insert_insert_eq. do 2 f_equal. lia.
  - intros s1 HI. open_store s1 HI. split; [|done].
    eapply (inv_insert P _ _ this); [exact Hinv2| | |done| |].
    + cbn [vecs]. by rewrite !insert_insert_eq.
    + done.
    + unfold vec_ok, vec_capacity in *. cbn in *. lia.
    + pose proof (proj2 Hinv2 _ _ Hthis) as Hr.
      unfold vec_capacity in *. cbn. done.
Qed.

Lemma move_ctor_inv this r s :
  vector_inv P s → this < vbrk s →
  wlp (vector_move_ctor this r) s (λ _ s',
    vector_inv P s' ∧ vbrk s' = vbrk s).
Proof.
  intros Hinv Hlt. unfold vector_move_ctor.
  apply wlp_bind, wlp_lift. intros o Ho.
  apply wlp_bind, wlp_get. intros [b e eb] Hw. store_simpl.
  apply wlp_bind, wlp_lift. intros o' Ho'.
  assert (o' = o) as -> by congruence.
  do 2 wlp_step.
  apply wlp_bind, wlp_lift. intros o' Ho''.
  assert (o' = o) as -> by congruence.
  do 4 wlp_step.
  assert (vector_inv P (VStore (<[this:=Vec b e eb]> (vecs s)) (vbrk s) (elems s)))
    as Hinv1.
  { destruct (proj1 Hinv _ _ Hw) as [_ Hok].
    eapply (inv_insert P s); [done|reflexivity|done..|].
    apply (proj2 Hinv _ _ Hw). }
  apply wlp_bind, wlp_lift. intros reference Href.
  apply wlp_bind, wlp_set. intros x Hx. store_simpl.
  destruct (proj1 Hinv1 _ _ Hx) as [Hltx _].
  repeat wlp_step. split; [|done].
  eapply (inv_insert P _ _ reference); [exact Hinv1| |done..| |].
  - cbn [vecs]. by rewrite !insert_insert_eq.
  - apply vec_ok_null.
  - apply (policy_0 P HP).
Qed.

Lemma swap_inv this other s :
  vector_inv P s →
  wlp (vector_swap this other) s (λ _ s', vector_inv P s' ∧ vbrk s' = vbrk s).
Proof.
  intros Hinv. eapply wlp_mono; [apply swap_shape|].
  intros [] s' (v & w & Hv & Hw & Hm & Hb & _). split; [|done].
  destruct (proj1 Hinv _ _ Hv) as [Hltv Hokv].
  destruct (proj1 Hinv _ _ Hw) as [Hltw Hokw].
  assert (vector_inv P (VStore (<[this:=w]> (vecs s)) (vbrk s) (elems s))) as H1.
  { eapply (inv_insert P s); [done|reflexivity|done..|].
    apply (proj2 Hinv _ _ Hw). }
  eapply (inv_insert P _ _ other); [exact H1|exact Hm|cbn; lia|lia|done|].
  apply (proj2 Hinv _ _ Hv).
Qed.

Lemma dtor_inv this s :
  vector_inv P s →
  wlp (vector_dtor this) s (λ _ s', vector_inv P s' ∧ vbrk s' = vbrk s).
Proof.
  intros Hinv. eapply wlp_mono; [apply dtor_shape|].
  intros [] s' [Hm Hb]. split; [|done].
  eapply inv_delete; [done..|lia].
Qed.

Lemma push_back_inv this value s :
  vector_inv P s →
  wlp (vector_push_back this value) s (λ _ s', vector_inv P s').
Proof.
  intros Hinv. unfold vector_push_back.
  apply wlp_bind. eapply wlp_mono; [by apply grow_inv|].
  intros [] s1 (Hinv1 & _).
  apply wlp_bind. eapply wlp_mono; [apply assert_not_full_spec|].
  intros [] s2 [-> Hroom].
  eapply wlp_mono; [by apply construct_at_end_inv|].
  by intros [] s3 [? _].
Qed.

Lemma push_back_rvalue_inv this value s :
  vector_inv P s →
  wlp (vector_push_back_rvalue this value) s (λ _ s', vector_inv P s').
Proof.
  intros Hinv. unfold vector_push_back_rvalue.
  apply wlp_bind. eapply wlp_mono; [by apply grow_inv|].
  intros [] s1 (Hinv1 & _).
  apply wlp_bind. eapply wlp_mono; [apply assert_not_full_spec|].
  intros [] s2 [-> Hroom].
  apply wlp_bind, wlp_lift. intros r Hr.
  eapply wlp_mono; [by apply construct_at_end_inv|].
  by intros [] s3 [? _].
Qed.

Lemma assign_inv p this s0 :
  vector_inv P s0 →
  wlp (vector_assign this p ;; vector_dtor p) s0 (λ _ s', vector_inv P s').
Proof.
  intros Hinv. unfold vector_assign.
  apply wlp_bind, wlp_bind. eapply wlp_mono; [by apply swap_inv|].
  intros [] s1 [Hinv1 _]. wlp_step.
  eapply wlp_mono; [by apply dtor_inv|].
  by intros [] s2 [? _].
Qed.

Lemma step_inv allowed s s' :
  (∀ n, allowed n → 0 < n → P n) →
  vector_inv P s → step allowed s s' → vector_inv P s'.
Proof.
  intros Hallowed Hinv Hstep.
  pose proof (inv_alloca P s Hinv) as Hinv0.
  destruct Hstep as [v s' H|this value s' H|this r s' H|this n s' Hn Ha H
    |other v s' H|r v s' H|this other s' H|this r s' H|this other s' H
    |this s' H|e].
  - assert (wlp new_vector s (λ _ s', vector_inv P s')) as W; [|exact (W _ _ H)].
    unfold new_vector, vector_ctor. repeat wlp_step.
    eapply (inv_insert P _ _ (vbrk s)); [exact Hinv0|reflexivity|done|cbn; lia| |].
    + apply vec_ok_null.
    + apply (policy_0 P HP).
  - by apply (push_back_inv _ _ _ Hinv) in H.
  - by apply (push_back_rvalue_inv _ _ _ Hinv) in H.
  - apply (reserve_inv P _ _ _ Hinv Hn) in H as [? _]; [done|].
    by apply Hallowed.
  - assert (wlp (new_copy other) s (λ _ s', vector_inv P s')) as W;
      [|exact (W _ _ H)].
    unfold new_copy. do 3 wlp_step.
    eapply wlp_mono; [apply (copy_ctor_inv _ _ _ Hinv0); cbn; lia|].
    intros [] s1 [Hinv1 _]. by wlp_step.
  - assert (wlp (new_moved r) s (λ _ s', vector_inv P s')) as W;
      [|exact (W _ _ H)].
    unfold new_moved. do 3 wlp_step.
    eapply wlp_mono; [apply (move_ctor_inv _ _ _ Hinv0); cbn; lia|].
    intros [] s1 [Hinv1 _]. by wlp_step.
  - assert (wlp (assign_copy this other) s (λ _ s', vector_inv P s')) as W;
      [|exact (W _ _ H)].
    unfold assign_copy. do 3 wlp_step.
    eapply wlp_mono; [apply (copy_ctor_inv _ _ _ Hinv0); cbn; lia|].
    intros [] s1 [Hinv1 _]. by apply assign_inv.
  - assert (wlp (assign_move this r) s (λ _ s', vector_inv P s')) as W;
      [|exact (W _ _ H)].
    unfold assign_move. do 3 wlp_step.
    eapply wlp_mono; [apply (move_ctor_inv _ _ _ Hinv0); cbn; lia|].
    intros [] s1 [Hinv1 _]. by apply assign_inv.
  - by apply (swap_inv _ _ _ Hinv) in H as [? _].
  - by apply (dtor_inv _ _ Hinv) in H as [? _].
  - by apply inv_elems.
Qed.

Lemma reachable_inv allowed s :
  (∀ n, allowed n → 0 < n → P n) →
  reachable allowed s → vector_inv P s.
Proof.
  intros Hallowed. induction 1 as [s Hempty|s s' _ IH Hstep].
  - split; intros a v; rewrite Hempty, lookup_empty; done.
  - by eapply step_inv.
Qed.

End ShapeSteps.

(** The three properties of capacities the operations keep. *)
Lemma any_capacity_policy : capacity_policy (λ _, True).
Proof. by split. Qed.

Lemma small_or_roomy_policy : capacity_policy small_or_roomy.
Proof.
  unfold small_or_roomy. split; [by left|by right|].
  intros c Hc [?|?]; [lia|]. right.
  apply Z.quot_le_lower_bound; lia.
Qed.

Lemma not_one_policy : capacity_policy not_one.
Proof.
  unfold not_one. split; [done|lia|].
  intros c Hc _. assert (3 ≤ 3 * c ÷ 2); [|lia].
  apply Z.quot_le_lower_bound; lia.
Qed.

(** ** The reachable vectors *)

(** C9, as amended: every vector a client reaches from the default
    constructor by [push_back] (both overloads), [reserve], copy and move
    construction, assignment, [swap] and destruction has
    [0 <= size() <= capacity()].  When the client passes [reserve] no
    argument from 1 to 3, its capacity is 0 or at least 4.  When the
    client never passes [reserve] the argument 1, its capacity is not 1,
    and if [int(1.5 * size())] is an [int] the assertion that follows the
    growth step of [push_back] holds whenever it is reached. *)
Theorem reachable_vector_invariant `{RI : RvalueImpl} {St : Type}
    `{ops : !TypeOps St} (allowed : Z → Prop) (s : vstore St) (this : Z)
    (v : vec) :
  reachable allowed s → vecs s !! this = Some v →
  (∃ sz cap,
     vector_size this s = Ok (sz, s) ∧ vector_capacity this s = Ok (cap, s) ∧
     0 ≤ sz ≤ cap) ∧
  ((∀ n, allowed n → not_1_to_3 n) →
   ∃ cap, vector_capacity this s = Ok (cap, s) ∧ (cap = 0 ∨ 4 ≤ cap)) ∧
  ((∀ n, allowed n → n ≠ 1) →
   (∃ cap, vector_capacity this s = Ok (cap, s) ∧ cap ≠ 1) ∧
   (3 * vec_size v ÷ 2 ≤ INT_MAX →
    ∀ s1, grow_if_full this s = Ok (tt, s1) →
          assert_not_full this s1 = Ok (tt, s1))).
Proof.
  intros Hreach Hv.
  assert (vector_inv (λ _, True) s) as [Hshape _].
  { by apply (reachable_inv _ any_capacity_policy allowed). }
  destruct (Hshape _ _ Hv) as [_ Hok].
  destruct (vec_ok_to_int v Hok) as (Hsz & Hcap & Hrange).
  split_and!.
  - exists (vec_size v), (vec_capacity v).
    rewrite (vector_size_eq _ _ _ Hv), (vector_capacity_eq _ _ _ Hv), Hsz, Hcap.
    done.
  - intros Hallowed.
    assert (vector_inv small_or_roomy s) as Hinv.
    { apply (reachable_inv _ small_or_roomy_policy allowed); [|done].
      intros n Hn Hpos. destruct (Hallowed n Hn); [lia|by right]. }
    exists (vec_capacity v).
    rewrite (vector_capacity_eq _ _ _ Hv), Hcap. split; [done|].
    apply (proj2 Hinv _ _ Hv).
  - intros Hallowed.
    assert (vector_inv not_one s) as Hinv.
    { apply (reachable_inv _ not_one_policy allowed); [|done].
      intros n Hn _. by apply Hallowed. }
    split.
    + exists (vec_capacity v).
      rewrite (vector_capacity_eq _ _ _ Hv), Hcap. split; [done|].
      apply (proj2 Hinv _ _ Hv).
    + intros _ s1 Hgrow.
      destruct (grow_inv not_one not_one_policy this s Hinv _ _ Hgrow)
        as (_ & _ & v' & Hv' & Hroom).
      specialize (Hroom (λ c Hc, Hc)).
      unfold assert_not_full, bind, get. rewrite Hv'. cbn. rewrite Hv'. cbn.
      destruct v' as [b e eb]. cbn in *.
      by destruct (Z.eqb_spec e eb).
Qed.

Lemma reachable_push_1 :
  reachable (RI := impl03) not_1_to_3 (exec push_1 empty_store).
Proof.
  eapply reach_step.
  - eapply reach_step.
    + eapply (reach_step _ empty_store); [by apply reach_init|].
      eapply (step_new _ _ 1). reflexivity.
    + apply (step_elems _ _ (exec (p <- int_new 4 ;; int_store p 7 ;; ret p)
                                   (IStore ∅ 1))).
  - eapply (step_push_back _ _ 1 (ConstRef 1)). by vm_compute.
Qed.

Lemma reachable_vector_invariant_witness :
  (∃ sz cap,
     vector_size 1 (exec push_1 empty_store)
       = Ok (sz, exec push_1 empty_store) ∧
     vector_capacity 1 (exec push_1 empty_store)
       = Ok (cap, exec push_1 empty_store) ∧
     0 ≤ sz ≤ cap) ∧
  ((∀ n, not_1_to_3 n → not_1_to_3 n) →
   ∃ cap, vector_capacity 1 (exec push_1 empty_store)
            = Ok (cap, exec push_1 empty_store) ∧ (cap = 0 ∨ 4 ≤ cap)) ∧
  ((∀ n, not_1_to_3 n → n ≠ 1) →
   (∃ cap, vector_capacity 1 (exec push_1 empty_store)
             = Ok (cap, exec push_1 empty_store) ∧ cap ≠ 1) ∧
   (3 * vec_size (Vec 2 3 6) ÷ 2 ≤ INT_MAX →
    ∀ s1, grow_if_full (RI := impl03) 1 (exec push_1 empty_store) = Ok (tt, s1) →
          assert_not_full 1 s1 = Ok (tt, s1))).
Proof.
  apply (reachable_vector_invariant (RI := impl03) not_1_to_3
           (exec push_1 empty_store) 1 (Vec 2 3 6)).
  - exact reachable_push_1.
  - by vm_compute.
Defined.

(** C9 as it was stated fails: after [vector<int> v; v.reserve(2);] the
    vector is reachable and has capacity 2. *)
Lemma reserve_2_capacity :
  reachable (RI := impl03) any_int (exec reserve_2 empty_store) ∧
  outcome reserve_2 empty_store = Ok 1 ∧
  vector_capacity 1 (exec reserve_2 empty_store)
    = Ok (2, exec reserve_2 empty_store) ∧
  ¬ (2 = 0 ∨ 4 ≤ 2).
Proof.
  split_and!; [|by vm_compute..|lia].
  eapply reach_step.
  - eapply (reach_step _ empty_store); [by apply reach_init|].
    eapply (step_new _ _ 1). reflexivity.
  - eapply (step_reserve _ _ 1 2); [by unfold in_int, INT_MIN, INT_MAX|done|].
    by vm_compute.
Qed.

(** With [reserve(1)] the second [push_back] finds the vector full, asks
    for [int(1.5 * 1) = 1] slots, gets none, and fails its assertion. *)
Lemma reserve_1_push_2_asserts :
  outcome reserve_1_push_2 empty_store = Fail AssertionFailed.
Proof. by vm_compute. Qed.

(** ** Element values in a range of the element store *)

Section Tvals.
Context {St V : Type} `{TM : !TypeModel St V}.
Implicit Types E : St.

Lemma tvals_length E p n L : tvals E p n = Some L → length L = n.
Proof.
  revert p L. induction n as [|n IH]; intros p L; cbn.
  - by intros [= <-].
  - destruct (tval E p) as [v|]; [|done].
    destruct (tvals E (p + 1) n) as [L'|] eqn:HL; [|done].
    intros [= <-]. cbn. f_equal. by eapply IH.
Qed.

Lemma tvals_ext E E' p n :
  (∀ i, p ≤ i < p + Z.of_nat n → tval E' i = tval E i) →
  tvals E' p n = tvals E p n.
Proof.
  revert p. induction n as [|n IH]; intros p Hext; cbn; [done|].
  rewrite Hext by lia. rewrite IH; [done|]. intros i Hi. apply Hext. lia.
Qed.

Lemma tvals_live E p n :
  (∀ i, p ≤ i < p + Z.of_nat n → is_Some (tval E i)) →
  is_Some (tvals E p n).
Proof.
  revert p. induction n as [|n IH]; intros p Hlive; cbn; [by eexists|].
  destruct (Hlive p) as [v ->]; [lia|].
  destruct (IH (p + 1)) as [L ->]; [|by eexists].
  intros i Hi. apply Hlive. lia.
Qed.

Lemma tvals_all_live E p n L :
  tvals E p n = Some L → ∀ i, p ≤ i < p + Z.of_nat n → is_Some (tval E i).
Proof.
  revert p L. induction n as [|n IH]; intros p L; cbn; [lia|].
  destruct (tval E p) as [v|] eqn:Hv; [|done].
  destruct (tvals E (p + 1) n) as [L'|] eqn:HL; [|done].
  intros _ i Hi. destruct (decide (i = p)) as [->|]; [by eexists|].
  eapply IH; [done|lia].
Qed.

Lemma tvals_snoc E p n L v :
  tvals E p n = Some L → tval E (p + Z.of_nat n) = Some v →
  tvals E p (S n) = Some (L ++ [v]).
Proof.
  revert p L. induction n as [|n IH]; intros p L; cbn.
  - intros [= <-]. rewrite Z.add_0_r. by intros ->.
  - destruct (tval E p) as [w|]; [|done].
    destruct (tvals E (p + 1) n) as [L'|] eqn:HL; [|done].
    intros [= <-] Hv.
    change (match tval E (p + 1) with
            | Some v0 => match tvals E (p + 1 + 1) n with
                         | Some L0 => Some (v0 :: L0) | None => None end
            | None => None end) with (tvals E (p + 1) (S n)).
    rewrite (IH (p + 1) L'); [done..|].
    rewrite <- Hv. f_equal. lia.
Qed.

Lemma tvals_cons E p n v L :
  tval E p = Some v → tvals E (p + 1) n = Some L →
  tvals E p (S n) = Some (v :: L).
Proof. cbn. by intros -> ->. Qed.

End Tvals.

(** ** The example vector over an element type that keeps its laws *)

Ltac wp_elems law :=
  apply wp_in_elems; eapply wp_mono; [eapply law|]; store_simpl.

Section VectorSpec.
Context `{RI : RvalueImpl} {St V : Type} `{ops : !TypeOps St}
  `{TM : !TypeModel St V}.
Hypothesis TL : TypeLaws ops TM.
Implicit Types s : vstore St.
Implicit Types E : St.

Lemma buffer_ok_null E : buffer_ok E null_vec.
Proof. by left. Qed.

Lemma buffer_ok_inv E v :
  buffer_ok E v → v ≠ null_vec →
  0 < d_begin v ∧ d_begin v ≤ d_end v ≤ d_endBuffer v ∧
  d_begin v < d_endBuffer v ∧ d_endBuffer v ≤ tlimit E ∧
  sizeof (St := St) * vec_capacity v ≤ INT_MAX ∧
  (∀ i, d_begin v ≤ i < d_end v → is_Some (tval E i)) ∧
  (∀ i, d_end v ≤ i < d_endBuffer v → tval E i = None).
Proof. by intros [->|H] Hne. Qed.

Lemma buffer_ok_shape E v :
  twf E → buffer_ok E v →
  0 ≤ d_begin v ∧ d_begin v ≤ d_end v ≤ d_endBuffer v ∧
  d_endBuffer v ≤ tlimit E.
Proof.
  intros Hwf. pose proof (limit_pos _ _ TL _ Hwf) as Hpos.
  intros [->|Hbuf]; cbn; lia.
Qed.

Lemma buffer_ok_frame_live E E' v :
  buffer_ok E v → tlimit E ≤ tlimit E' →
  (∀ i, d_begin v ≤ i < d_endBuffer v →
        is_Some (tval E' i) ↔ is_Some (tval E i)) →
  buffer_ok E' v.
Proof.
  intros [->|(H1 & H2 & H3 & H4 & H5 & Hlive & Hdead)] Hlim Hframe; [by left|].
  right. split_and!; try done; try lia.
  - intros i Hi. apply Hframe; [lia|]. by apply Hlive.
  - intros i Hi. apply eq_None_not_Some. rewrite Hframe by lia.
    rewrite Hdead by done. by intros [].
Qed.

Lemma buffer_ok_frame E E' v :
  buffer_ok E v → tlimit E ≤ tlimit E' →
  (∀ i, d_begin v ≤ i < d_endBuffer v → tval E' i = tval E i) →
  buffer_ok E' v.
Proof.
  intros Hbuf Hlim Hframe. eapply buffer_ok_frame_live; [done..|].
  intros i Hi. by rewrite Hframe.
Qed.

Lemma wf_update_live s a v' b' E' :
  vector_wf s → twf E' → tlimit (elems s) ≤ tlimit E' →
  vbrk s ≤ b' → 0 < a < b' →
  buffer_ok E' v' →
  (∀ a0 v0, a0 ≠ a → vecs s !! a0 = Some v0 →
     apart v' v0 ∧
     ∀ i, d_begin v0 ≤ i < d_endBuffer v0 →
          is_Some (tval E' i) ↔ is_Some (tval (elems s) i)) →
  vector_wf (VStore (<[a := v']> (vecs s)) b' E').
Proof.
  intros (Hwf & Hpos & Hobj & Hapart) Hwf' Hlim Hb Ha Hok Hothers.
  split_and!; cbn [vecs vbrk elems]; [done|lia| |].
  - intros a0 v0. rewrite lookup_insert. case_decide as Hd.
    + intros [= <-]. subst. done.
    + intros Hv0. destruct (Hobj _ _ Hv0) as [Hr Hbuf].
      split; [lia|]. eapply buffer_ok_frame_live; [done..|].
      destruct (Hothers a0 v0) as [_ Hf]; [congruence|done|]. exact Hf.
  - intros a1 a2 v1 v2 Hne. rewrite !lookup_insert.
    repeat case_decide; subst; try done.
    + intros [= <-] Hv2. by apply (Hothers a2).
    + intros Hv1 [= <-]. destruct (Hothers a1 v1) as [Hap _]; [done..|].
      unfold apart in *. lia.
    + by apply Hapart.
Qed.

Lemma wf_update s a v' b' E' :
  vector_wf s → twf E' → tlimit (elems s) ≤ tlimit E' →
  vbrk s ≤ b' → 0 < a < b' →
  buffer_ok E' v' →
  (∀ a0 v0, a0 ≠ a → vecs s !! a0 = Some v0 →
     apart v' v0 ∧
     ∀ i, d_begin v0 ≤ i < d_endBuffer v0 → tval E' i = tval (elems s) i) →
  vector_wf (VStore (<[a := v']> (vecs s)) b' E').
Proof.
  intros Hwf Hwf' Hlim Hb Ha Hok Hothers.
  apply wf_update_live; [done..|].
  intros a0 v0 Hne Hv0. destruct (Hothers a0 v0 Hne Hv0) as [Hap Hf].
  split; [done|]. intros i Hi. by rewrite Hf.
Qed.

Lemma wf_delete s a b' E' :
  vector_wf s → twf E' → tlimit (elems s) ≤ tlimit E' → vbrk s ≤ b' →
  (∀ a0 v0, a0 ≠ a → vecs s !! a0 = Some v0 →
     ∀ i, d_begin v0 ≤ i < d_endBuffer v0 → tval E' i = tval (elems s) i) →
  vector_wf (VStore (delete a (vecs s)) b' E').
Proof.
  intros (Hwf & Hpos & Hobj & Hapart) Hwf' Hlim Hb Hothers.
  split_and!; cbn [vecs vbrk elems]; [done|lia| |].
  - intros a0 v0. rewrite lookup_delete. case_decide; [done|].
    intros Hv0. destruct (Hobj _ _ Hv0) as [Hr Hbuf].
    split; [lia|]. eapply buffer_ok_frame; [done..|].
    apply (Hothers a0 v0); [congruence|done].
  - intros a1 a2 v1 v2 Hne. rewrite !lookup_delete.
    repeat case_decide; try done. by apply Hapart.
Qed.

Lemma apart_disjoint v v0 i :
  apart v v0 → d_begin v ≤ i < d_endBuffer v →
  d_begin v0 ≤ i < d_endBuffer v0 → False.
Proof. unfold apart. lia. Qed.

Lemma copy_loop_spec tgt p eb (k : nat) : ∀ s e src L,
  vector_wf s → vecs s !! tgt = Some (Vec p e eb) → e + Z.of_nat k ≤ eb →
  tvals (elems s) src k = Some L →
  wp (for_each k src (λ it,
        d <- get tgt F_end ;;
        in_elems (placement_new d (ByConstRef (ConstRef it))) ;;
        d <- get tgt F_end ;;
        set tgt F_end (d + 1))) s
     (λ _ s',
        vector_wf s' ∧
        vecs s' = <[tgt := Vec p (e + Z.of_nat k) eb]> (vecs s) ∧
        vbrk s' = vbrk s ∧
        tlimit (elems s) ≤ tlimit (elems s') ∧
        (∃ L', tvals (elems s') e k = Some L' ∧
               Forall2 (tcopy (St := St)) L L') ∧
        ∀ i, ¬ (e ≤ i < e + Z.of_nat k) →
             tval (elems s') i = tval (elems s) i).
Proof.
  induction k as [|k IH]; intros s e src L Hwf Hv Hroom HL.
  - apply wp_ret. cbn in HL. injection HL as <-.
    split_and!; try done.
    + rewrite Z.add_0_r. by rewrite insert_id.
    + exists []. by split.
  - cbn [for_each]. cbn in HL.
    destruct (tval (elems s) src) as [v|] eqn:Hsrc; [|done].
    destruct (tvals (elems s) (src + 1) k) as [Lt|] eqn:HLt; [|done].
    injection HL as <-.
    pose proof Hwf as (HwfE & Hpos & Hobj & Hapart).
    destruct (Hobj _ _ Hv) as [Hrange Hbuf].
    apply buffer_ok_inv in Hbuf as (Hb1 & Hb2 & Hb3 & Hb4 & Hb5 & Hlive & Hdead);
      [|intros [= -> -> ->]; lia].
    cbn [d_begin d_end d_endBuffer] in *.
    do 4 wp_step. unfold placement_new.
    wp_elems (copy_ok _ _ TL (elems s) e src v); [done..| |lia|].
    { apply Hdead. lia. }
    intros [] E1 (HwfE1 & Hlim1 & (w & Hw & Hcopy) & Hframe1).
    do 3 wp_step.
    set (s1 := VStore (<[tgt := Vec p (e + 1) eb]> (vecs s)) (vbrk s) E1).
    assert (vector_wf s1) as Hwf1.
    { apply wf_update; [done..|lia| |].
      - right. cbn. split_and!; try lia.
        + unfold vec_capacity in *. cbn in *. lia.
        + intros i Hi. destruct (decide (i = e)) as [->|]; [by eexists|].
          rewrite Hframe1 by done. apply Hlive. lia.
        + intros i Hi. rewrite Hframe1 by lia. apply Hdead. lia.
      - intros a0 v0 Hne Hv0. pose proof (Hapart _ _ _ _ Hne Hv0 Hv) as Hap.
        split.
        + unfold apart in *. cbn in *. lia.
        + intros i Hi. apply Hframe1. intros ->.
          unfold apart in Hap. cbn in Hap. lia. }
    eapply wp_mono.
    { apply (IH s1 (e + 1) (src + 1) Lt); [done| |lia|].
      - subst s1. cbn. apply lookup_insert_eq.
      - subst s1. cbn [elems]. rewrite <- HLt. apply tvals_ext.
        intros i Hi. apply Hframe1. intros ->.
        destruct (tvals_all_live _ _ _ _ HLt e) as [? Hx]; [lia|].
        rewrite Hdead in Hx by lia. done. }
    intros [] s' (Hwf' & Hm' & Hb' & Hlim' & (L' & HL' & Hcopies) & Hframe').
    subst s1. cbn [vecs vbrk elems] in *.
    split_and!; try done.
    + rewrite Hm', insert_insert_eq. do 2 f_equal. lia.
    + lia.
    + exists (w :: L'). split; [|by constructor].
      apply tvals_cons; [|done]. rewrite Hframe' by lia. done.
    + intros i Hi. rewrite Hframe' by lia. apply Hframe1. lia.
Qed.

Lemma destroy_loop_spec a b eb (k : nat) : ∀ s e,
  vector_wf s → vecs s !! a = Some (Vec b e eb) → 0 < b →
  b + Z.of_nat k ≤ e →
  wp (repeat_n k (destroy_last a)) s
     (λ _ s',
        vector_wf s' ∧
        vecs s' = <[a := Vec b (e - Z.of_nat k) eb]> (vecs s) ∧
        vbrk s' = vbrk s ∧
        tlimit (elems s) ≤ tlimit (elems s') ∧
        ∀ i, ¬ (e - Z.of_nat k ≤ i < e) →
             tval (elems s') i = tval (elems s) i).
Proof.
  induction k as [|k IH]; intros s e Hwf Hv Hb Hk.
  - apply wp_ret. split_and!; try done.
    rewrite Z.sub_0_r. by rewrite insert_id.
  - cbn [repeat_n]. unfold destroy_last at 1.
    pose proof Hwf as (HwfE & Hpos & Hobj & Hapart).
    destruct (Hobj _ _ Hv) as [Hrange Hbuf].
    apply buffer_ok_inv in Hbuf as (Hb1 & Hb2 & Hb3 & Hb4 & Hb5 & Hlive & Hdead);
      [|intros [= -> -> ->]; lia].
    cbn [d_begin d_end d_endBuffer] in *.
    destruct (Hlive (e - 1)) as [v Hlast]; [lia|].
    repeat wp_step.
    wp_elems (dtor_ok _ _ TL (elems s) (e - 1) v); [done..|].
    intros [] E1 (HwfE1 & Hlim1 & Hgone & Hframe1).
    set (s1 := VStore (<[a := Vec b (e - 1) eb]> (vecs s)) (vbrk s) E1).
    assert (vector_wf s1) as Hwf1.
    { apply wf_update; [done..|lia| |].
      - right. cbn. split_and!; try lia.
        + unfold vec_capacity in *. cbn in *. lia.
        + intros i Hi. rewrite Hframe1 by lia. apply Hlive. lia.
        + intros i Hi. destruct (decide (i = e - 1)) as [->|]; [done|].
          rewrite Hframe1 by done. apply Hdead. lia.
      - intros a0 v0 Hne Hv0. pose proof (Hapart _ _ _ _ Hne Hv0 Hv) as Hap.
        split.
        + unfold apart in *. cbn in *. lia.
        + intros i Hi. apply Hframe1. intros ->.
          unfold apart in Hap. cbn in Hap. lia. }
    eapply wp_mono.
    { apply (IH s1 (e - 1)); [done| |done|lia].
      subst s1. cbn. apply lookup_insert_eq. }
    intros [] s' (Hwf' & Hm' & Hb' & Hlim' & Hframe').
    subst s1. cbn [vecs vbrk elems] in *.
    split_and!; try done.
    + rewrite Hm', insert_insert_eq. do 2 f_equal. lia.
    + lia.
    + intros i Hi. rewrite Hframe' by lia. apply Hframe1. lia.
Qed.

Lemma dtor_spec a v s :
  vector_wf s → vecs s !! a = Some v →
  wp (vector_dtor a) s
     (λ _ s',
        vector_wf s' ∧ vecs s' = delete a (vecs s) ∧ vbrk s' = vbrk s ∧
        tlimit (elems s) ≤ tlimit (elems s') ∧
        ∀ i, ¬ (d_begin v ≤ i < d_end v) →
             tval (elems s') i = tval (elems s) i).
Proof.
  intros Hwf Hv. unfold vector_dtor.
  pose proof Hwf as (HwfE & Hpos & Hobj & Hapart).
  destruct (Hobj _ _ Hv) as [Hrange Hbuf].
  repeat wp_step.
  destruct (Z.eqb_spec (d_begin v) 0) as [H0|H0]; cbn [negb].
  - repeat wp_step. split_and!; try done.
    apply wf_delete; done.
  - apply buffer_ok_inv in Hbuf as (Hb1 & Hb2 & Hb3 & Hb4 & Hb5 & Hlive & Hdead);
      [|by intros ->].
    destruct v as [b e eb]. cbn [d_begin d_end d_endBuffer] in *.
    repeat wp_step.
    apply wp_check; [apply Z.leb_le; lia|]. wp_step.
    eapply wp_mono.
    { apply (destroy_loop_spec a b eb _ s e); [done..|lia]. }
    intros [] s1 (Hwf1 & Hm1 & Hb1' & Hlim1 & Hframe1).
    destruct s1 as [m1 b1 E1]. cbn [vecs vbrk elems] in *. subst m1 b1.
    repeat wp_step.
    wp_elems (delete_ok _ _ TL E1 b); [by destruct Hwf1|].
    intros [] E2 (HwfE2 & Hlim2 & Hframe2).
    wp_step. split_and!; try done.
    + pose proof (wf_delete _ a (vbrk s) E2 Hwf1 HwfE2 Hlim2) as Hd.
      cbn [vecs vbrk elems] in Hd.
      apply Hd; [lia|]. intros a0 v0 _ _ i _. apply Hframe2.
    + by rewrite delete_insert_eq.
    + lia.
    + intros i Hi. rewrite Hframe2. apply Hframe1. lia.
Qed.

Lemma buffer_ok_int E v :
  buffer_ok E v →
  to_int (vec_size v) = vec_size v ∧ to_int (vec_capacity v) = vec_capacity v ∧
  0 ≤ vec_size v ≤ vec_capacity v ∧ vec_capacity v ≤ INT_MAX.
Proof.
  pose proof (sizeof_range _ _ TL) as [Hs1 Hs2].
  intros [->|(H1 & H2 & H3 & H4 & H5 & _)].
  - by vm_compute.
  - unfold vec_size, vec_capacity in *.
    assert (d_endBuffer v - d_begin v ≤ INT_MAX) by nia.
    split_and!; try lia; apply to_int_id; unfold in_int, INT_MIN, INT_MAX in *; lia.
Qed.

Lemma dead_above_limit E i : twf E → tlimit E ≤ i → tval E i = None.
Proof.
  intros Hwf Hi. destruct (tval E i) as [v|] eqn:Hv; [|done].
  pose proof (live_in_range _ _ TL E i v Hwf Hv). lia.
Qed.

Lemma swap_spec this other v w s :
  this ≠ other → vecs s !! this = Some v → vecs s !! other = Some w →
  wp (vector_swap this other) s (λ _ s',
    s' = VStore (<[other := v]> (<[this := w]> (vecs s))) (vbrk s) (elems s)).
Proof.
  intros Hne Hv Hw. unfold vector_swap, swap_ptr. cbn [fst snd].
  repeat wp_step. f_equal. destruct v, w. cbn.
  apply map_eq. intros i.
  repeat (rewrite lookup_insert; case_decide); congruence.
Qed.

Lemma wf_swap this other v w s :
  this ≠ other → vecs s !! this = Some v → vecs s !! other = Some w →
  vector_wf s →
  vector_wf (VStore (<[other := v]> (<[this := w]> (vecs s))) (vbrk s) (elems s)).
Proof.
  intros Hne Hv Hw (HwfE & Hpos & Hobj & Hapart).
  split_and!; cbn [vecs vbrk elems]; [done..| |].
  - intros a0 v0. rewrite !lookup_insert. repeat case_decide; subst.
    + intros [= <-]. split; [apply (Hobj _ _ Hw)|apply (Hobj _ _ Hv)].
    + intros [= <-]. split; [apply (Hobj _ _ Hv)|apply (Hobj _ _ Hw)].
    + apply Hobj.
  - assert (∀ x y, apart x y → apart y x) as Hsym
      by (unfold apart; intros; lia).
    intros a1 a2 v1 v2 Hne12. rewrite !lookup_insert.
    repeat case_decide; subst; try done; intros Hv1 Hv2; simplify_eq;
      eauto using Hapart.
Qed.

Lemma reserve_spec this n v L s :
  vector_wf s → vecs s !! this = Some v →
  tvals (elems s) (d_begin v) (Z.to_nat (vec_size v)) = Some L →
  in_int n → sizeof (St := St) * n ≤ INT_MAX →
  wp (vector_reserve this n) s (λ _ s',
    vector_wf s' ∧ vbrk s ≤ vbrk s' ∧
    tlimit (elems s) ≤ tlimit (elems s') ∧
    ∃ v' L',
      vecs s' = <[this := v']> (vecs s) ∧ vec_size v' = vec_size v ∧
      tvals (elems s') (d_begin v') (Z.to_nat (vec_size v)) = Some L' ∧
      (vec_capacity v < n →
         vec_capacity v' = n ∧ Forall2 (tcopy (St := St)) L L' ∧
         tlimit (elems s) ≤ d_begin v' ∧
         ∀ i, i < tlimit (elems s) → ¬ (d_begin v ≤ i < d_end v) →
              tval (elems s') i = tval (elems s) i) ∧
      (n ≤ vec_capacity v → s' = s ∧ v' = v ∧ L' = L)).
Proof.
  intros Hwf Hv HL Hn Hbytes.
  pose proof (sizeof_range _ _ TL) as [Hs1 Hs2].
  pose proof Hwf as (HwfE & Hpos & Hobj & Hapart).
  destruct (Hobj _ _ Hv) as [Hrange Hbuf].
  destruct (buffer_ok_int _ _ Hbuf) as (Hsz & Hcap & Hszcap & Hcapmax).
  assert (vecs s !! vbrk s = None) as Hfresh.
  { destruct (vecs s !! vbrk s) eqn:E; [|done].
    destruct (Hobj _ _ E). lia. }
  unfold vector_reserve, vector_capacity.
  repeat wp_step.
  change (d_endBuffer v - d_begin v) with (vec_capacity v). rewrite Hcap.
  destruct (Z.ltb_spec (vec_capacity v) n) as [Hgrow|Hno].
  2:{ wp_step. split_and!; [done|lia|lia|].
      exists v, L. split_and!; try done; [by rewrite insert_id|lia]. }
  unfold vector_ctor. repeat wp_step.
  assert (0 ≤ sizeof (St := St) * n ≤ INT_MAX) as Hsize by nia.
  rewrite (to_int_id (sizeof (St := St) * n))
    by (unfold in_int, INT_MIN, INT_MAX in *; lia).
  assert (sizeof (St := St) * n / sizeof (St := St) = n) as Hdiv.
  { rewrite Z.mul_comm. apply Z.div_mul. lia. }
  wp_elems (new_ok _ _ TL (elems s) (sizeof (St := St) * n)); [done|lia|].
  intros p E1 (HwfE1 & Hp & Hlim1 & Hsame1). rewrite Hdiv in Hlim1.
  pose proof (limit_pos _ _ TL _ HwfE) as Hlimpos.
  remember (vbrk s) as tmp eqn:Htmp.
  repeat wp_step. rewrite !insert_insert_eq.
  set (sb := VStore (<[tmp := Vec p p (p + n)]> (vecs s)) (tmp + 1) E1).
  assert (vector_wf sb) as Hwfb.
  { apply wf_update; [done|done|lia|lia|lia| |].
    - right. cbn. unfold vec_capacity. cbn. split_and!; try lia.
      intros i Hi. rewrite Hsame1. apply dead_above_limit; [done|lia].
    - intros a0 v0 Hne Hv0. split; [|by intros i _].
      destruct (Hobj _ _ Hv0) as [_ Hbuf0].
      right. cbn. pose proof (buffer_ok_shape _ _ HwfE Hbuf0). lia. }
  pose proof (buffer_ok_shape _ _ HwfE Hbuf) as Hshape.
  destruct v as [b e eb]. unfold vec_size, vec_capacity in *.
  cbn [d_begin d_end d_endBuffer] in *.
  unfold for_range. destruct (Z.leb_spec b e) as [_|?]; [|lia].
  eapply wp_mono.
  { apply (copy_loop_spec tmp p (p + n) (Z.to_nat (e - b)) sb p b L);
      [done| |lia|].
    - subst sb. cbn. apply lookup_insert_eq.
    - subst sb. cbn [elems]. rewrite <- HL. by apply tvals_ext. }
  intros [] sc (Hwfc & Hmc & Hbc & Hlimc & (L' & HL' & Hcopies) & Hframec).
  destruct sc as [mc bc Ec]. subst sb. cbn [vecs vbrk elems] in *. subst mc bc.
  rewrite insert_insert_eq in Hwfc |- *.
  replace (p + Z.of_nat (Z.to_nat (e - b))) with (p + (e - b)) in * by lia.
  set (new := Vec p (p + (e - b)) (p + n)) in *.
  set (sc := VStore (<[tmp:=new]> (vecs s)) (tmp + 1) Ec) in *.
  assert (vecs sc !! this = Some (Vec b e eb)) as Hthis.
  { subst sc. cbn. rewrite lookup_insert_ne by lia. done. }
  assert (vecs sc !! tmp = Some new) as Htmpv.
  { subst sc. cbn. apply lookup_insert_eq. }
  apply wp_bind.
  eapply wp_mono; [apply (swap_spec this tmp (Vec b e eb) new sc); [lia|done..]|].
  intros [] s1 ->.
  eapply wp_mono.
  { eapply (dtor_spec tmp (Vec b e eb)).
    - apply wf_swap; [lia|done..].
    - cbn. apply lookup_insert_eq. }
  intros [] s' (Hwf' & Hm' & Hb' & Hlim' & Hframe').
  subst sc. cbn [vecs vbrk elems d_begin d_end] in *.
  split_and!; [done|lia|lia|].
  exists new, L'. split_and!.
  - rewrite Hm'. apply map_eq. intros i. rewrite lookup_delete.
    repeat (rewrite lookup_insert; case_decide); subst; try congruence; lia.
  - subst new. cbn. lia.
  - subst new. cbn [d_begin]. rewrite <- HL'. apply tvals_ext.
    intros i Hi. apply Hframe'. lia.
  - intros _. subst new. cbn. split_and!; [lia|done|lia|].
    intros i Hi Hout. rewrite Hframe' by done.
    rewrite Hframec by lia. apply Hsame1.
  - lia.
Qed.

Lemma vector_val_intro s a v L :
  vecs s !! a = Some v →
  tvals (elems s) (d_begin v) (Z.to_nat (vec_size v)) = Some L →
  vector_val s a = Some (v, L).
Proof. unfold vector_val. by intros -> ->. Qed.

Lemma vector_val_inv s a v L :
  vector_val s a = Some (v, L) →
  vecs s !! a = Some v ∧
  tvals (elems s) (d_begin v) (Z.to_nat (vec_size v)) = Some L.
Proof.
  unfold vector_val. destruct (vecs s !! a) as [v'|]; [|done].
  destruct (tvals _ _ _) as [L'|] eqn:HL; [|done].
  by intros [= <- <-].
Qed.

Lemma vector_val_live s a v :
  vector_wf s → vecs s !! a = Some v → ∃ L, vector_val s a = Some (v, L).
Proof.
  intros (HwfE & _ & Hobj & _) Hv. destruct (Hobj _ _ Hv) as [_ Hbuf].
  assert (is_Some (tvals (elems s) (d_begin v) (Z.to_nat (vec_size v))))
    as [L HL].
  { apply tvals_live. intros i Hi. destruct Hbuf as [->|Hbuf].
    - unfold vec_size, null_vec in Hi. cbn in Hi. lia.
    - destruct Hbuf as (_ & _ & _ & _ & _ & Hlive & _). apply Hlive.
      unfold vec_size in Hi. lia. }
  exists L. by apply vector_val_intro.
Qed.

Lemma vector_val_None s a :
  vector_wf s → vector_val s a = None → vecs s !! a = None.
Proof.
  intros Hwf Hnone. destruct (vecs s !! a) as [v|] eqn:Hv; [|done].
  destruct (vector_val_live s a v Hwf Hv) as [L HL]. congruence.
Qed.

Lemma vector_val_frame s s' a :
  vecs s' !! a = vecs s !! a →
  (∀ v i, vecs s !! a = Some v → d_begin v ≤ i < d_end v →
          tval (elems s') i = tval (elems s) i) →
  vector_val s' a = vector_val s a.
Proof.
  intros Hm Hframe. unfold vector_val. rewrite Hm.
  destruct (vecs s !! a) as [v|] eqn:Hv; [|done].
  rewrite (tvals_ext (elems s) (elems s')); [done|].
  intros i Hi. apply (Hframe v); [done|]. unfold vec_size in Hi. lia.
Qed.

Lemma wf_vbrk s b' :
  vector_wf s → vbrk s ≤ b' → vector_wf (VStore (vecs s) b' (elems s)).
Proof.
  intros (HwfE & Hpos & Hobj & Hapart) Hb.
  split_and!; cbn [vecs vbrk elems]; [done|lia| |done].
  intros a v Hv. destruct (Hobj _ _ Hv). split; [lia|done].
Qed.

Lemma copy_ctor_spec dst src v L s :
  vector_wf s → vector_val s src = Some (v, L) →
  vecs s !! dst = None → 0 < dst < vbrk s →
  wp (vector_copy_ctor dst (ConstRef src)) s (λ _ s',
    vector_wf s' ∧ vbrk s ≤ vbrk s' ∧
    tlimit (elems s) ≤ tlimit (elems s') ∧
    (∀ i, i < tlimit (elems s) → tval (elems s') i = tval (elems s) i) ∧
    ∃ v' L',
      vecs s' = <[dst := v']> (vecs s) ∧
      vector_val s' dst = Some (v', L') ∧
      vector_copy_rel (St := St) (v, L) (v', L')).
Proof.
  intros Hwf Hval Hdst Hrange.
  apply vector_val_inv in Hval as [Hv HL].
  pose proof (sizeof_range _ _ TL) as [Hs1 Hs2].
  pose proof Hwf as (HwfE & Hpos & Hobj & Hapart).
  destruct (Hobj _ _ Hv) as [Hsrc Hbuf].
  destruct (buffer_ok_int _ _ Hbuf) as (Hsz & Hcap & Hszcap & Hcapmax).
  pose proof (buffer_ok_shape _ _ HwfE Hbuf) as Hshape.
  pose proof (limit_pos _ _ TL _ HwfE) as Hlimpos.
  assert (src ≠ dst) as Hne by congruence.
  unfold vector_copy_ctor. cbn [cref_target].
  do 2 wp_step.
  set (s1 := VStore (<[dst := Vec 0 0 0]> (vecs s)) (vbrk s) (elems s)).
  assert (vector_wf s1) as Hwf1.
  { apply wf_update; [done|done|lia|lia|lia|apply buffer_ok_null|].
    intros a0 v0 Hne0 Hv0. split; [|done].
    destruct (Hobj _ _ Hv0) as [_ Hbuf0].
    pose proof (buffer_ok_shape _ _ HwfE Hbuf0). left. cbn. lia. }
  assert (vecs s1 !! src = Some v) as Hv1.
  { subst s1. cbn. by rewrite lookup_insert_ne. }
  assert (vecs s1 !! dst = Some null_vec) as Hd1.
  { subst s1. cbn. apply lookup_insert_eq. }
  unfold vector_empty, vector_size, vector_capacity.
  repeat wp_step.
  destruct v as [b e eb]. unfold vec_size, vec_capacity in *.
  cbn [d_begin d_end d_endBuffer] in *.
  destruct (Z.eqb_spec b e) as [Hbe|Hbe]; cbn [negb].
  { wp_step. split_and!; [done|cbn; lia|cbn; lia|done|].
    exists null_vec, []. split_and!; [done| |].
    - apply vector_val_intro; done.
    - replace (e - b) with 0 in HL by lia. cbn in HL. injection HL as <-.
      split_and!; cbn; [constructor|done|done]. }
  assert (sizeof (St := St) * (eb - b) ≤ INT_MAX) as Hbytes.
  { apply buffer_ok_inv in Hbuf as (_ & _ & _ & _ & Hb5 & _);
      [done|by intros [= -> -> ->]]. }
  repeat wp_step. rewrite Hsz.
  remember (if 4 <? e - b then e - b else 4) as n eqn:Hn.
  assert (e - b ≤ n ∧ 4 ≤ n ∧ (n = 4 ∨ n = e - b)) as (Hn1 & Hn2 & Hn3).
  { subst n. destruct (Z.ltb_spec 4 (e - b)); lia. }
  clear Hn.
  eapply wp_mono.
  { apply (reserve_spec dst n null_vec [] s1); [done..| |].
    - unfold in_int, INT_MIN, INT_MAX in *. lia.
    - destruct Hn3 as [->| ->]; [lia|nia]. }
  intros [] s2 (Hwf2 & Hb2 & Hlim2 & v2 & L2 & Hm2 & Hsz2 & HL2 & Hgrow & _).
  destruct Hgrow as (Hcap2 & _ & Hp2 & Hframe2);
    [unfold vec_capacity, null_vec; cbn; lia|].
  change (elems s1) with (elems s) in *. change (vbrk s1) with (vbrk s) in *.
  destruct v2 as [p e2 eb2]. unfold vec_size, vec_capacity in *.
  cbn [d_begin d_end d_endBuffer null_vec elems] in *.
  assert (e2 = p) as -> by lia. assert (eb2 = p + n) as -> by lia.
  assert (vecs s2 !! src = Some (Vec b e eb)) as Hsrc2.
  { rewrite Hm2, lookup_insert_ne by done. done. }
  assert (vecs s2 !! dst = Some (Vec p p (p + n))) as Hdst2.
  { rewrite Hm2. apply lookup_insert_eq. }
  repeat wp_step. rewrite Hsz.
  replace (p + n - p) with n by lia.
  rewrite (to_int_id n) by (unfold in_int, INT_MIN, INT_MAX in *; lia).
  eapply wp_lift.
  { unfold BSLS_ASSERT. destruct (Z.leb_spec (e - b) n); [done|lia]. }
  repeat wp_step.
  unfold for_range. destruct (Z.leb_spec b e) as [_|?]; [|lia].
  eapply wp_mono.
  { apply (copy_loop_spec dst p (p + n) (Z.to_nat (e - b)) s2 p b L);
      [done|done|lia|].
    rewrite <- HL. apply tvals_ext. intros i Hi. apply Hframe2; lia. }
  intros [] s3 (Hwf3 & Hm3 & Hb3 & Hlim3 & (L' & HL' & Hcopies) & Hframe3).
  replace (p + Z.of_nat (Z.to_nat (e - b))) with (p + (e - b)) in * by lia.
  split_and!; [done|cbn in *; lia|lia| |].
  - intros i Hi. rewrite Hframe3 by lia. apply Hframe2; lia.
  - exists (Vec p (p + (e - b)) (p + n)), L'.
    assert (vecs s3 = <[dst:=Vec p (p + (e - b)) (p + n)]> (vecs s)) as Hm.
    { rewrite Hm3, Hm2. subst s1. cbn. by rewrite !insert_insert_eq. }
    split_and!; [done| |].
    + apply vector_val_intro; [rewrite Hm; apply lookup_insert_eq|].
      unfold vec_size. cbn. rewrite <- HL'. f_equal. lia.
    + split_and!; cbn; [done| |].
      * intros ->. apply tvals_length in HL. cbn in HL. lia.
      * intros _. split_and!; [lia|lia|]. left. cbn. lia.
Qed.

Lemma move_ctor_spec dst r src v s :
  handle_of r src → vecs s !! src = Some v → dst ≠ src →
  wp (vector_move_ctor dst r) s (λ _ s',
    s' = VStore (<[src := null_vec]> (<[dst := v]> (vecs s))) (vbrk s) (elems s)).
Proof.
  intros (_ & Ha & Hl & _) Hv Hne. unfold vector_move_ctor.
  repeat wp_step. f_equal. rewrite !insert_insert_eq. by destruct v.
Qed.

Lemma wf_move dst src v s :
  vector_wf s → vecs s !! src = Some v → vecs s !! dst = None →
  0 < dst < vbrk s →
  vector_wf (VStore (<[src := null_vec]> (<[dst := v]> (vecs s)))
                    (vbrk s) (elems s)).
Proof.
  intros (HwfE & Hpos & Hobj & Hapart) Hv Hdst Hrange.
  assert (∀ a0 v0, vecs s !! a0 = Some v0 → apart null_vec v0 ∧ apart v0 null_vec)
    as Hnull.
  { intros a0 v0 Hv0. destruct (Hobj _ _ Hv0) as [_ Hbuf0].
    pose proof (buffer_ok_shape _ _ HwfE Hbuf0).
    unfold apart. cbn. lia. }
  split_and!; cbn [vecs vbrk elems]; [done..| |].
  - intros a0 v0. rewrite !lookup_insert. repeat case_decide; subst.
    + intros [= <-]. split; [apply (Hobj _ _ Hv)|apply buffer_ok_null].
    + intros [= <-]. split; [done|apply (Hobj _ _ Hv)].
    + apply Hobj.
  - intros a1 a2 v1 v2 Hne12. rewrite !lookup_insert.
    repeat case_decide; subst; try done; intros Hv1 Hv2; simplify_eq.
    + apply (Hnull _ _ Hv).
    + by apply (Hnull _ _ Hv2).
    + apply (Hnull _ _ Hv).
    + by apply (Hapart src a2).
    + by apply (Hnull _ _ Hv1).
    + by apply (Hapart a1 src).
    + by apply (Hapart a1 a2).
Qed.

Lemma elems_below_limit s a v i :
  vector_wf s → vecs s !! a = Some v → d_begin v ≤ i < d_end v →
  i < tlimit (elems s).
Proof.
  intros (HwfE & _ & Hobj & _) Hv Hi. destruct (Hobj _ _ Hv) as [_ Hbuf].
  pose proof (buffer_ok_shape _ _ HwfE Hbuf). lia.
Qed.

(** The example vector keeps the laws it asks of its element type. *)
Lemma vector_laws :
  TypeLaws (vector_ops (St := St)) (vector_model (St := St)).
Proof.
  split.
  - cbn. unfold sizeof_vector, INT_MAX. lia.
  - intros s (_ & Hpos & _). done.
  - intros s a [v L] (_ & _ & Hobj & _) Hval.
    apply vector_val_inv in Hval as [Hv _]. apply (Hobj _ _ Hv).
  - intros s size Hwf Hsize. cbn. unfold vector_new.
    destruct (Z.ltb_spec size 0) as [?|_]; [lia|].
    eexists _, _. split; [done|]. cbn.
    assert (0 ≤ size / sizeof_vector)
      by (apply Z.div_pos; unfold sizeof_vector; lia).
    split_and!; [apply wf_vbrk; [done|lia]|lia|lia|done].
  - intros s p Hwf. apply wp_ret. done.
  - intros s dst src [v L] Hwf Hsrc Hdst Hrange. cbn in *.
    apply (vector_val_None _ _ Hwf) in Hdst.
    eapply wp_mono; [by apply (copy_ctor_spec dst src v L s)|].
    intros [] s' (Hwf' & Hb' & Hlim' & Hframe & v' & L' & Hm & Hval' & Hrel).
    split_and!; [done|done|by exists (v', L')|].
    intros a Ha. apply vector_val_frame.
    + by rewrite Hm, lookup_insert_ne.
    + intros v0 i Hv0 Hi. apply Hframe. by eapply elems_below_limit.
  - intros s dst r src [v L] Hwf Hr Hsrc Hdst Hrange. cbn in *.
    apply (vector_val_None _ _ Hwf) in Hdst.
    apply vector_val_inv in Hsrc as [Hv HL].
    assert (dst ≠ src) as Hne by congruence.
    eapply wp_mono; [by apply (move_ctor_spec dst r src v s)|].
    intros [] s' ->. split_and!; [by apply wf_move|done| |].
    + exists (v, L), (null_vec, []). split_and!; [| |done].
      * apply vector_val_intro; [|done]. cbn.
        rewrite lookup_insert_ne by done. apply lookup_insert_eq.
      * apply vector_val_intro; [|done]. cbn. apply lookup_insert_eq.
    + intros a Ha1 Ha2. apply vector_val_frame; [|done].
      cbn. by rewrite !lookup_insert_ne.
  - intros s a [v L] Hwf Hval. cbn in *.
    apply vector_val_inv in Hval as [Hv HL].
    eapply wp_mono; [by apply (dtor_spec a v s)|].
    intros [] s' (Hwf' & Hm & Hb' & Hlim' & Hframe).
    split_and!; [done|lia| |].
    + unfold vector_val. by rewrite Hm, lookup_delete_eq.
    + intros a' Ha'. apply vector_val_frame.
      * by rewrite Hm, lookup_delete_ne.
      * intros v0 i Hv0 Hi. apply Hframe. intros Hi'.
        destruct Hwf as (HwfE & _ & Hobj & Hapart).
        pose proof (Hapart _ _ _ _ Ha' Hv0 Hv) as Hap.
        destruct (Hobj _ _ Hv0) as [_ Hbuf0]. destruct (Hobj _ _ Hv) as [_ Hbuf].
        pose proof (buffer_ok_shape _ _ HwfE Hbuf0).
        pose proof (buffer_ok_shape _ _ HwfE Hbuf).
        unfold apart in Hap. lia.
Qed.

End VectorSpec.

(** [int] keeps the laws. *)
Lemma int_laws `{RI : RvalueImpl} : TypeLaws int_ops int_model.
Proof.
  split.
  - cbn. unfold INT_MAX. lia.
  - by intros s [Hpos _].
  - intros s a v [_ Hlive] Hv. by eapply Hlive.
  - intros s size [Hpos Hlive] Hsize. cbn. unfold int_new.
    destruct (Z.ltb_spec size 0) as [?|_]; [lia|].
    eexists _, _. split; [done|]. cbn.
    assert (0 ≤ size / 4) by (apply Z.div_pos; lia).
    split_and!; [split; cbn; [lia|]|lia|lia|done].
    intros a v Hv. pose proof (Hlive _ _ Hv). lia.
  - intros s p Hwf. by apply wp_ret.
  - intros s dst src v [Hpos Hlive] Hsrc Hdst Hrange. cbn in *.
    eexists tt, _. split.
    { unfold bind, int_load, int_store. rewrite Hsrc. done. }
    cbn. split_and!; [split; cbn; [done|]|done| |].
    + intros a w. rewrite lookup_insert. case_decide; [by intros; subst|].
      apply Hlive.
    + exists v. by rewrite lookup_insert_eq.
    + intros a Ha. by rewrite lookup_insert_ne.
  - intros s dst r src v [Hpos Hlive] (_ & _ & Hl & _) Hsrc Hdst Hrange.
    cbn in *. eexists tt, _. split.
    { unfold bind, lift, int_load, int_store. rewrite Hl, Hsrc. done. }
    assert (dst ≠ src) by congruence.
    cbn. split_and!; [split; cbn; [done|]|done| |].
    + intros a w. rewrite lookup_insert. case_decide; [by intros; subst|].
      apply Hlive.
    + exists v, v. rewrite lookup_insert_eq, lookup_insert_ne by done. done.
    + intros a Ha1 Ha2. by rewrite lookup_insert_ne.
  - intros s a v [Hpos Hlive] Hv. cbn in *.
    eexists tt, _. split.
    { unfold int_end_lifetime. rewrite Hv. done. }
    cbn. split_and!; [split; cbn; [done|]|done| |].
    + intros a' w. rewrite lookup_delete. case_decide; [done|]. apply Hlive.
    + apply lookup_delete_eq.
    + intros a' Ha'. by rewrite lookup_delete_ne.
Qed.

(** ** [push_back] over an element type that keeps its laws *)

Section PushBackSpec.
Context `{RI : RvalueImpl} {St V : Type} `{ops : !TypeOps St}
  `{TM : !TypeModel St V}.
Hypothesis TL : TypeLaws ops TM.
Implicit Types s : vstore St.
Implicit Types E : St.

Lemma grow_spec this v L s :
  vector_wf s → vector_val s this = Some (v, L) → can_grow (St := St) v →
  wp (grow_if_full this) s (λ _ s',
    vector_wf s' ∧ vbrk s ≤ vbrk s' ∧
    tlimit (elems s) ≤ tlimit (elems s') ∧
    (∀ i, i < tlimit (elems s) → ¬ (d_begin v ≤ i < d_end v) →
          tval (elems s') i = tval (elems s) i) ∧
    ∃ v' L0,
      vecs s' = <[this := v']> (vecs s) ∧
      vector_val s' this = Some (v', L0) ∧
      vec_size v' = vec_size v ∧ d_end v' < d_endBuffer v' ∧
      ((v' = v ∧ L0 = L) ∨
       (tlimit (elems s) ≤ d_begin v' ∧ Forall2 (tcopy (St := St)) L L0))).
Proof.
  intros Hwf Hval Hgrow.
  apply vector_val_inv in Hval as [Hv HL].
  pose proof (sizeof_range _ _ TL) as [Hs1 Hs2].
  pose proof Hwf as (HwfE & Hpos & Hobj & Hapart).
  destruct (Hobj _ _ Hv) as [Hrange Hbuf].
  destruct (buffer_ok_int TL _ _ Hbuf) as (Hsz & Hcap & Hszcap & Hcapmax).
  pose proof (buffer_ok_shape TL _ _ HwfE Hbuf) as Hshape.
  unfold grow_if_full, vector_size. repeat wp_step.
  destruct (Z.eqb_spec (d_end v) (d_endBuffer v)) as [Hfull|Hroom].
  2:{ wp_step. split_and!; [done|lia|lia|done|].
      exists v, L. split_and!; [by rewrite insert_id| |done|lia|by left].
      by apply vector_val_intro. }
  destruct (Hgrow Hfull) as [Hne1 Hbytes].
  repeat wp_step.
  change (d_end v - d_begin v) with (vec_size v). rewrite Hsz.
  assert (∀ n, in_int n → sizeof (St := St) * n ≤ INT_MAX → vec_size v < n →
    wp (vector_reserve this n) s (λ _ s',
      vector_wf s' ∧ vbrk s ≤ vbrk s' ∧
      tlimit (elems s) ≤ tlimit (elems s') ∧
      (∀ i, i < tlimit (elems s) → ¬ (d_begin v ≤ i < d_end v) →
            tval (elems s') i = tval (elems s) i) ∧
      ∃ v' L0,
        vecs s' = <[this := v']> (vecs s) ∧
        vector_val s' this = Some (v', L0) ∧
        vec_size v' = vec_size v ∧ d_end v' < d_endBuffer v' ∧
        ((v' = v ∧ L0 = L) ∨
         (tlimit (elems s) ≤ d_begin v' ∧ Forall2 (tcopy (St := St)) L L0))))
    as Hreserve.
  { intros n Hn Hb Hlt. eapply wp_mono; [by apply (reserve_spec TL this n v L s)|].
    intros [] s' (Hwf' & Hb' & Hlim' & v' & L' & Hm & Hsz' & HL' & Hg & _).
    destruct Hg as (Hcap' & Hcopies & Hp & Hframe);
      [unfold vec_size, vec_capacity in *; lia|].
    split_and!; [done..|]. exists v', L'. split_and!; [done| |done| |by right].
    - apply vector_val_intro; [rewrite Hm; apply lookup_insert_eq|].
      by rewrite Hsz'.
    - unfold vec_size, vec_capacity in *. lia. }
  destruct (Z.eqb_spec (vec_size v) 0) as [H0|H0]; cbn [negb].
  - wp_step. apply Hreserve; [by unfold in_int, INT_MIN, INT_MAX|lia|lia].
  - assert (2 ≤ vec_size v) by lia.
    assert (vec_size v + 1 ≤ 3 * vec_size v ÷ 2)
      by (apply Z.quot_le_lower_bound; lia).
    assert (3 * vec_size v ÷ 2 ≤ INT_MAX) as Hq.
    { rewrite <- Hbytes. rewrite <- (Z.mul_1_l (_ ÷ _)) at 1.
      apply Z.mul_le_mono_nonneg_r; lia. }
    eapply wp_lift.
    { unfold int_of_1_5_times.
      destruct (Z.leb_spec INT_MIN (3 * vec_size v ÷ 2)),
               (Z.leb_spec (3 * vec_size v ÷ 2) INT_MAX);
        unfold INT_MIN in *; try lia. reflexivity. }
    apply Hreserve; [unfold in_int, INT_MIN; lia|done|lia].
Qed.

Lemma wp_then_ret {S0} (m : M S0 unit) (s0 : S0) Q :
  wp (m ;; ret tt) s0 Q → wp m s0 Q.
Proof.
  intros ([] & s' & Hrun & HQ). unfold bind in Hrun.
  destruct (m s0) as [[[] s1]|] eqn:Hm; [|done].
  injection Hrun as <-. by exists tt, s1.
Qed.

Lemma construct_copy_spec this v L x vx s :
  vector_wf s → vector_val s this = Some (v, L) →
  d_end v < d_endBuffer v → tval (elems s) x = Some vx →
  wp (construct_at_end this (ByConstRef (ConstRef x))) s (λ _ s',
    vector_wf s' ∧ vbrk s' = vbrk s ∧
    tlimit (elems s) ≤ tlimit (elems s') ∧
    (∀ i, i ≠ d_end v → tval (elems s') i = tval (elems s) i) ∧
    ∃ w,
      vecs s' = <[this := Vec (d_begin v) (d_end v + 1) (d_endBuffer v)]> (vecs s) ∧
      vector_val s' this
        = Some (Vec (d_begin v) (d_end v + 1) (d_endBuffer v), L ++ [w]) ∧
      tcopy (St := St) vx w).
Proof.
  intros Hwf Hval Hroom Hx.
  apply vector_val_inv in Hval as [Hv HL].
  pose proof Hwf as (HwfE & Hpos & Hobj & Hapart).
  destruct (Hobj _ _ Hv) as [Hrange Hbuf].
  pose proof (buffer_ok_shape TL _ _ HwfE Hbuf) as Hshape.
  destruct v as [b e eb]. unfold vec_size in *.
  cbn [d_begin d_end d_endBuffer] in *.
  apply wp_then_ret.
  eapply wp_mono.
  { apply (copy_loop_spec TL this b eb 1 s e x [vx]); [done|done|lia|].
    cbn. by rewrite Hx. }
  intros [] s' (Hwf' & Hm & Hb & Hlim & (L' & HL' & Hcopies) & Hframe).
  replace (e + Z.of_nat 1) with (e + 1) in * by lia.
  apply Forall2_cons_inv_l in Hcopies as (w & L'' & Hw & Hnil & ->).
  apply Forall2_nil_inv_l in Hnil as ->.
  cbn in HL'. destruct (tval (elems s') e) as [w'|] eqn:Hwe; [|done].
  injection HL' as ->.
  split_and!; [done|done|lia| |].
  - intros i Hi. apply Hframe. lia.
  - exists w. split_and!; [done| |done].
    apply vector_val_intro; [rewrite Hm; apply lookup_insert_eq|].
    unfold vec_size. cbn [d_begin d_end].
    replace (Z.to_nat (e + 1 - b)) with (S (Z.to_nat (e - b))) by lia.
    apply tvals_snoc.
    + rewrite <- HL. apply tvals_ext. intros i Hi. apply Hframe. lia.
    + rewrite <- Hwe. f_equal. lia.
Qed.

Lemma construct_move_spec this v L r x vx s :
  vector_wf s → vector_val s this = Some (v, L) →
  d_end v < d_endBuffer v → handle_of r x →
  tval (elems s) x = Some vx → ¬ (d_begin v ≤ x < d_end v) →
  wp (construct_at_end this (ByRvalue r)) s (λ _ s',
    vector_wf s' ∧ vbrk s' = vbrk s ∧
    tlimit (elems s) ≤ tlimit (elems s') ∧
    (∀ i, i ≠ d_end v → i ≠ x → tval (elems s') i = tval (elems s) i) ∧
    ∃ w u,
      vecs s' = <[this := Vec (d_begin v) (d_end v + 1) (d_endBuffer v)]> (vecs s) ∧
      vector_val s' this
        = Some (Vec (d_begin v) (d_end v + 1) (d_endBuffer v), L ++ [w]) ∧
      tval (elems s') x = Some u ∧
      tmove (St := St) vx w u).
Proof.
  intros Hwf Hval Hroom Hr Hx Hout.
  apply vector_val_inv in Hval as [Hv HL].
  pose proof Hwf as (HwfE & Hpos & Hobj & Hapart).
  destruct (Hobj _ _ Hv) as [Hrange Hbuf].
  apply buffer_ok_inv in Hbuf
    as (Hb1 & Hb2 & Hb3 & Hb4 & Hb5 & Hlive & Hdead);
    [|intros ->; cbn in Hroom; lia].
  destruct v as [b e eb]. unfold vec_size, vec_capacity in *.
  cbn [d_begin d_end d_endBuffer] in *.
  assert (x ≠ e) as Hxe.
  { intros ->. rewrite Hdead in Hx by lia. done. }
  unfold construct_at_end. repeat wp_step. unfold placement_new.
  wp_elems (move_ok _ _ TL (elems s) e r x vx); [done..| |lia|].
  { apply Hdead. lia. }
  intros [] E1 (HwfE1 & Hlim1 & (w & u & Hw & Hu & Hmove) & Hframe1).
  repeat wp_step.
  assert (∀ i, i ≠ e → is_Some (tval E1 i) ↔ is_Some (tval (elems s) i))
    as Hliveness.
  { intros i Hi. destruct (decide (i = x)) as [->|Hix].
    - rewrite Hu, Hx. split; by eexists.
    - by rewrite Hframe1. }
  split_and!; [|done|lia|done|].
  - apply wf_update_live; [done..|lia| |].
    + right. cbn. unfold vec_capacity. cbn. split_and!; try lia.
      * intros i Hi. destruct (decide (i = e)) as [->|]; [by eexists|].
        apply Hliveness; [done|]. apply Hlive. lia.
      * intros i Hi. apply eq_None_not_Some. rewrite Hliveness by lia.
        rewrite Hdead by lia. by intros [].
    + intros a0 v0 Hne Hv0. pose proof (Hapart _ _ _ _ Hne Hv0 Hv) as Hap.
      split.
      * unfold apart in *. cbn in *. lia.
      * intros i Hi. apply Hliveness. intros ->.
        unfold apart in Hap. cbn in Hap. lia.
  - exists w, u. split_and!; [done| |done|done].
    apply vector_val_intro; [cbn; apply lookup_insert_eq|].
    unfold vec_size. cbn [d_begin d_end elems].
    replace (Z.to_nat (e + 1 - b)) with (S (Z.to_nat (e - b))) by lia.
    apply tvals_snoc.
    + rewrite <- HL. apply tvals_ext. intros i Hi. apply Hframe1; lia.
    + rewrite <- Hw. f_equal. lia.
Qed.

Lemma assert_not_full_ok this v s :
  vecs s !! this = Some v → d_end v < d_endBuffer v →
  wp (assert_not_full this) s (λ _ s', s' = s).
Proof.
  intros Hv Hroom. unfold assert_not_full. repeat wp_step.
  eapply wp_lift; [|done]. unfold BSLS_ASSERT.
  destruct (Z.eqb_spec (d_end v) (d_endBuffer v)); [lia|done].
Qed.

Lemma push_back_spec this v L x vx s :
  vector_wf s → vector_val s this = Some (v, L) →
  tval (elems s) x = Some vx → ¬ (d_begin v ≤ x < d_end v) →
  can_grow (St := St) v →
  wp (vector_push_back this (ConstRef x)) s (λ _ s',
    vector_wf s' ∧
    ∃ v' L0 w,
      vector_val s' this = Some (v', L0 ++ [w]) ∧
      (L0 = L ∨ Forall2 (tcopy (St := St)) L L0) ∧
      vec_size v' = vec_size v + 1 ∧
      tcopy (St := St) vx w ∧
      tval (elems s') x = Some vx).
Proof.
  intros Hwf Hval Hx Hout Hgrow. unfold vector_push_back.
  pose proof (live_in_range _ _ TL _ _ _ (proj1 Hwf) Hx) as Hxr.
  apply wp_bind. eapply wp_mono; [by apply (grow_spec this v L s)|].
  intros [] s1 (Hwf1 & Hb1 & Hlim1 & Hframe1 & v' & L0 & Hm1 & Hval1 & Hsz1
                & Hroom1 & HL0).
  pose proof (vector_val_inv _ _ _ _ Hval1) as [Hv1 _].
  apply wp_bind. eapply wp_mono; [by apply (assert_not_full_ok this v' s1)|].
  intros [] s2 ->.
  assert (tval (elems s1) x = Some vx) as Hx1.
  { rewrite Hframe1; [done|lia|done]. }
  eapply wp_mono; [by apply (construct_copy_spec this v' L0 x vx s1)|].
  intros [] s3 (Hwf3 & Hb3 & Hlim3 & Hframe3 & w & Hm3 & Hval3 & Hw).
  split; [done|]. eexists _, L0, w. split_and!; [done| | |done|].
  - destruct HL0 as [[_ ->]|[_ ?]]; [by left|by right].
  - unfold vec_size in *. cbn. lia.
  - rewrite Hframe3; [done|]. intros ->.
    destruct Hwf1 as (HwfE1 & _ & Hobj1 & _).
    destruct (Hobj1 _ _ Hv1) as [_ Hbuf1].
    apply buffer_ok_inv in Hbuf1 as (_ & _ & _ & _ & _ & _ & Hdead);
      [|intros ->; cbn in Hroom1; lia].
    rewrite Hdead in Hx1 by lia. done.
Qed.

Lemma push_back_rvalue_spec this v L r x vx s :
  vector_wf s → vector_val s this = Some (v, L) →
  handle_of r x →
  tval (elems s) x = Some vx → ¬ (d_begin v ≤ x < d_end v) →
  can_grow (St := St) v →
  wp (vector_push_back_rvalue this r) s (λ _ s',
    vector_wf s' ∧
    ∃ v' L0 w u,
      vector_val s' this = Some (v', L0 ++ [w]) ∧
      (L0 = L ∨ Forall2 (tcopy (St := St)) L L0) ∧
      vec_size v' = vec_size v + 1 ∧
      tmove (St := St) vx w u ∧
      tval (elems s') x = Some u).
Proof.
  intros Hwf Hval Hr Hx Hout Hgrow. unfold vector_push_back_rvalue.
  pose proof (live_in_range _ _ TL _ _ _ (proj1 Hwf) Hx) as Hxr.
  apply wp_bind. eapply wp_mono; [by apply (grow_spec this v L s)|].
  intros [] s1 (Hwf1 & Hb1 & Hlim1 & Hframe1 & v' & L0 & Hm1 & Hval1 & Hsz1
                & Hroom1 & HL0).
  pose proof (vector_val_inv _ _ _ _ Hval1) as [Hv1 _].
  apply wp_bind. eapply wp_mono; [by apply (assert_not_full_ok this v' s1)|].
  intros [] s2 ->.
  assert (tval (elems s1) x = Some vx) as Hx1.
  { rewrite Hframe1; [done|lia|done]. }
  apply wp_bind. eapply wp_lift; [apply Hr|].
  assert (¬ (d_begin v' ≤ x < d_end v')) as Hout1.
  { intros Hin. destruct HL0 as [[-> _]|[Hp _]]; [done|lia]. }
  eapply wp_mono; [by apply (construct_move_spec this v' L0 r x vx s1)|].
  intros [] s3 (Hwf3 & Hb3 & Hlim3 & Hframe3 & w & u & Hm3 & Hval3 & Hu & Hw).
  split; [done|]. eexists _, L0, w, u. split_and!; try done.
  - destruct HL0 as [[_ ->]|[_ ?]]; [by left|by right].
  - unfold vec_size in *. cbn. lia.
Qed.

End PushBackSpec.

(** ** [reserve] *)

(** X17: on a well formed store, for a vector [this] of value
    [(v, L)] and an [int n] whose byte count [sizeof(TYPE) * n] is an
    [int], [reserve(n)] returns; afterwards the capacity is at least
    [max(n, old capacity)], the size is unchanged, each element is a copy
    of the element that was at its index (the same value where copies of
    the element type equal their source), and when the old capacity was
    at least [n] the store is unchanged. *)
Theorem reserve_postcondition `{RI : RvalueImpl} {St V : Type}
    (ops : TypeOps St) (TM : TypeModel St V) (s : vstore St) (this n : Z)
    (v : vec) (L : list V) :
  TypeLaws ops TM →
  vector_wf s → vector_val s this = Some (v, L) →
  in_int n → sizeof (St := St) * n ≤ INT_MAX →
  wp (vector_reserve this n) s (λ _ s',
    vector_wf s' ∧
    ∃ v' L',
      vector_val s' this = Some (v', L') ∧
      vector_capacity this s = Ok (vec_capacity v, s) ∧
      vector_capacity this s' = Ok (vec_capacity v', s') ∧
      Z.max n (vec_capacity v) ≤ vec_capacity v' ∧
      vector_size this s = Ok (vec_size v, s) ∧
      vector_size this s' = Ok (vec_size v, s') ∧
      (L' = L ∨ Forall2 (tcopy (St := St)) L L') ∧
      ((∀ x y, tcopy (St := St) x y → y = x) → L' = L) ∧
      (n ≤ vec_capacity v → s' = s)).
Proof.
  intros TL Hwf Hval Hn Hbytes.
  pose proof (vector_val_inv _ _ _ _ Hval) as [Hv HL].
  destruct Hwf as (HwfE & Hpos & Hobj & Hapart).
  destruct (Hobj _ _ Hv) as [_ Hbuf].
  destruct (buffer_ok_int TL _ _ Hbuf) as (Hsz & Hcap & Hszcap & Hcapmax).
  eapply wp_mono.
  { apply (reserve_spec TL this n v L s); [|done..]. by split_and!. }
  intros [] s' (Hwf' & Hb' & Hlim' & v' & L' & Hm & Hsz' & HL' & Hgrow & Hsame).
  assert (vecs s' !! this = Some v') as Hv' by (rewrite Hm; apply lookup_insert_eq).
  destruct Hwf' as (HwfE' & Hpos' & Hobj' & Hapart').
  destruct (Hobj' _ _ Hv') as [_ Hbuf'].
  destruct (buffer_ok_int TL _ _ Hbuf') as (Hsz2 & Hcap2 & Hszcap2 & Hcapmax2).
  split; [by split_and!|]. exists v', L'.
  assert (Z.max n (vec_capacity v) ≤ vec_capacity v' ∧
          (L' = L ∨ Forall2 (tcopy (St := St)) L L')) as [Hmax Hcopies].
  { destruct (Z.lt_ge_cases (vec_capacity v) n) as [Hc|Hc].
    - destruct (Hgrow Hc) as (-> & Hcopies & _). split; [lia|by right].
    - destruct (Hsame Hc) as (_ & -> & ->). split; [lia|by left]. }
  split_and!.
  - apply vector_val_intro; [done|]. by rewrite Hsz'.
  - by rewrite (vector_capacity_eq _ _ _ Hv), Hcap.
  - by rewrite (vector_capacity_eq _ _ _ Hv'), Hcap2.
  - done.
  - by rewrite (vector_size_eq _ _ _ Hv), Hsz.
  - by rewrite (vector_size_eq _ _ _ Hv'), Hsz2, Hsz'.
  - done.
  - intros Heq. destruct Hcopies as [->|Hcopies]; [done|].
    clear -Hcopies Heq. induction Hcopies as [|x y L1 L2 Hxy _ IH]; [done|].
    by rewrite (Heq _ _ Hxy), IH.
  - intros Hc. by destruct (Hsame Hc).
Qed.

Lemma one_int_vector_wf : vector_wf (RI := impl03) one_int_vector.
Proof.
  split_and!; cbn.
  - split; cbn; [lia|]. intros a v [<- <-]%lookup_singleton_Some. lia.
  - lia.
  - intros a v [<- <-]%lookup_singleton_Some. split; [lia|].
    right. cbn. unfold vec_capacity, INT_MAX. cbn. split_and!; try lia.
    + intros i Hi. assert (i = 2) as -> by lia. by eexists.
    + intros i Hi. apply lookup_singleton_ne. lia.
  - intros a a' v v' Hne [<- _]%lookup_singleton_Some
      [<- _]%lookup_singleton_Some. done.
Qed.

Lemma reserve_postcondition_witness :
  wp (vector_reserve (RI := impl03) 1 10) one_int_vector (λ _ s',
    vector_wf (RI := impl03) s' ∧
    ∃ v' L',
      vector_val s' 1 = Some (v', L') ∧
      vector_capacity 1 one_int_vector
        = Ok (vec_capacity (Vec 2 3 6), one_int_vector) ∧
      vector_capacity 1 s' = Ok (vec_capacity v', s') ∧
      Z.max 10 (vec_capacity (Vec 2 3 6)) ≤ vec_capacity v' ∧
      vector_size 1 one_int_vector = Ok (vec_size (Vec 2 3 6), one_int_vector) ∧
      vector_size 1 s' = Ok (vec_size (Vec 2 3 6), s') ∧
      (L' = [7] ∨ Forall2 (tcopy (St := istore)) [7] L') ∧
      ((∀ x y, tcopy (St := istore) x y → y = x) → L' = [7]) ∧
      (10 ≤ vec_capacity (Vec 2 3 6) → s' = one_int_vector)).
Proof.
  apply (reserve_postcondition (RI := impl03) int_ops int_model
           one_int_vector 1 10 (Vec 2 3 6) [7]).
  - apply int_laws.
  - apply one_int_vector_wf.
  - reflexivity.
  - by unfold in_int, INT_MIN, INT_MAX.
  - by vm_compute.
Defined.

(** C5: [moveIfNoexcept(x)] is a [const] reference to [x], whatever the
    element type and the implementation; an object initialized from it is
    copy constructed; [reserve] runs the same whatever the move
    constructor of the element type is, so it never calls it; and when it
    gives a vector a larger buffer, the elements of the new buffer are
    copies of the former elements, made by the copy constructor. *)
Theorem reserve_never_moves (b : branch) {St V : Type}
    (ops : @TypeOps (impl b) St) (TM : TypeModel St V)
    (mv : Z → @Rvalue (impl b) → M St unit) (x p : Z) :
  cref_target (moveIfNoexcept x) = x ∧
  placement_new (RI := impl b) (ops := ops) p (ByConstRef (moveIfNoexcept x))
    = copy_ctor (TypeOps := ops) p (ConstRef x) ∧
  (∀ this n (s : vstore St),
     vector_reserve (ops := with_move_ctor mv ops) this n s
     = vector_reserve (ops := ops) this n s) ∧
  (@TypeLaws (impl b) St V ops TM →
   ∀ this n v (L : list V) (s : vstore St),
     vector_wf (RI := impl b) s → vector_val s this = Some (v, L) →
     in_int n → @sizeof (impl b) St ops * n ≤ INT_MAX → vec_capacity v < n →
     wp (vector_reserve (ops := with_move_ctor mv ops) this n) s (λ _ s',
       ∃ v' L',
         vector_val s' this = Some (v', L') ∧
         vec_capacity v' = n ∧ vec_size v' = vec_size v ∧
         tlimit (elems s) ≤ d_begin v' ∧
         Forall2 (tcopy (St := St)) L L')).
Proof.
  split_and!; [reflexivity..|].
  intros TL this n v L s Hwf Hval Hn Hbytes Hgrow.
  destruct (vector_val_inv _ _ _ _ Hval) as [Hv HL].
  change (vector_reserve (ops := with_move_ctor mv ops) this n)
    with (vector_reserve (ops := ops) this n).
  eapply wp_mono; [by apply (reserve_spec TL this n v L s)|].
  intros [] s' (Hwf' & Hb' & Hlim' & v' & L' & Hm & Hsz' & HL' & Hg & _).
  destruct (Hg Hgrow) as (Hcap' & Hcopies & Hp & _).
  exists v', L'. split_and!; try done.
  apply vector_val_intro; [rewrite Hm; apply lookup_insert_eq|].
  by rewrite Hsz'.
Qed.

Lemma reserve_never_moves_witness :
  wp (vector_reserve (RI := impl03)
        (ops := with_move_ctor (λ _ _, fail Undefined) int_ops) 1 10)
     one_int_vector (λ _ s',
    ∃ v' L',
      vector_val s' 1 = Some (v', L') ∧
      vec_capacity v' = 10 ∧ vec_size v' = vec_size (Vec 2 3 6) ∧
      tlimit (elems one_int_vector) ≤ d_begin v' ∧
      Forall2 (tcopy (St := istore)) [7] L').
Proof.
  apply (proj2 (proj2 (proj2
           (reserve_never_moves Cxx03 int_ops int_model
              (λ _ _, fail Undefined) 0 0)))
           (int_laws (RI := impl03)) 1 10 (Vec 2 3 6) [7] one_int_vector).
  - apply one_int_vector_wf.
  - reflexivity.
  - by unfold in_int, INT_MIN, INT_MAX.
  - by vm_compute.
  - by vm_compute.
Defined.

(** C10: [reserve] computes the byte count as
    [int(sizeof(TYPE) * newCapacity)].  For an empty [vector<int>] and
    [n = 2^29] the count [4 * n = 2^31] is narrowed to a negative [int]
    and [operator new] throws: the vector does not get the capacity asked
    for.  For [n = 2^30 + 1] the count is narrowed to 4: [reserve] returns
    with [capacity() = n] over a block of one slot. *)
Lemma reserve_too_large :
  vector_wf (RI := impl03) empty_int_vector ∧
  vector_val empty_int_vector 1 = Some (null_vec, []) ∧
  in_int 536870912 ∧
  to_int (4 * 536870912) = -2147483648 ∧
  outcome (vector_reserve (RI := impl03) 1 536870912) empty_int_vector
    = Fail BadAlloc ∧
  in_int 1073741825 ∧
  to_int (4 * 1073741825) = 4 ∧
  let s' := exec (vector_reserve (RI := impl03) 1 1073741825)
                 empty_int_vector in
  vecs s' !! 1 = Some (Vec 1 1 1073741826) ∧
  ibrk (elems empty_int_vector) = 1 ∧ ibrk (elems s') = 2.
Proof.
  split; [|split_and!; by vm_compute].
  split_and!; cbn.
  - split; cbn; [lia|]. by intros a v.
  - lia.
  - intros a v [<- <-]%lookup_singleton_Some. split; [lia|by left].
  - intros a a' v v' Hne [<- _]%lookup_singleton_Some
      [<- _]%lookup_singleton_Some. done.
Qed.

(** ** The two [push_back] overloads on a vector of vectors *)

(** The size that [size()] returns for a vector of a well formed store. *)
Lemma wf_vector_size `{RI : RvalueImpl} {St V : Type} {ops : TypeOps St}
    {TM : TypeModel St V} (TL : TypeLaws ops TM) (s : vstore St) this v L :
  vector_wf s → vector_val s this = Some (v, L) →
  vector_size this s = Ok (vec_size v, s).
Proof.
  intros (_ & _ & Hobj & _) Hval.
  destruct (vector_val_inv _ _ _ _ Hval) as [Hv _].
  destruct (Hobj _ _ Hv) as [_ Hbuf].
  destruct (buffer_ok_int TL _ _ Hbuf) as (Hsz & _).
  by rewrite (vector_size_eq _ _ _ Hv), Hsz.
Qed.

(** X18: [v] is a [vector<vector<U> >] of value [(v, L)] in a
    well formed store, [e] a [vector<U>] of value [(ve, Le)] at [x] that
    is not one of [v]'s own elements, and [v] has room or can grow.  Then
    [v.push_back(e)] returns, appends a copy of [e] (copies of [e]'s
    elements, in a buffer that shares no slot with [e]'s and begins
    elsewhere when [e] has elements, and no buffer when [e] has none) and
    leaves [e] as it was; [move(e)] returns a handle with which
    [v.push_back] returns, appends an element with [e]'s former pointers
    and elements, and leaves [e] empty.  Either call makes [size()] one
    larger. *)
Theorem push_back_copy_vs_move (b : branch) {St V : Type}
    (ops : @TypeOps (impl b) St) (TM : TypeModel St V)
    (s : vstore (vstore St)) (this x : Z)
    (v : vec) (L : list (vec * list V)) (ve : vec) (Le : list V) :
  @TypeLaws (impl b) St V ops TM →
  vector_wf (RI := impl b) s →
  vector_val (TM := vector_model (RI := impl b)) s this = Some (v, L) →
  vector_val (elems s) x = Some (ve, Le) →
  ¬ (d_begin v ≤ x < d_end v) →
  can_grow (RI := impl b) (St := vstore St) v →
  wp (vector_push_back (RI := impl b) this (ConstRef x)) s (λ _ s',
    vector_wf (RI := impl b) s' ∧
    ∃ v' L0 w Lw,
      vector_val (TM := vector_model (RI := impl b)) s' this = Some (v', L0 ++ [(w, Lw)]) ∧
      (L0 = L ∨ Forall2 (vector_copy_rel (St := St)) L L0) ∧
      vector_size this s = Ok (vec_size v, s) ∧
      vector_size this s' = Ok (vec_size v + 1, s') ∧
      vector_val (elems s') x = Some (ve, Le) ∧
      Forall2 (tcopy (St := St)) Le Lw ∧
      (Le = [] → w = null_vec) ∧
      (Le ≠ [] → d_begin w ≠ 0 ∧ d_begin w ≠ d_begin ve ∧ apart ve w)) ∧
  ∃ r : @Rvalue (impl b),
    @move (impl b) x = Ok r ∧
    wp (vector_push_back_rvalue (RI := impl b) this r) s (λ _ s',
      vector_wf (RI := impl b) s' ∧
      ∃ v' L0,
        vector_val (TM := vector_model (RI := impl b)) s' this = Some (v', L0 ++ [(ve, Le)]) ∧
        (L0 = L ∨ Forall2 (vector_copy_rel (St := St)) L L0) ∧
        vector_size this s = Ok (vec_size v, s) ∧
        vector_size this s' = Ok (vec_size v + 1, s') ∧
        vector_val (elems s') x = Some (null_vec, [])).
Proof.
  intros TL Hwf Hval Hx Hnot Hgrow.
  pose proof (vector_laws TL) as TLv.
  pose proof (wf_vector_size TLv s this v L Hwf Hval) as Hsize.
  assert (x ≠ 0) as Hx0.
  { destruct Hwf as ((_ & _ & HobjE & _) & _).
    destruct (vector_val_inv _ _ _ _ Hx) as [Hxv _].
    destruct (HobjE _ _ Hxv) as [? _]. lia. }
  split.
  - eapply wp_mono.
    { by apply (push_back_spec TLv this v L x (ve, Le) s). }
    intros [] s' (Hwf' & v' & L0 & [w Lw] & Hval' & HL0 & Hsz' & Hcopy & Hx').
    split; [done|]. exists v', L0, w, Lw.
    pose proof (wf_vector_size TLv s' this v' _ Hwf' Hval') as Hsize'.
    rewrite Hsz' in Hsize'.
    destruct Hcopy as (Hels & Hnil & Hcons). by split_and!.
  - destruct (move_handle b x Hx0) as (r & Hmove & Hr).
    exists r. split; [done|].
    eapply wp_mono.
    { by apply (push_back_rvalue_spec TLv this v L r x (ve, Le) s). }
    intros [] s' (Hwf' & v' & L0 & w & u & Hval' & HL0 & Hsz' & Hmv & Hx').
    split; [done|]. exists v', L0.
    pose proof (wf_vector_size TLv s' this v' _ Hwf' Hval') as Hsize'.
    rewrite Hsz' in Hsize'.
    destruct Hmv as [-> ->]. by split_and!.
Qed.

Lemma nested_store_wf :
  vector_wf (RI := impl03) (TM := vector_model (RI := impl03)) nested_store.
Proof.
  split_and!; cbn.
  - apply one_int_vector_wf.
  - lia.
  - intros a v [<- <-]%lookup_singleton_Some. split; [lia|by left].
  - intros a a' v v' Hne [<- _]%lookup_singleton_Some
      [<- _]%lookup_singleton_Some. done.
Qed.

Lemma push_back_copy_vs_move_witness :
  wp (vector_push_back (RI := impl03) 1 (ConstRef 1)) nested_store (λ _ s',
    vector_wf (RI := impl03) (TM := vector_model (RI := impl03)) s' ∧
    ∃ v' L0 w Lw,
      vector_val (TM := vector_model (RI := impl03)) s' 1 = Some (v', L0 ++ [(w, Lw)]) ∧
      (L0 = [] ∨ Forall2 (vector_copy_rel (St := istore)) [] L0) ∧
      vector_size 1 nested_store = Ok (vec_size null_vec, nested_store) ∧
      vector_size 1 s' = Ok (vec_size null_vec + 1, s') ∧
      vector_val (elems s') 1 = Some (Vec 2 3 6, [7]) ∧
      Forall2 (tcopy (St := istore)) [7] Lw ∧
      ([7] = [] → w = null_vec) ∧
      ([7] ≠ [] → d_begin w ≠ 0 ∧ d_begin w ≠ d_begin (Vec 2 3 6) ∧
                  apart (Vec 2 3 6) w)) ∧
  ∃ r : @Rvalue impl03,
    @move impl03 1 = Ok r ∧
    wp (vector_push_back_rvalue (RI := impl03) 1 r) nested_store (λ _ s',
      vector_wf (RI := impl03) (TM := vector_model (RI := impl03)) s' ∧
      ∃ v' L0,
        vector_val (TM := vector_model (RI := impl03)) s' 1 = Some (v', L0 ++ [(Vec 2 3 6, [7])]) ∧
        (L0 = [] ∨ Forall2 (vector_copy_rel (St := istore)) [] L0) ∧
        vector_size 1 nested_store = Ok (vec_size null_vec, nested_store) ∧
        vector_size 1 s' = Ok (vec_size null_vec + 1, s') ∧
        vector_val (elems s') 1 = Some (null_vec, [])).
Proof.
  apply (push_back_copy_vs_move Cxx03 int_ops int_model nested_store 1 1
           null_vec [] (Vec 2 3 6) [7]).
  - apply (int_laws (RI := impl03)).
  - apply nested_store_wf.
  - reflexivity.
  - reflexivity.
  - cbn. lia.
  - intros _. split; [by vm_compute|]. by vm_compute.
Defined.

(** C4: [push_back(const TYPE&)] is documented to append a copy of the
    value it is given.  For a [vector<vector<int> > v] of four elements
    in a buffer of four slots, [v.push_back(v[0])] does not: [reserve]
    first destroys the old elements, [v[0]] among them, and [push_back]
    then copy constructs from the destroyed object. *)
Lemma push_back_own_element :
  let s := exec four_elements empty_nested_store in
  outcome four_elements empty_nested_store = Ok 3 ∧
  vecs s !! 1 = Some (Vec 3 7 7) ∧
  vector_size 1 s = Ok (4, s) ∧
  vector_capacity 1 s = Ok (4, s) ∧
  vector_at 1 0 s = Ok (3, s) ∧
  vector_val (elems s) 3 = Some (Vec 6 7 10, [7]) ∧
  outcome (vector_push_back (RI := impl03) 1 (ConstRef 3)) s = Fail Undefined.
Proof. cbv zeta. split_and!; by vm_compute. Qed.

(** * Further properties of the component and of the example vector *)

Lemma wp_and {St A} (m : M St A) s (Q Q' : A → St → Prop) :
  wp m s Q → wp m s Q' → wp m s (λ a s', Q a s' ∧ Q' a s').
Proof.
  intros (a & s' & Hm & HQ) (a' & s'' & Hm' & HQ').
  rewrite Hm in Hm'. injection Hm' as <- <-. by exists a, s'.
Qed.

(** ** [move] of a null reference *)

(** X1: the C++03 [move] fails the assertion of the [Rvalue] constructor
    exactly when the address it is given is null, and otherwise returns
    the handle that holds the address; the C++11 [move] is a cast and
    returns for every address. *)
Theorem move_null_reference (x : Z) :
  (Cpp03.move x = Fail AssertionFailed ↔ x = 0) ∧
  (Cpp03.move x = Ok (Cpp03.MkRvalue x) ↔ x ≠ 0) ∧
  Cpp11.move x = Ok x.
Proof.
  unfold Cpp03.move, Cpp03.Rvalue_ctor, address_of, BSLS_ASSERT, rbind.
  destruct x; cbn; split_and!; try done; split; (done || lia).
Qed.

(** ** [swap] *)

(** X2: [a.swap(b)] returns for any two vectors, the same one included;
    afterwards each holds the three pointers the other held, and no other
    vector and no element has been touched. *)
Theorem swap_exchanges {St : Type} (this other : Z) (v w : vec)
    (s : vstore St) :
  vecs s !! this = Some v → vecs s !! other = Some w →
  wp (vector_swap this other) s (λ _ s',
    vecs s' !! this = Some w ∧ vecs s' !! other = Some v ∧
    (∀ a, a ≠ this → a ≠ other → vecs s' !! a = vecs s !! a) ∧
    vbrk s' = vbrk s ∧ elems s' = elems s).
Proof.
  intros Hv Hw. destruct (decide (this = other)) as [<-|Hne].
  - assert (w = v) as -> by congruence.
    unfold vector_swap, swap_ptr. cbn [fst snd]. repeat wp_step.
    destruct v. cbn. split_and!; try done.
    + apply lookup_insert_eq.
    + apply lookup_insert_eq.
    + intros a Ha _. by rewrite !lookup_insert_ne.
  - eapply wp_mono; [by apply (swap_spec this other v w s)|].
    intros [] s' ->. cbn. split_and!; try done.
    + rewrite lookup_insert_ne by done. apply lookup_insert_eq.
    + apply lookup_insert_eq.
    + intros a Ha Hb. by rewrite !lookup_insert_ne.
Qed.

Lemma swap_exchanges_witness :
  wp (vector_swap 1 2) two_int_vectors (λ _ s',
    vecs s' !! 1 = Some null_vec ∧ vecs s' !! 2 = Some (Vec 1 3 5) ∧
    (∀ a, a ≠ 1 → a ≠ 2 → vecs s' !! a = vecs two_int_vectors !! a) ∧
    vbrk s' = vbrk two_int_vectors ∧ elems s' = elems two_int_vectors).
Proof.
  apply (swap_exchanges 1 2 (Vec 1 3 5) null_vec two_int_vectors);
    reflexivity.
Defined.

(** X3: swapping the same two vectors twice gives back the store the
    first call found. *)
Theorem swap_twice {St : Type} (this other : Z) (v w : vec) (s : vstore St) :
  vecs s !! this = Some v → vecs s !! other = Some w →
  wp (vector_swap this other ;; vector_swap this other) s (λ _ s', s' = s).
Proof.
  intros Hv Hw. apply wp_bind.
  eapply wp_mono; [by apply (swap_exchanges this other v w s)|].
  intros [] s1 (Hv1 & Hw1 & Hrest1 & Hb1 & He1).
  eapply wp_mono; [by apply (swap_exchanges this other w v s1)|].
  intros [] s2 (Hv2 & Hw2 & Hrest2 & Hb2 & He2).
  destruct s as [m b E], s2 as [m2 b2 E2]. cbn in *. f_equal; [|congruence..].
  apply map_eq. intros a.
  destruct (decide (a = this)) as [->|Ha]; [congruence|].
  destruct (decide (a = other)) as [->|Hb]; [congruence|].
  rewrite Hrest2, Hrest1 by done. done.
Qed.

Lemma swap_twice_witness :
  wp (vector_swap 1 2 ;; vector_swap 1 2) two_int_vectors
     (λ _ s', s' = two_int_vectors).
Proof.
  apply (swap_twice 1 2 (Vec 1 3 5) null_vec two_int_vectors); reflexivity.
Defined.

(** ** Destroying a vector that has been moved from *)

(** X4: after [vector<TYPE> v2(move(v0));] the destructor of [v0] finds
    no buffer: it destroys no element and releases nothing, and [v2]
    keeps the three pointers that [v0] had. *)
Theorem moved_from_dtor `{RI : RvalueImpl} {St : Type} `{ops : !TypeOps St}
    (r : Rvalue) (src : Z) (v : vec) (s : vstore St) :
  handle_of r src → vecs s !! src = Some v → src < vbrk s →
  wp (dst <- new_moved r ;; vector_dtor src ;; ret dst) s (λ dst s',
    dst = vbrk s ∧ vecs s' !! dst = Some v ∧ vecs s' !! src = None ∧
    (∀ a, a ≠ dst → a ≠ src → vecs s' !! a = vecs s !! a) ∧
    elems s' = elems s).
Proof.
  intros Hr Hv Hlt. unfold new_moved.
  do 3 wp_step. apply wp_bind.
  eapply wp_mono.
  { apply (move_ctor_spec (vbrk s) r src v); [done| |lia].
    cbn. exact Hv. }
  intros [] s1 ->. cbn [vecs vbrk elems].
  wp_step. wp_step. unfold vector_dtor. repeat wp_step.
  cbn [null_vec d_begin negb Z.eqb]. repeat wp_step.
  split_and!; try done.
  - rewrite lookup_delete_ne by lia. rewrite lookup_insert_ne by lia.
    apply lookup_insert_eq.
  - apply lookup_delete_eq.
  - intros a Ha Hb. rewrite lookup_delete_ne by done.
    by rewrite !lookup_insert_ne.
Qed.

Lemma moved_from_dtor_witness :
  wp (dst <- new_moved (RI := impl03) (Cpp03.MkRvalue 1) ;;
      vector_dtor (RI := impl03) 1 ;; ret dst) one_int_vector (λ dst s',
    dst = vbrk one_int_vector ∧ vecs s' !! dst = Some (Vec 2 3 6) ∧
    vecs s' !! 1 = None ∧
    (∀ a, a ≠ dst → a ≠ 1 → vecs s' !! a = vecs one_int_vector !! a) ∧
    elems s' = elems one_int_vector).
Proof.
  apply (moved_from_dtor (RI := impl03) (Cpp03.MkRvalue 1) 1 (Vec 2 3 6)
           one_int_vector).
  - by repeat split.
  - reflexivity.
  - by vm_compute.
Defined.

(** ** [push_back] on a full vector of one element *)

(** X5: when a vector holds one element in a buffer of one slot, either
    [push_back] asks [reserve] for [int(1.5 * 1) = 1] slots, which
    changes nothing, and then fails its assertion; this is so for every
    element type and every argument. *)
Theorem push_back_full_at_size_1 `{RI : RvalueImpl} {St : Type}
    `{ops : !TypeOps St} (this : Z) (v : vec) (s : vstore St)
    (value : const_ref) (r : Rvalue) :
  vecs s !! this = Some v → d_end v = d_endBuffer v → vec_size v = 1 →
  vector_push_back this value s = Fail AssertionFailed ∧
  vector_push_back_rvalue this r s = Fail AssertionFailed.
Proof.
  intros Hv Hfull Hsz. destruct v as [b e eb].
  unfold vec_size in Hsz. cbn in Hfull, Hsz. subst eb.
  assert (grow_if_full this s = Ok (tt, s)) as Hgrow.
  { assert (wp (grow_if_full this) s (λ _ s', s' = s)) as ([] & ? & Hrun & ->);
      [|done].
    unfold grow_if_full, vector_size. repeat wp_step.
    rewrite Z.eqb_refl. repeat wp_step. rewrite Hsz.
    change (to_int 1) with 1. cbn [negb Z.eqb].
    eapply wp_lift; [reflexivity|].
    unfold vector_reserve, vector_capacity. repeat wp_step.
    rewrite Hsz. change (to_int 1 <? 3 * 1 ÷ 2) with false. cbn iota.
    by wp_step. }
  assert (assert_not_full this s = Fail AssertionFailed) as Hassert.
  { unfold assert_not_full, bind, get, lift. rewrite Hv.
    cbn [get_field d_begin d_end d_endBuffer]. rewrite Hv.
    cbn [get_field d_begin d_end d_endBuffer]. by rewrite Z.eqb_refl. }
  unfold vector_push_back, vector_push_back_rvalue, bind.
  by rewrite Hgrow, Hassert.
Qed.

Lemma push_back_full_at_size_1_witness :
  vector_push_back (RI := impl03) 1 (ConstRef 1) full_one_int_vector
    = Fail AssertionFailed ∧
  vector_push_back_rvalue (RI := impl03) 1 (Cpp03.MkRvalue 1)
    full_one_int_vector = Fail AssertionFailed.
Proof.
  apply (push_back_full_at_size_1 (RI := impl03) 1 (Vec 1 2 2));
    reflexivity.
Defined.

(** ** The accessors *)

Section Accessors.
Context `{RI : RvalueImpl} {St V : Type} `{ops : !TypeOps St}
  `{TM : !TypeModel St V}.
Hypothesis TL : TypeLaws ops TM.
Implicit Types s : vstore St.

Lemma tvals_lookup (E : St) (n : nat) : ∀ p (L : list V),
  tvals E p n = Some L →
  ∀ (k : nat) x, L !! k = Some x → tval E (p + Z.of_nat k) = Some x.
Proof.
  induction n as [|n IH]; intros p L; cbn.
  - by intros [= <-] k x.
  - destruct (tval E p) as [v|] eqn:Hp; [|done].
    destruct (tvals E (p + 1) n) as [L'|] eqn:HL; [|done].
    intros [= <-] [|k] x; cbn.
    + intros [= <-]. by rewrite Z.add_0_r.
    + intros Hk. rewrite <- (IH _ _ HL k x Hk). f_equal. lia.
Qed.

(** X6: on a well formed store, for a vector of value [(v, L)]:
    [size()] is the number of its elements, [end()] is [begin()] plus
    that number, [empty()] tells whether there is none, and [capacity()]
    is an [int] not below [size()]; none of them changes the store. *)
Theorem accessors_agree a v (L : list V) s :
  vector_wf s → vector_val s a = Some (v, L) →
  vector_begin a s = Ok (d_begin v, s) ∧
  vector_end a s = Ok (d_begin v + Z.of_nat (length L), s) ∧
  vector_size a s = Ok (Z.of_nat (length L), s) ∧
  vector_empty a s = Ok (Nat.eqb (length L) 0, s) ∧
  vector_capacity a s = Ok (vec_capacity v, s) ∧
  Z.of_nat (length L) ≤ vec_capacity v ≤ INT_MAX.
Proof.
  intros Hwf Hval.
  destruct (vector_val_inv _ _ _ _ Hval) as [Hv HL].
  destruct Hwf as (HwfE & Hpos & Hobj & Hapart).
  destruct (Hobj _ _ Hv) as [_ Hbuf].
  destruct (buffer_ok_int TL _ _ Hbuf) as (Hsz & Hcap & Hszcap & Hcapmax).
  apply tvals_length in HL.
  assert (Z.of_nat (length L) = vec_size v) as Hlen by lia.
  rewrite Hlen. split_and!; [| | | | |lia..].
  - apply vector_begin_eq, Hv.
  - unfold vector_end, get. rewrite Hv. cbn. do 2 f_equal.
    unfold vec_size. lia.
  - by rewrite (vector_size_eq _ _ _ Hv), Hsz.
  - rewrite (vector_empty_eq _ _ _ Hv). do 2 f_equal.
    unfold vec_size in *.
    destruct (Z.eqb_spec (d_begin v) (d_end v)) as [Heq|Hne].
    + symmetry. apply Nat.eqb_eq. lia.
    + symmetry. apply Nat.eqb_neq. lia.
  - by rewrite (vector_capacity_eq _ _ _ Hv), Hcap.
Qed.

(** X7: [v[i]] with [i] the position of an element refers to that
    element; there is no bounds check, and with [size() <= i <
    capacity()] it refers to a slot of the buffer that holds no object.
    Neither changes the store. *)
Theorem index_refers_to_element a v (L : list V) s :
  vector_wf s → vector_val s a = Some (v, L) →
  (∀ (i : nat) x, L !! i = Some x →
     wp (vector_at a (Z.of_nat i)) s (λ p s',
       s' = s ∧ tval (elems s) p = Some x)) ∧
  (∀ i, Z.of_nat (length L) ≤ i < vec_capacity v →
     wp (vector_at a i) s (λ p s', s' = s ∧ tval (elems s) p = None)).
Proof.
  intros Hwf Hval.
  destruct (vector_val_inv _ _ _ _ Hval) as [Hv HL].
  destruct Hwf as (HwfE & Hpos & Hobj & Hapart).
  destruct (Hobj _ _ Hv) as [_ Hbuf].
  destruct (buffer_ok_int TL _ _ Hbuf) as (Hsz & Hcap & Hszcap & Hcapmax).
  split.
  - intros i x Hi. unfold vector_at. repeat wp_step.
    split; [done|]. by apply (tvals_lookup _ _ _ _ HL).
  - intros i Hi. unfold vector_at. repeat wp_step. split; [done|].
    apply tvals_length in HL.
    apply buffer_ok_inv in Hbuf as (_ & _ & _ & _ & _ & _ & Hdead).
    + apply Hdead. unfold vec_size, vec_capacity in *. lia.
    + intros ->. unfold vec_capacity in Hi. cbn in Hi. lia.
Qed.

End Accessors.

Lemma accessors_agree_witness :
  vector_begin 1 one_int_vector = Ok (d_begin (Vec 2 3 6), one_int_vector) ∧
  vector_end 1 one_int_vector
    = Ok (d_begin (Vec 2 3 6) + Z.of_nat (length [7]), one_int_vector) ∧
  vector_size 1 one_int_vector = Ok (Z.of_nat (length [7]), one_int_vector) ∧
  vector_empty 1 one_int_vector
    = Ok (Nat.eqb (length [7]) 0, one_int_vector) ∧
  vector_capacity 1 one_int_vector
    = Ok (vec_capacity (Vec 2 3 6), one_int_vector) ∧
  Z.of_nat (length [7]) ≤ vec_capacity (Vec 2 3 6) ≤ INT_MAX.
Proof.
  apply (accessors_agree (RI := impl03) int_laws 1 (Vec 2 3 6) [7]
           one_int_vector).
  - apply one_int_vector_wf.
  - reflexivity.
Defined.

Lemma index_refers_to_element_witness :
  (∀ (i : nat) x, [7] !! i = Some x →
     wp (vector_at 1 (Z.of_nat i)) one_int_vector (λ p s',
       s' = one_int_vector ∧ tval (elems one_int_vector) p = Some x)) ∧
  (∀ i, Z.of_nat (length [7]) ≤ i < vec_capacity (Vec 2 3 6) →
     wp (vector_at 1 i) one_int_vector (λ p s',
       s' = one_int_vector ∧ tval (elems one_int_vector) p = None)).
Proof.
  apply (index_refers_to_element (RI := impl03) int_laws 1 (Vec 2 3 6) [7]
           one_int_vector).
  - apply one_int_vector_wf.
  - reflexivity.
Defined.

(** ** Capacities, read off the pointers alone *)

Section Capacities.
Context `{RI : RvalueImpl} {St : Type} `{ops : !TypeOps St}.
Implicit Types s : vstore St.

(** The capacity the copy constructor leaves: none for an empty source,
    and otherwise what it asks [reserve] for. *)
Lemma copy_ctor_capacity this other v s :
  shape_inv s → this < vbrk s → vecs s !! other = Some v → other ≠ this →
  wlp (vector_copy_ctor this (ConstRef other)) s (λ _ s',
    ∃ v', vecs s' !! this = Some v' ∧
      vec_capacity v' =
        if d_begin v =? d_end v then 0
        else if 4 <? to_int (vec_size v) then to_int (vec_size v) else 4).
Proof.
  intros Hinv Hlt Hv Hne. unfold vector_copy_ctor. cbn [cref_target].
  do 2 wlp_step.
  set (s1 := VStore (<[this:=Vec 0 0 0]> (vecs s)) (vbrk s) (elems s)).
  assert (shape_inv s1) as Hinv1.
  { intros a w. subst s1. cbn [vecs vbrk]. rewrite lookup_insert.
    case_decide as Ha.
    - intros [= <-]. subst a. split; [done|apply vec_ok_null].
    - apply Hinv. }
  unfold vector_empty, vector_size, vector_capacity.
  destruct v as [b e eb]. cbn [d_begin d_end d_endBuffer].
  subst s1. repeat wlp_step.
  destruct (Z.eqb_spec b e) as [Hbe|Hbe]; cbn [negb].
  { wlp_step. exists null_vec. split; [apply lookup_insert_eq|done]. }
  repeat wlp_step. unfold vec_size. cbn [d_begin d_end].
  remember (if 4 <? to_int (e - b) then to_int (e - b) else 4) as n eqn:Hn.
  assert (in_int n ∧ 4 ≤ n) as [Hn1 Hn2].
  { pose proof (to_int_range (e - b)) as Hr. subst n.
    unfold in_int, INT_MIN, INT_MAX in *.
    destruct (Z.ltb_spec 4 (to_int (e - b))); lia. }
  clear Hn.
  eapply wlp_mono.
  { apply (reserve_shape this n null_vec
             (VStore (<[this:=Vec 0 0 0]> (vecs s)) (vbrk s) (elems s)));
      [exact Hinv1|apply lookup_insert_eq|done]. }
  intros [] s2 (v' & Hm & Hb2 & Hok' & Hsz' & Hgrow & _).
  cbn [vecs vbrk] in Hm, Hb2.
  destruct s2 as [m2 b2 e2]. cbn [vecs] in Hm. subst m2.
  rewrite insert_insert_eq.
  specialize (Hgrow ltac:(unfold vec_capacity; cbn; lia)).
  repeat wlp_step.
  unfold for_range. destruct (Z.leb_spec b e); [|apply wlp_fail].
  apply (wlp_for_each (λ i s1,
    vecs s1 = <[this := Vec (d_begin v') (d_end v' + Z.of_nat i) (d_endBuffer v')]>
                (vecs s) ∧
    vbrk s1 = b2)).
  - split; [|done]. cbn [vecs]. f_equal.
    destruct v'. cbn. f_equal. lia.
  - intros i s1 Hi HI. open_store s1 HI.
    repeat wlp_step. split; [|done].
    rewrite insert_insert_eq. do 2 f_equal. lia.
  - intros s1 HI. open_store s1 HI. cbn [vecs].
    eexists. split; [apply lookup_insert_eq|].
    unfold vec_capacity in *. cbn. done.
Qed.

(** The capacity the growth step of [push_back] leaves on a full
    vector, when [reserve] returns. *)
Lemma grow_capacity this v s :
  shape_inv s → vecs s !! this = Some v → d_end v = d_endBuffer v →
  wlp (grow_if_full this) s (λ _ s',
    ∃ v', vecs s' !! this = Some v' ∧
      ∀ n, (n = if to_int (vec_size v) =? 0 then 4
                else 3 * to_int (vec_size v) ÷ 2) →
           vec_capacity v < n → vec_capacity v' = n).
Proof.
  intros Hinv Hv Hfull. unfold grow_if_full, vector_size.
  destruct v as [b e eb]. cbn [d_begin d_end d_endBuffer] in *. subst eb.
  repeat wlp_step. rewrite Z.eqb_refl. repeat wlp_step.
  unfold vec_size. cbn [d_begin d_end].
  assert (∀ n, in_int n →
    wlp (vector_reserve this n) s (λ _ s',
      ∃ v', vecs s' !! this = Some v' ∧
        (vec_capacity (Vec b e e) < n → vec_capacity v' = n))) as Hreserve.
  { intros n Hn. eapply wlp_mono; [by apply (reserve_shape this n (Vec b e e) s)|].
    intros [] s' (v' & Hm & _ & _ & _ & Hgrow & _).
    exists v'. split; [rewrite Hm; apply lookup_insert_eq|done]. }
  destruct (Z.eqb_spec (to_int (e - b)) 0) as [H0|H0]; cbn [negb].
  - wlp_step. eapply wlp_mono.
    { apply (Hreserve 4). by unfold in_int, INT_MIN, INT_MAX. }
    intros [] s' (v' & Hv' & Hcap). exists v'. split; [done|].
    by intros n ->.
  - apply wlp_lift. intros q Hq. store_simpl.
    unfold int_of_1_5_times in Hq.
    destruct (Z.leb_spec INT_MIN (3 * to_int (e - b) ÷ 2)); [|done].
    destruct (Z.leb_spec (3 * to_int (e - b) ÷ 2) INT_MAX); [|done].
    cbn in Hq. injection Hq as <-.
    eapply wlp_mono; [by apply Hreserve|].
    intros [] s' (v' & Hv' & Hcap). exists v'. split; [done|].
    by intros n ->.
Qed.

End Capacities.

(** ** Destruction, copy and assignment *)

Section VectorProps.
Context `{RI : RvalueImpl} {St V : Type} `{ops : !TypeOps St}
  `{TM : !TypeModel St V}.
Hypothesis TL : TypeLaws ops TM.
Implicit Types s : vstore St.

Lemma wf_fresh s : vector_wf s → vecs s !! vbrk s = None.
Proof.
  intros (_ & _ & Hobj & _). destruct (vecs s !! vbrk s) eqn:H; [|done].
  destruct (Hobj _ _ H) as [? _]. lia.
Qed.

Lemma wf_shape_inv s : vector_wf s → shape_inv s.
Proof.
  intros (HwfE & _ & Hobj & _) a v Hv. destruct (Hobj _ _ Hv) as [? Hbuf].
  split; [lia|].
  pose proof (buffer_ok_shape TL _ _ HwfE Hbuf).
  destruct (buffer_ok_int TL _ _ Hbuf) as (_ & _ & _ & ?).
  split; [lia|done].
Qed.

(** The elements of a vector lie in its buffer, away from the buffer of
    any other vector. *)
Lemma elems_apart s a a' v v' i :
  vector_wf s → a ≠ a' → vecs s !! a = Some v → vecs s !! a' = Some v' →
  d_begin v ≤ i < d_end v → ¬ (d_begin v' ≤ i < d_endBuffer v').
Proof.
  intros (HwfE & _ & Hobj & Hapart) Hne Hv Hv' Hi Hi'.
  destruct (Hobj _ _ Hv) as [_ Hbuf].
  pose proof (buffer_ok_shape TL _ _ HwfE Hbuf).
  apply (apart_disjoint v v' i); [by eapply Hapart|lia|done].
Qed.

(** The whole buffer of a destroyed vector is left without objects. *)
Lemma dtor_dead a v s :
  vector_wf s → vecs s !! a = Some v →
  wp (vector_dtor a) s (λ _ s',
    ∀ i, d_begin v ≤ i < d_endBuffer v → tval (elems s') i = None).
Proof.
  intros Hwf Hv. unfold vector_dtor.
  pose proof Hwf as (HwfE & Hpos & Hobj & Hapart).
  destruct (Hobj _ _ Hv) as [Hrange Hbuf].
  repeat wp_step.
  destruct (Z.eqb_spec (d_begin v) 0) as [H0|H0]; cbn [negb].
  - repeat wp_step. intros i Hi.
    destruct Hbuf as [->|Hbuf]; [cbn in Hi; lia|lia].
  - apply buffer_ok_inv in Hbuf as (Hb1 & Hb2 & Hb3 & Hb4 & Hb5 & Hlive & Hdead);
      [|by intros ->].
    destruct v as [b e eb]. cbn [d_begin d_end d_endBuffer] in *.
    repeat wp_step.
    apply wp_check; [apply Z.leb_le; lia|]. wp_step.
    eapply wp_mono.
    { apply (destroy_loop_spec TL a b eb _ s e); [done..|lia]. }
    intros [] s1 (Hwf1 & Hm1 & Hb1' & Hlim1 & Hframe1).
    assert (∀ i, b ≤ i < eb → tval (elems s1) i = None) as Hgone.
    { destruct Hwf1 as (_ & _ & Hobj1 & _).
      destruct (Hobj1 a (Vec b (e - Z.of_nat (Z.to_nat (e - b))) eb)) as [_ Hbuf1].
      { rewrite Hm1. apply lookup_insert_eq. }
      apply buffer_ok_inv in Hbuf1 as (_ & _ & _ & _ & _ & _ & Hdead1);
        [|intros [= -> _ _]; lia].
      intros i Hi. apply Hdead1. cbn. lia. }
    destruct s1 as [m1 b1 E1]. cbn [vecs vbrk elems] in *. subst m1 b1.
    repeat wp_step.
    wp_elems (delete_ok _ _ TL E1 b); [by destruct Hwf1|].
    intros [] E2 (HwfE2 & Hlim2 & Hframe2).
    wp_step. intros i Hi. rewrite Hframe2. by apply Hgone.
Qed.

(** What the destructor does, for use under other operations. *)
Lemma dtor_full_spec a v s :
  vector_wf s → vecs s !! a = Some v →
  wp (vector_dtor a) s (λ _ s',
    vector_wf s' ∧ vecs s' = delete a (vecs s) ∧ vbrk s' = vbrk s ∧
    (∀ i, d_begin v ≤ i < d_endBuffer v → tval (elems s') i = None) ∧
    (∀ i, ¬ (d_begin v ≤ i < d_end v) →
          tval (elems s') i = tval (elems s) i) ∧
    (∀ a', a' ≠ a → vector_val s' a' = vector_val s a')).
Proof.
  intros Hwf Hv.
  eapply wp_mono.
  { apply wp_and; [by apply (dtor_spec TL a v s)|by apply (dtor_dead a v s)]. }
  intros [] s' ((Hwf' & Hm & Hb & Hlim & Hframe) & Hdead).
  split_and!; try done.
  intros a' Hne. apply vector_val_frame.
  - rewrite Hm. by apply lookup_delete_ne.
  - intros v' i Hv' Hi. apply Hframe. intros Hin.
    destruct Hwf as (HwfE & _ & Hobj & Hapart).
    destruct (Hobj _ _ Hv) as [_ Hbuf].
    destruct (Hobj _ _ Hv') as [_ Hbuf'].
    pose proof (buffer_ok_shape TL _ _ HwfE Hbuf).
    pose proof (buffer_ok_shape TL _ _ HwfE Hbuf').
    apply (apart_disjoint v' v i); [by eapply Hapart|lia|lia].
Qed.

(** X8: the destructor of a vector in a well formed store returns; the
    vector is gone, every slot of its buffer is left without an object,
    every object outside its elements keeps its value, and so does every
    other vector. *)
Theorem dtor_destroys_elements a v (L : list V) s :
  vector_wf s → vector_val s a = Some (v, L) →
  wp (vector_dtor a) s (λ _ s',
    vector_wf s' ∧ vecs s' !! a = None ∧ vbrk s' = vbrk s ∧
    (∀ i, d_begin v ≤ i < d_endBuffer v → tval (elems s') i = None) ∧
    (∀ i, ¬ (d_begin v ≤ i < d_end v) →
          tval (elems s') i = tval (elems s) i) ∧
    (∀ a', a' ≠ a → vector_val s' a' = vector_val s a')).
Proof.
  intros Hwf Hval. destruct (vector_val_inv _ _ _ _ Hval) as [Hv _].
  eapply wp_mono; [by apply (dtor_full_spec a v s)|].
  intros [] s' (Hwf' & Hm & Hrest). split; [done|]. split; [|done].
  rewrite Hm. apply lookup_delete_eq.
Qed.

(** The copy constructor on a fresh address, with the capacity it
    leaves. *)
Lemma copy_ctor_full_spec dst src v (L : list V) s :
  vector_wf s → vector_val s src = Some (v, L) →
  vecs s !! dst = None → 0 < dst < vbrk s →
  wp (vector_copy_ctor dst (ConstRef src)) s (λ _ s',
    vector_wf s' ∧ vbrk s ≤ vbrk s' ∧
    tlimit (elems s) ≤ tlimit (elems s') ∧
    (∀ i, i < tlimit (elems s) → tval (elems s') i = tval (elems s) i) ∧
    (∀ a, a ≠ dst → vector_val s' a = vector_val s a) ∧
    ∃ v' L',
      vecs s' = <[dst := v']> (vecs s) ∧
      vector_val s' dst = Some (v', L') ∧
      vector_copy_rel (St := St) (v, L) (v', L') ∧
      vec_capacity v' = if vec_size v =? 0 then 0 else Z.max 4 (vec_size v)).
Proof.
  intros Hwf Hval Hdst Hrange.
  pose proof (vector_val_inv _ _ _ _ Hval) as [Hv _].
  assert (src ≠ dst) as Hne by congruence.
  eapply wp_mono.
  { apply wp_wlp; [by apply (copy_ctor_spec TL dst src v L s)|].
    apply (copy_ctor_capacity dst src v s); [by apply wf_shape_inv|lia|done..]. }
  intros [] s' ((Hwf' & Hb & Hlim & Hframe & v' & L' & Hm & Hval' & Hrel)
                & v'' & Hv'' & Hcap).
  assert (v'' = v') as ->.
  { rewrite Hm, lookup_insert_eq in Hv''. congruence. }
  split_and!; try done.
  - intros a Ha. apply vector_val_frame.
    + rewrite Hm. by apply lookup_insert_ne.
    + intros w i Hw Hi. apply Hframe.
      by apply (elems_below_limit TL s a w i).
  - exists v', L'. split_and!; try done.
    rewrite Hcap.
    destruct Hwf as (HwfE & _ & Hobj & _).
    destruct (Hobj _ _ Hv) as [_ Hbuf].
    destruct (buffer_ok_int TL _ _ Hbuf) as (Hsz & _ & Hszcap & _).
    rewrite Hsz. unfold vec_size in *.
    destruct (Z.eqb_spec (d_begin v) (d_end v)),
             (Z.eqb_spec (d_end v - d_begin v) 0); try lia.
    destruct (Z.ltb_spec 4 (d_end v - d_begin v)); lia.
Qed.

(** X9: [vector<TYPE> c(v);] in a well formed store returns; [c] holds
    copies of the elements of [v], in a buffer of its own whose capacity
    is [max(4, v.size())], or no buffer at all when [v] is empty; [v],
    every other vector and every object that existed keep their
    values. *)
Theorem copy_ctor_deep_copy src v (L : list V) s :
  vector_wf s → vector_val s src = Some (v, L) →
  wp (new_copy src) s (λ dst s',
    vector_wf s' ∧ dst = vbrk s ∧
    (∀ a, a ≠ dst → vector_val s' a = vector_val s a) ∧
    (∀ i, i < tlimit (elems s) → tval (elems s') i = tval (elems s) i) ∧
    ∃ v' L',
      vector_val s' dst = Some (v', L') ∧
      Forall2 (tcopy (St := St)) L L' ∧
      (L = [] → v' = null_vec) ∧
      (L ≠ [] → d_begin v' ≠ 0 ∧ d_begin v' ≠ d_begin v ∧ apart v v') ∧
      vec_size v' = vec_size v ∧
      vec_capacity v' = if vec_size v =? 0 then 0 else Z.max 4 (vec_size v)).
Proof.
  intros Hwf Hval. unfold new_copy. do 2 wp_step. apply wp_bind.
  set (s0 := VStore (vecs s) (vbrk s + 1) (elems s)).
  assert (vector_wf s0) as Hwf0 by (apply wf_vbrk; [done|lia]).
  pose proof (wf_fresh s Hwf) as Hfresh.
  pose proof Hwf as (_ & Hpos & _ & _).
  eapply wp_mono.
  { apply (copy_ctor_full_spec (vbrk s) src v L s0); [done|done|done|cbn; lia]. }
  intros [] s' (Hwf' & Hb & Hlim & Hframe & Hothers & v' & L' & Hm & Hval'
                & (Hcopies & Hnil & Hcons) & Hcap).
  wp_step. split_and!; try done.
  exists v', L'. cbn [fst snd] in *. split_and!; try done.
  destruct (vector_val_inv _ _ _ _ Hval) as [Hv HL].
  destruct (vector_val_inv _ _ _ _ Hval') as [Hv' HL'].
  apply tvals_length in HL, HL'. apply Forall2_length in Hcopies.
  destruct Hwf as (HwfE & _ & Hobj & _).
  destruct Hwf' as (HwfE' & _ & Hobj' & _).
  destruct (Hobj _ _ Hv) as [_ Hbuf].
  destruct (Hobj' _ _ Hv') as [_ Hbuf'].
  destruct (buffer_ok_int TL _ _ Hbuf) as (_ & _ & ? & _).
  destruct (buffer_ok_int TL _ _ Hbuf') as (_ & _ & ? & _).
  lia.
Qed.

(** X10: [a = b;] with the parameter of [operator=] copy constructed:
    the call returns, also when [b] is [a] itself; [a] then holds copies
    of the elements [b] had, in a buffer of its own, the buffer [a] had
    holds no object any more, and every other vector, [b] included,
    keeps its value. *)
Theorem assign_copies this other v (L : list V) vo (Lo : list V) s :
  vector_wf s → vector_val s this = Some (v, L) →
  vector_val s other = Some (vo, Lo) →
  wp (assign_copy this other) s (λ _ s',
    vector_wf s' ∧
    (∃ v' L',
       vector_val s' this = Some (v', L') ∧
       Forall2 (tcopy (St := St)) Lo L' ∧
       (Lo = [] → v' = null_vec) ∧
       (Lo ≠ [] → d_begin v' ≠ 0 ∧ d_begin v' ≠ d_begin vo ∧ apart vo v')) ∧
    (∀ i, d_begin v ≤ i < d_endBuffer v → tval (elems s') i = None) ∧
    (∀ a, a ≠ this → a ≠ vbrk s → vector_val s' a = vector_val s a) ∧
    vecs s' !! vbrk s = None).
Proof.
  intros Hwf Hval Hvalo. unfold assign_copy. do 2 wp_step. apply wp_bind.
  set (s0 := VStore (vecs s) (vbrk s + 1) (elems s)).
  assert (vector_wf s0) as Hwf0 by (apply wf_vbrk; [done|lia]).
  pose proof (wf_fresh s Hwf) as Hfresh.
  pose proof Hwf as (_ & Hpos & _ & _).
  destruct (vector_val_inv _ _ _ _ Hval) as [Hv HL].
  assert (this ≠ vbrk s) as Hne by congruence.
  eapply wp_mono.
  { apply (copy_ctor_full_spec (vbrk s) other vo Lo s0);
      [done|done|done|cbn; lia]. }
  intros [] s1 (Hwf1 & Hb1 & Hlim1 & Hframe1 & Hothers1 & v' & L' & Hm1 & Hval1
                & (Hcopies & Hnil & Hcons) & _).
  cbn [fst snd] in Hcopies, Hnil, Hcons.
  change (vecs s0) with (vecs s) in Hm1.
  change (elems s0) with (elems s) in *.
  destruct (vector_val_inv _ _ _ _ Hval1) as [Hv1 HL1].
  assert (vecs s1 !! this = Some v) as Hthis1.
  { rewrite Hm1, lookup_insert_ne by done. done. }
  unfold vector_assign. apply wp_bind. apply wp_bind.
  eapply wp_mono; [by apply (swap_spec this (vbrk s) v v' s1)|].
  intros [] s2 Hs2. wp_step.
  pose proof (wf_swap this (vbrk s) v v' s1 Hne Hthis1 Hv1 Hwf1) as Hwf2.
  rewrite <- Hs2 in Hwf2.
  assert (vecs s2 !! vbrk s = Some v) as Hp2.
  { rewrite Hs2. cbn. apply lookup_insert_eq. }
  assert (vecs s2 !! this = Some v') as Hthis2.
  { rewrite Hs2. cbn. rewrite lookup_insert_ne by done. apply lookup_insert_eq. }
  assert (elems s2 = elems s1) as He2 by (by rewrite Hs2).
  eapply wp_mono; [by apply (dtor_full_spec (vbrk s) v s2)|].
  intros [] s3 (Hwf3 & Hm3 & Hb3 & Hdead3 & Hframe3 & Hothers3).
  split_and!; try done.
  - exists v', L'. split_and!; try done.
    rewrite Hothers3 by done.
    apply vector_val_intro; [done|]. by rewrite He2.
  - intros a Ha Hb. rewrite Hothers3 by done.
    transitivity (vector_val s1 a); [|exact (Hothers1 a Hb)].
    apply vector_val_frame.
    + rewrite Hs2. cbn. by rewrite !lookup_insert_ne.
    + intros w i _ _. by rewrite He2.
  - rewrite Hm3. apply lookup_delete_eq.
Qed.

(** X11: [a = move(b);] with the parameter of [operator=] move
    constructed from a handle to [b]: the call returns and [a] holds the
    three pointers and the elements [b] had.  When [b] is another vector
    it is left empty and the buffer [a] had holds no object any more;
    when [b] is [a] itself no object changes.  Every other vector keeps
    its value. *)
Theorem assign_moves this (r : Rvalue) src v (L : list V) vs (Ls : list V) s :
  vector_wf s → handle_of r src →
  vector_val s this = Some (v, L) → vector_val s src = Some (vs, Ls) →
  wp (assign_move this r) s (λ _ s',
    vector_wf s' ∧
    vector_val s' this = Some (vs, Ls) ∧
    (src ≠ this →
       vector_val s' src = Some (null_vec, []) ∧
       ∀ i, d_begin v ≤ i < d_endBuffer v → tval (elems s') i = None) ∧
    (src = this → ∀ i, tval (elems s') i = tval (elems s) i) ∧
    (∀ a, a ≠ this → a ≠ src → a ≠ vbrk s →
          vector_val s' a = vector_val s a)).
Proof.
  intros Hwf Hr Hval Hvals. unfold assign_move. do 2 wp_step. apply wp_bind.
  set (s0 := VStore (vecs s) (vbrk s + 1) (elems s)).
  assert (vector_wf s0) as Hwf0 by (apply wf_vbrk; [done|lia]).
  pose proof (wf_fresh s Hwf) as Hfresh.
  pose proof Hwf as (_ & Hpos & _ & _).
  destruct (vector_val_inv _ _ _ _ Hval) as [Hv HL].
  destruct (vector_val_inv _ _ _ _ Hvals) as [Hvs HLs].
  assert (this ≠ vbrk s) as Hne by congruence.
  assert (src ≠ vbrk s) as Hnes by congruence.
  eapply wp_mono.
  { apply (move_ctor_spec (vbrk s) r src vs s0); [done|done|done]. }
  intros [] s1 Hs1. cbn [vecs vbrk elems s0] in Hs1.
  assert (vector_wf s1) as Hwf1.
  { rewrite Hs1. apply (wf_move TL (vbrk s) src vs s0); [done..|cbn; lia]. }
  assert (vecs s1 !! vbrk s = Some vs) as Hp1.
  { rewrite Hs1. cbn. rewrite lookup_insert_ne by done. apply lookup_insert_eq. }
  assert (elems s1 = elems s) as He1 by (by rewrite Hs1).
  assert (∃ w, vecs s1 !! this = Some w ∧
               (src = this → w = null_vec) ∧ (src ≠ this → w = v))
    as (w & Hthis1 & Hw).
  { rewrite Hs1. cbn. destruct (decide (src = this)) as [->|Hd].
    - exists null_vec. rewrite lookup_insert_eq. by split_and!.
    - exists v. rewrite !lookup_insert_ne by done. by split_and!. }
  unfold vector_assign. apply wp_bind. apply wp_bind.
  eapply wp_mono; [by apply (swap_spec this (vbrk s) w vs s1)|].
  intros [] s2 Hs2. wp_step.
  pose proof (wf_swap this (vbrk s) w vs s1 Hne Hthis1 Hp1 Hwf1) as Hwf2.
  rewrite <- Hs2 in Hwf2.
  assert (vecs s2 !! vbrk s = Some w) as Hp2.
  { rewrite Hs2. cbn. apply lookup_insert_eq. }
  assert (vecs s2 !! this = Some vs) as Hthis2.
  { rewrite Hs2. cbn. rewrite lookup_insert_ne by done. apply lookup_insert_eq. }
  assert (elems s2 = elems s) as He2 by (by rewrite Hs2).
  assert (∀ a, a ≠ this → a ≠ vbrk s → vecs s2 !! a = vecs s1 !! a) as Hrest2.
  { intros a Ha Hb. rewrite Hs2. cbn. by rewrite !lookup_insert_ne. }
  eapply wp_mono; [by apply (dtor_full_spec (vbrk s) w s2)|].
  intros [] s3 (Hwf3 & Hm3 & Hb3 & Hdead3 & Hframe3 & Hothers3).
  split_and!; try done.
  - rewrite Hothers3 by done.
    apply vector_val_intro; [done|]. by rewrite He2.
  - intros Hd. rewrite (proj2 Hw Hd) in *. split; [|done].
    rewrite Hothers3 by done. apply vector_val_intro.
    + rewrite Hrest2 by done. rewrite Hs1. cbn. apply lookup_insert_eq.
    + done.
  - intros Hd i. rewrite (proj1 Hw Hd) in *. rewrite Hframe3, He2; [done|].
    cbn. lia.
  - intros a Ha Hb Hc. rewrite Hothers3 by done. apply vector_val_frame.
    + rewrite Hrest2 by done. rewrite Hs1. cbn. by rewrite !lookup_insert_ne.
    + intros w' i _ _. by rewrite He2.
Qed.

(** ** [push_back] with and without room *)

(** X12: when the vector has room, [push_back(x)] returns for every
    object [x], an element of the vector itself included; it does not
    reallocate: the pointers to the buffer stay, the new element is a
    copy of [x] in the slot that [end()] pointed to, and every other
    object and vector is untouched. *)
Theorem push_back_with_room this v (L : list V) x vx s :
  vector_wf s → vector_val s this = Some (v, L) →
  tval (elems s) x = Some vx → d_end v < d_endBuffer v →
  wp (vector_push_back this (ConstRef x)) s (λ _ s',
    vector_wf s' ∧
    ∃ w,
      vector_val s' this
        = Some (Vec (d_begin v) (d_end v + 1) (d_endBuffer v), L ++ [w]) ∧
      tcopy (St := St) vx w ∧
      (∀ i, i ≠ d_end v → tval (elems s') i = tval (elems s) i) ∧
      (∀ a, a ≠ this → vecs s' !! a = vecs s !! a)).
Proof.
  intros Hwf Hval Hx Hroom. unfold vector_push_back.
  destruct (vector_val_inv _ _ _ _ Hval) as [Hv _].
  apply wp_bind. unfold grow_if_full. repeat wp_step.
  destruct (Z.eqb_spec (d_end v) (d_endBuffer v)) as [?|_]; [lia|].
  wp_step. apply wp_bind.
  eapply wp_mono; [by apply (assert_not_full_ok this v s)|].
  intros [] s1 ->.
  eapply wp_mono; [by apply (construct_copy_spec TL this v L x vx s)|].
  intros [] s2 (Hwf2 & Hb2 & Hlim2 & Hframe2 & w & Hm2 & Hval2 & Hw).
  split; [done|]. exists w. split_and!; try done.
  intros a Ha. rewrite Hm2. by apply lookup_insert_ne.
Qed.

(** X13: when the vector is full and can grow, [push_back(x)] of an
    object [x] outside the vector returns; the elements are copies of
    the former ones, followed by a copy of [x], in a buffer newly given
    out whose capacity is 4 for an empty vector and [int(1.5 * size())]
    otherwise. *)
Theorem push_back_growth this v (L : list V) x vx s :
  vector_wf s → vector_val s this = Some (v, L) →
  tval (elems s) x = Some vx → ¬ (d_begin v ≤ x < d_end v) →
  d_end v = d_endBuffer v → can_grow (St := St) v →
  wp (vector_push_back this (ConstRef x)) s (λ _ s',
    vector_wf s' ∧
    ∃ v' L0 w,
      vector_val s' this = Some (v', L0 ++ [w]) ∧
      Forall2 (tcopy (St := St)) L L0 ∧ tcopy (St := St) vx w ∧
      tlimit (elems s) ≤ d_begin v' ∧
      vec_size v' = vec_size v + 1 ∧
      vec_capacity v' = if vec_size v =? 0 then 4 else 3 * vec_size v ÷ 2).
Proof.
  intros Hwf Hval Hx Hout Hfull Hgrow. unfold vector_push_back.
  pose proof (live_in_range _ _ TL _ _ _ (proj1 Hwf) Hx) as Hxr.
  destruct (vector_val_inv _ _ _ _ Hval) as [Hv _].
  pose proof Hwf as (HwfE & _ & Hobj & _).
  destruct (Hobj _ _ Hv) as [_ Hbuf].
  destruct (buffer_ok_int TL _ _ Hbuf) as (Hsz & Hcap & Hszcap & Hcapmax).
  destruct (Hgrow Hfull) as [Hne1 Hbytes].
  apply wp_bind. eapply wp_mono.
  { apply wp_wlp; [by apply (grow_spec TL this v L s)|].
    apply (grow_capacity this v s); [by apply wf_shape_inv|done..]. }
  intros [] s1 ((Hwf1 & Hb1 & Hlim1 & Hframe1 & v' & L0 & Hm1 & Hval1 & Hsz1
                 & Hroom1 & HL0) & v'' & Hv'' & Hcap1).
  pose proof (vector_val_inv _ _ _ _ Hval1) as [Hv1 _].
  assert (v'' = v') as -> by congruence.
  destruct HL0 as [[-> _]|[Hfresh Hcopies]]; [lia|].
  specialize (Hcap1 _ eq_refl). rewrite Hsz in Hcap1.
  assert (vec_capacity v = vec_size v) as Hcs.
  { unfold vec_capacity, vec_size. lia. }
  assert (vec_capacity v' = if vec_size v =? 0 then 4 else 3 * vec_size v ÷ 2)
    as Hcap'.
  { apply Hcap1. rewrite Hcs.
    destruct (Z.eqb_spec (vec_size v) 0); [lia|].
    assert (2 ≤ vec_size v) by lia.
    assert (vec_size v + 1 ≤ 3 * vec_size v ÷ 2)
      by (apply Z.quot_le_lower_bound; lia).
    lia. }
  apply wp_bind. eapply wp_mono; [by apply (assert_not_full_ok this v' s1)|].
  intros [] s2 ->.
  assert (tval (elems s1) x = Some vx) as Hx1.
  { rewrite Hframe1; [done|lia|done]. }
  eapply wp_mono; [by apply (construct_copy_spec TL this v' L0 x vx s1)|].
  intros [] s3 (Hwf3 & Hb3 & Hlim3 & Hframe3 & w & Hm3 & Hval3 & Hw).
  split; [done|]. eexists _, L0, w. split_and!; try done.
  unfold vec_size in *. cbn. lia.
Qed.

(** ** [reserve] releases the buffer it replaces *)

Lemma reserve_dead this n v (L : list V) s :
  vector_wf s → vecs s !! this = Some v →
  tvals (elems s) (d_begin v) (Z.to_nat (vec_size v)) = Some L →
  in_int n → sizeof (St := St) * n ≤ INT_MAX → vec_capacity v < n →
  wp (vector_reserve this n) s (λ _ s',
    ∀ i, d_begin v ≤ i < d_endBuffer v → tval (elems s') i = None).
Proof.
  intros Hwf Hv HL Hn Hbytes Hgrow.
  pose proof (sizeof_range _ _ TL) as [Hs1 Hs2].
  pose proof Hwf as (HwfE & Hpos & Hobj & Hapart).
  destruct (Hobj _ _ Hv) as [Hrange Hbuf].
  destruct (buffer_ok_int TL _ _ Hbuf) as (Hsz & Hcap & Hszcap & Hcapmax).
  pose proof (wf_fresh s Hwf) as Hfresh.
  unfold vector_reserve, vector_capacity.
  repeat wp_step.
  change (d_endBuffer v - d_begin v) with (vec_capacity v). rewrite Hcap.
  destruct (Z.ltb_spec (vec_capacity v) n) as [_|?]; [|lia].
  unfold vector_ctor. repeat wp_step.
  assert (0 ≤ sizeof (St := St) * n ≤ INT_MAX) as Hsize by nia.
  rewrite (to_int_id (sizeof (St := St) * n))
    by (unfold in_int, INT_MIN, INT_MAX in *; lia).
  assert (sizeof (St := St) * n / sizeof (St := St) = n) as Hdiv.
  { rewrite Z.mul_comm. apply Z.div_mul. lia. }
  wp_elems (new_ok _ _ TL (elems s) (sizeof (St := St) * n)); [done|lia|].
  intros p E1 (HwfE1 & Hp & Hlim1 & Hsame1). rewrite Hdiv in Hlim1.
  pose proof (limit_pos _ _ TL _ HwfE) as Hlimpos.
  remember (vbrk s) as tmp eqn:Htmp.
  repeat wp_step. rewrite !insert_insert_eq.
  set (sb := VStore (<[tmp := Vec p p (p + n)]> (vecs s)) (tmp + 1) E1).
  assert (vector_wf sb) as Hwfb.
  { apply wf_update; [done|done|lia|lia|lia| |].
    - right. cbn. unfold vec_capacity. cbn. split_and!; try lia.
      intros i Hi. rewrite Hsame1. apply (dead_above_limit TL); [done|lia].
    - intros a0 v0 Hne Hv0. split; [|by intros i _].
      destruct (Hobj _ _ Hv0) as [_ Hbuf0].
      right. cbn. pose proof (buffer_ok_shape TL _ _ HwfE Hbuf0). lia. }
  pose proof (buffer_ok_shape TL _ _ HwfE Hbuf) as Hshape.
  destruct v as [b e eb]. unfold vec_size, vec_capacity in *.
  cbn [d_begin d_end d_endBuffer] in *.
  unfold for_range. destruct (Z.leb_spec b e) as [_|?]; [|lia].
  eapply wp_mono.
  { apply (copy_loop_spec TL tmp p (p + n) (Z.to_nat (e - b)) sb p b L);
      [done| |lia|].
    - subst sb. cbn. apply lookup_insert_eq.
    - subst sb. cbn [elems]. rewrite <- HL. by apply tvals_ext. }
  intros [] sc (Hwfc & Hmc & Hbc & Hlimc & (L' & HL' & Hcopies) & Hframec).
  destruct sc as [mc bc Ec]. subst sb. cbn [vecs vbrk elems] in *. subst mc bc.
  rewrite insert_insert_eq in Hwfc |- *.
  replace (p + Z.of_nat (Z.to_nat (e - b))) with (p + (e - b)) in * by lia.
  set (new := Vec p (p + (e - b)) (p + n)) in *.
  set (sc := VStore (<[tmp:=new]> (vecs s)) (tmp + 1) Ec) in *.
  assert (vecs sc !! this = Some (Vec b e eb)) as Hthis.
  { subst sc. cbn. rewrite lookup_insert_ne by lia. done. }
  assert (vecs sc !! tmp = Some new) as Htmpv.
  { subst sc. cbn. apply lookup_insert_eq. }
  apply wp_bind.
  eapply wp_mono; [apply (swap_spec this tmp (Vec b e eb) new sc); [lia|done..]|].
  intros [] s1 ->.
  eapply wp_mono.
  { eapply (dtor_dead tmp (Vec b e eb)).
    - apply wf_swap; [lia|done..].
    - cbn. apply lookup_insert_eq. }
  intros [] s' Hdead. done.
Qed.

(** X15: when [reserve(n)] gives a vector a larger buffer, every slot
    of the buffer it had is left without an object, the new buffer lies
    in storage newly given out, every object outside the old elements
    keeps its value, and so does every other vector. *)
Theorem reserve_releases_old_buffer this n v (L : list V) s :
  vector_wf s → vector_val s this = Some (v, L) →
  in_int n → sizeof (St := St) * n ≤ INT_MAX → vec_capacity v < n →
  wp (vector_reserve this n) s (λ _ s',
    vector_wf s' ∧
    (∀ i, d_begin v ≤ i < d_endBuffer v → tval (elems s') i = None) ∧
    (∃ v', vecs s' !! this = Some v' ∧ tlimit (elems s) ≤ d_begin v' ∧
           vec_capacity v' = n) ∧
    (∀ i, i < tlimit (elems s) → ¬ (d_begin v ≤ i < d_end v) →
          tval (elems s') i = tval (elems s) i) ∧
    (∀ a, a ≠ this → vector_val s' a = vector_val s a)).
Proof.
  intros Hwf Hval Hn Hbytes Hgrow.
  destruct (vector_val_inv _ _ _ _ Hval) as [Hv HL].
  eapply wp_mono.
  { apply wp_and; [by apply (reserve_spec TL this n v L s)|
                   by apply (reserve_dead this n v L s)]. }
  intros [] s' ((Hwf' & Hb' & Hlim' & v' & L' & Hm & Hsz' & HL' & Hg & _) & Hdead).
  destruct (Hg Hgrow) as (Hcap' & _ & Hp & Hframe).
  split_and!; try done.
  - exists v'. split_and!; try done. rewrite Hm. apply lookup_insert_eq.
  - intros a Ha. apply vector_val_frame.
    + rewrite Hm. by apply lookup_insert_ne.
    + intros w i Hw Hi. apply Hframe.
      * by apply (elems_below_limit TL s a w i).
      * intros Hin. apply (elems_apart s a this w v i); try done.
        pose proof Hwf as (HwfE & _ & Hobj & _).
        destruct (Hobj _ _ Hv) as [_ Hbuf].
        pose proof (buffer_ok_shape TL _ _ HwfE Hbuf). lia.
Qed.

End VectorProps.

Lemma reserve_releases_old_buffer_witness :
  wp (vector_reserve (RI := impl03) 1 10) one_int_vector (λ _ s',
    vector_wf (RI := impl03) s' ∧
    (∀ i, d_begin (Vec 2 3 6) ≤ i < d_endBuffer (Vec 2 3 6) →
          tval (elems s') i = None) ∧
    (∃ v', vecs s' !! 1 = Some v' ∧
           tlimit (elems one_int_vector) ≤ d_begin v' ∧
           vec_capacity v' = 10) ∧
    (∀ i, i < tlimit (elems one_int_vector) →
          ¬ (d_begin (Vec 2 3 6) ≤ i < d_end (Vec 2 3 6)) →
          tval (elems s') i = tval (elems one_int_vector) i) ∧
    (∀ a, a ≠ 1 → vector_val s' a = vector_val one_int_vector a)).
Proof.
  apply (reserve_releases_old_buffer (RI := impl03) int_laws 1 10
           (Vec 2 3 6) [7] one_int_vector).
  - apply one_int_vector_wf.
  - reflexivity.
  - by unfold in_int, INT_MIN, INT_MAX.
  - by vm_compute.
  - by vm_compute.
Defined.

(** ** [reserve] with a byte count that is no [int] *)

Lemma fails_bind_wp {St A B} (m : M St A) (k : A → M St B) s
    (P : failure → Prop) :
  wp m s (λ a s', ∃ f, k a s' = Fail f ∧ P f) →
  ∃ f, bind m k s = Fail f ∧ P f.
Proof. intros (a & s' & Hm & Hk). unfold bind. by rewrite Hm. Qed.

Lemma fails_bind_fail {St A B} (m : M St A) (k : A → M St B) s f
    (P : failure → Prop) :
  m s = Fail f → P f → ∃ f', bind m k s = Fail f' ∧ P f'.
Proof. intros Hm HP. exists f. unfold bind. by rewrite Hm. Qed.

(** X16: on a [vector<int>], [reserve(n)] with [n] above the capacity
    and a byte count [4 * n] that [int(...)] narrows to a negative number
    (as for every [n] from [2^29] to [2^30 - 1]) does not return:
    [operator new] throws. *)
Theorem reserve_int_overflow_fails `{RI : RvalueImpl} (this n : Z) (v : vec)
    (s : vstore istore) :
  vecs s !! this = Some v → to_int (vec_capacity v) < n →
  to_int (4 * n) < 0 →
  vector_reserve this n s = Fail BadAlloc.
Proof.
  intros Hv Hcap Hneg.
  assert (∃ f, vector_reserve this n s = Fail f ∧ f = BadAlloc)
    as (f & Hrun & ->); [|done].
  unfold vector_reserve, vector_capacity.
  apply fails_bind_wp. repeat wp_step.
  change (d_endBuffer v - d_begin v) with (vec_capacity v).
  destruct (Z.ltb_spec (to_int (vec_capacity v)) n) as [_|?]; [|lia].
  apply fails_bind_wp. wp_step.
  apply fails_bind_wp. unfold vector_ctor. wp_step.
  cbn [sizeof int_ops operator_new].
  apply (fails_bind_fail _ _ _ BadAlloc); [|done].
  unfold in_elems, int_new. cbn [elems].
  destruct (Z.ltb_spec (to_int (4 * n)) 0); [done|lia].
Qed.

Lemma reserve_int_overflow_fails_witness :
  vector_reserve (RI := impl03) 1 536870912 empty_int_vector = Fail BadAlloc.
Proof.
  apply (reserve_int_overflow_fails (RI := impl03) 1 536870912 null_vec
           empty_int_vector).
  - reflexivity.
  - by vm_compute.
  - by vm_compute.
Defined.

(** ** The concrete stores are well formed *)

Lemma two_int_vectors_wf : vector_wf (RI := impl03) two_int_vectors.
Proof.
  split_and!; cbn.
  - split; cbn; [lia|]. intros a v.
    rewrite !lookup_insert_Some, lookup_empty. intros [[<- _]|[_ [[<- _]|[_ ?]]]]; [lia..|done].
  - lia.
  - intros a v. rewrite !lookup_insert_Some, lookup_empty.
    intros [[<- <-]|[_ [[<- <-]|[_ ?]]]]; [| |done].
    + split; [lia|]. right. cbn. unfold vec_capacity, INT_MAX. cbn.
      split_and!; try lia.
      * intros i Hi. assert (i = 1 ∨ i = 2) as [-> | ->] by lia; by eexists.
      * intros i Hi. by rewrite !lookup_insert_ne by lia.
    + split; [lia|by left].
  - intros a a' v v' Hne. rewrite !lookup_insert_Some, !lookup_empty.
    intros [[<- <-]|[_ [[<- <-]|[_ ?]]]] [[<- <-]|[_ [[<- <-]|[_ ?]]]];
      try done; unfold apart; cbn; lia.
Qed.

Lemma empty_vector_and_int_wf : vector_wf (RI := impl03) empty_vector_and_int.
Proof.
  split_and!; cbn.
  - split; cbn; [lia|]. intros a v [<- <-]%lookup_singleton_Some. lia.
  - lia.
  - intros a v [<- <-]%lookup_singleton_Some. split; [lia|by left].
  - intros a a' v v' Hne [<- _]%lookup_singleton_Some
      [<- _]%lookup_singleton_Some. done.
Qed.

Lemma dtor_destroys_elements_witness :
  wp (vector_dtor (RI := impl03) 1) one_int_vector (λ _ s',
    vector_wf (RI := impl03) s' ∧ vecs s' !! 1 = None ∧
    vbrk s' = vbrk one_int_vector ∧
    (∀ i, d_begin (Vec 2 3 6) ≤ i < d_endBuffer (Vec 2 3 6) →
          tval (elems s') i = None) ∧
    (∀ i, ¬ (d_begin (Vec 2 3 6) ≤ i < d_end (Vec 2 3 6)) →
          tval (elems s') i = tval (elems one_int_vector) i) ∧
    (∀ a', a' ≠ 1 → vector_val s' a' = vector_val one_int_vector a')).
Proof.
  apply (dtor_destroys_elements (RI := impl03) int_laws 1 (Vec 2 3 6) [7]
           one_int_vector).
  - apply one_int_vector_wf.
  - reflexivity.
Defined.

Lemma copy_ctor_deep_copy_witness :
  wp (new_copy (RI := impl03) 1) one_int_vector (λ dst s',
    vector_wf (RI := impl03) s' ∧ dst = vbrk one_int_vector ∧
    (∀ a, a ≠ dst → vector_val s' a = vector_val one_int_vector a) ∧
    (∀ i, i < tlimit (elems one_int_vector) →
          tval (elems s') i = tval (elems one_int_vector) i) ∧
    ∃ v' L',
      vector_val s' dst = Some (v', L') ∧
      Forall2 (tcopy (St := istore)) [7] L' ∧
      ([7] = [] → v' = null_vec) ∧
      ([7] ≠ [] → d_begin v' ≠ 0 ∧ d_begin v' ≠ d_begin (Vec 2 3 6) ∧
                  apart (Vec 2 3 6) v') ∧
      vec_size v' = vec_size (Vec 2 3 6) ∧
      vec_capacity v' =
        if vec_size (Vec 2 3 6) =? 0 then 0
        else Z.max 4 (vec_size (Vec 2 3 6))).
Proof.
  apply (copy_ctor_deep_copy (RI := impl03) int_laws 1 (Vec 2 3 6) [7]
           one_int_vector).
  - apply one_int_vector_wf.
  - reflexivity.
Defined.

Lemma assign_copies_witness :
  wp (assign_copy (RI := impl03) 2 1) two_int_vectors (λ _ s',
    vector_wf (RI := impl03) s' ∧
    (∃ v' L',
       vector_val s' 2 = Some (v', L') ∧
       Forall2 (tcopy (St := istore)) [7; 8] L' ∧
       ([7; 8] = [] → v' = null_vec) ∧
       ([7; 8] ≠ [] → d_begin v' ≠ 0 ∧ d_begin v' ≠ d_begin (Vec 1 3 5) ∧
                      apart (Vec 1 3 5) v')) ∧
    (∀ i, d_begin null_vec ≤ i < d_endBuffer null_vec →
          tval (elems s') i = None) ∧
    (∀ a, a ≠ 2 → a ≠ vbrk two_int_vectors →
          vector_val s' a = vector_val two_int_vectors a) ∧
    vecs s' !! vbrk two_int_vectors = None).
Proof.
  apply (assign_copies (RI := impl03) int_laws 2 1 null_vec [] (Vec 1 3 5)
           [7; 8] two_int_vectors).
  - apply two_int_vectors_wf.
  - reflexivity.
  - reflexivity.
Defined.

Lemma assign_moves_witness :
  wp (assign_move (RI := impl03) 2 (Cpp03.MkRvalue 1)) two_int_vectors
     (λ _ s',
    vector_wf (RI := impl03) s' ∧
    vector_val s' 2 = Some (Vec 1 3 5, [7; 8]) ∧
    (1 ≠ 2 →
       vector_val s' 1 = Some (null_vec, []) ∧
       ∀ i, d_begin null_vec ≤ i < d_endBuffer null_vec →
            tval (elems s') i = None) ∧
    (1 = 2 → ∀ i, tval (elems s') i = tval (elems two_int_vectors) i) ∧
    (∀ a, a ≠ 2 → a ≠ 1 → a ≠ vbrk two_int_vectors →
          vector_val s' a = vector_val two_int_vectors a)).
Proof.
  apply (assign_moves (RI := impl03) int_laws 2 (Cpp03.MkRvalue 1) 1
           null_vec [] (Vec 1 3 5) [7; 8] two_int_vectors).
  - apply two_int_vectors_wf.
  - by repeat split.
  - reflexivity.
  - reflexivity.
Defined.

Lemma push_back_with_room_witness :
  wp (vector_push_back (RI := impl03) 1 (ConstRef 2)) one_int_vector
     (λ _ s',
    vector_wf (RI := impl03) s' ∧
    ∃ w,
      vector_val s' 1
        = Some (Vec (d_begin (Vec 2 3 6)) (d_end (Vec 2 3 6) + 1)
                    (d_endBuffer (Vec 2 3 6)), [7] ++ [w]) ∧
      tcopy (St := istore) 7 w ∧
      (∀ i, i ≠ d_end (Vec 2 3 6) →
            tval (elems s') i = tval (elems one_int_vector) i) ∧
      (∀ a, a ≠ 1 → vecs s' !! a = vecs one_int_vector !! a)).
Proof.
  apply (push_back_with_room (RI := impl03) int_laws 1 (Vec 2 3 6) [7] 2 7
           one_int_vector).
  - apply one_int_vector_wf.
  - reflexivity.
  - reflexivity.
  - cbn. lia.
Defined.

Lemma push_back_growth_witness :
  wp (vector_push_back (RI := impl03) 1 (ConstRef 1)) empty_vector_and_int
     (λ _ s',
    vector_wf (RI := impl03) s' ∧
    ∃ v' L0 w,
      vector_val s' 1 = Some (v', L0 ++ [w]) ∧
      Forall2 (tcopy (St := istore)) [] L0 ∧ tcopy (St := istore) 7 w ∧
      tlimit (elems empty_vector_and_int) ≤ d_begin v' ∧
      vec_size v' = vec_size null_vec + 1 ∧
      vec_capacity v' =
        if vec_size null_vec =? 0 then 4 else 3 * vec_size null_vec ÷ 2).
Proof.
  apply (push_back_growth (RI := impl03) int_laws 1 null_vec [] 1 7
           empty_vector_and_int).
  - apply empty_vector_and_int_wf.
  - reflexivity.
  - reflexivity.
  - cbn. lia.
  - reflexivity.
  - intros _. split; by vm_compute.
Defined.

(** ** A [vector<int>] keeps the values pushed to it *)

(** X14: on a [vector<int>] of value [(v, L)] that has room or can
    grow, [push_back(x)] for an [int] [x] of value [n] outside the
    vector, followed by reading [v[size() - 1]], returns [n]; the vector
    then holds exactly [L] followed by [n], whether or not it was
    reallocated. *)
Theorem push_back_int_read_back `{RI : RvalueImpl} (this : Z) (v : vec)
    (L : list Z) (x n : Z) (s : vstore istore) :
  vector_wf s → vector_val s this = Some (v, L) →
  ints (elems s) !! x = Some n → ¬ (d_begin v ≤ x < d_end v) →
  can_grow (St := istore) v →
  wp (vector_push_back this (ConstRef x) ;;
      sz <- vector_size this ;;
      p <- vector_at this (sz - 1) ;;
      read_int p) s (λ r s',
    r = n ∧ vector_wf s' ∧
    ∃ v', vector_val s' this = Some (v', L ++ [n]) ∧
          vec_size v' = vec_size v + 1).
Proof.
  intros Hwf Hval Hx Hout Hgrow. apply wp_bind.
  eapply wp_mono; [by apply (push_back_spec int_laws this v L x n s)|].
  intros [] s1 (Hwf1 & v' & L0 & w & Hval1 & HL0 & Hsz1 & Hw & Hx1).
  cbn in Hw. subst w.
  assert (L0 = L) as ->.
  { destruct HL0 as [->|Hc]; [done|]. clear -Hc.
    induction Hc as [|a b L1 L2 Hab _ IH]; [done|].
    cbn in Hab. by rewrite Hab, IH. }
  destruct (vector_val_inv _ _ _ _ Hval1) as [Hv1 HL1].
  pose proof (wf_vector_size int_laws s1 this v' _ Hwf1 Hval1) as Hsize.
  apply wp_bind. exists (vec_size v'), s1. split; [done|].
  unfold vector_at. repeat wp_step. unfold read_int.
  apply wp_in_elems.
  pose proof (tvals_length _ _ _ _ HL1) as Hlen. rewrite length_app in Hlen.
  cbn in Hlen.
  assert (tval (elems s1) (d_begin v' + (vec_size v' - 1)) = Some n) as Hlast.
  { replace (vec_size v' - 1) with (Z.of_nat (length L)) by lia.
    apply (tvals_lookup _ _ _ _ HL1).
    rewrite lookup_app_r by done. by rewrite Nat.sub_diag. }
  cbn in Hlast. exists n, (elems s1). split.
  { unfold int_load. by rewrite Hlast. }
  split; [done|]. destruct s1. cbn. split; [done|]. by exists v'.
Qed.

Lemma push_back_int_read_back_witness :
  wp (vector_push_back (RI := impl03) 1 (ConstRef 1) ;;
      sz <- vector_size 1 ;;
      p <- vector_at 1 (sz - 1) ;;
      read_int p) empty_vector_and_int (λ r s',
    r = 7 ∧ vector_wf (RI := impl03) s' ∧
    ∃ v', vector_val s' 1 = Some (v', [] ++ [7]) ∧
          vec_size v' = vec_size null_vec + 1).
Proof.
  apply (push_back_int_read_back (RI := impl03) 1 null_vec [] 1 7
           empty_vector_and_int).
  - apply empty_vector_and_int_wf.
  - reflexivity.
  - reflexivity.
  - cbn. lia.
  - intros _. split; by vm_compute.
Defined.
